(** * RoomViewModel: lifecycle, call arbitration and send commands

    A shallow embedding of [src/domain/session/room/RoomViewModel.js]
    (hydrogen-web).  The view model is a record of its fields together with
    the collaborators it drives (room, clock, tracked disposables); its
    methods are written in a small state-and-exception monad.  Asynchronous
    methods of the lifecycle are cut at their [await]s, so that the event
    loop can interleave them; the send commands run against an environment
    that answers their calls. *)

From stdpp Require Import gmap strings list.
From Stdlib Require Import ZArith Lia.
From Stdlib Require Ascii.

Open Scope Z_scope.

(** ** Calls and the predicate of [_setupCallViewModel] *)

(** A candidate of the call collection: [{id, roomId, hasJoined}]. *)
Record Call := {
  call_id : string;
  call_roomId : string;
  call_hasJoined : bool
}.

(** The external room object, as far as the lifecycle reads it. *)
Record Room := {
  room_id : string;
  isArchived : bool
}.

(** [c => c.roomId === this._room.id && c.hasJoined] (lines 55-57). *)
Definition callFilter (room : Room) (c : Call) : bool :=
  bool_decide (call_roomId c = room_id room) && call_hasJoined c.

(** ** Map-pick arbitration *)

Module PickMap.
Section arbitration.
Context {K : Type} `{Countable K}.
Context (key_lt : relation K) `{!RelDecision key_lt}.
Context {V : Type} (visible : V → bool).

(** Mutations of the externally owned keyed collection. *)
Inductive MapEvent :=
| Insert (k : K) (v : V)
| Remove (k : K)
| Update (k : K) (v : V).

(** The collection itself.  Keys are unique: an insert needs a fresh key, a
    remove or an update an existing one; any other event is not one the
    collection can emit. *)
Definition collection_step (ev : MapEvent) (m : gmap K V) : option (gmap K V) :=
  match ev with
  | Insert k v => match m !! k with None => Some (<[k:=v]> m) | Some _ => None end
  | Remove k => match m !! k with Some _ => Some (delete k m) | None => None end
  | Update k v => match m !! k with Some _ => Some (<[k:=v]> m) | None => None end
  end.

(** Modelled from the spec: PickMapObservableValue
    (observable/value/PickMapObservableValue) and the filtered view it is
    built on are not part of the sources.  Section 4.3: a working set of the
    currently visible (key, value) pairs, and the pick, the candidate
    associated with the lowest key. *)
Record Arbiter := {
  working : gmap K V;
  pick : option K
}.

Definition empty : Arbiter := {| working := ∅; pick := None |}.

(** The value held by the observable: the candidate associated with the
    picked key. *)
Definition get (a : Arbiter) : option V :=
  match pick a with
  | Some k => working a !! k
  | None => None
  end.

Definition lower (k : K) (acc : option K) : option K :=
  match acc with
  | None => Some k
  | Some k' => if decide (key_lt k k') then Some k else Some k'
  end.

(** "the minimum key over the remaining working set (absent if empty)". *)
Definition min_key (w : gmap K V) : option K :=
  foldr lower None (map_to_list w).*1.

(** "On collection insert: if the new entry passes the filter, add to the
    working set; if its key is lower than the current pick's key (or there is
    no current pick), it becomes the new pick". *)
Definition on_insert (k : K) (v : V) (a : Arbiter) : Arbiter :=
  if visible v then
    {| working := <[k:=v]> (working a);
       pick := match pick a with
               | None => Some k
               | Some p => if decide (key_lt k p) then Some k else Some p
               end |}
  else a.

(** "On collection remove: remove from working set; if the removed entry was
    the current pick, recompute the pick as the minimum key over the
    remaining working set". *)
Definition on_remove (k : K) (a : Arbiter) : Arbiter :=
  let w := delete k (working a) in
  {| working := w;
     pick := if decide (pick a = Some k) then min_key w else pick a |}.

(** "On collection update (value changed but key stable): re-evaluate the
    filter predicate - an entry that starts failing the predicate is treated
    as a removal, one that starts passing is treated as an insertion".  An
    entry that keeps passing stays in the working set with its changed
    value. *)
Definition on_update (k : K) (v : V) (a : Arbiter) : Arbiter :=
  match working a !! k, visible v with
  | Some _, false => on_remove k a
  | None, true => on_insert k v a
  | Some _, true => {| working := <[k:=v]> (working a); pick := pick a |}
  | None, false => a
  end.

Definition notify (ev : MapEvent) (a : Arbiter) : Arbiter :=
  match ev with
  | Insert k v => on_insert k v a
  | Remove k => on_remove k a
  | Update k v => on_update k v a
  end.

(** The collection and its arbiter, after a sequence of mutations starting
    from the empty collection; [None] when the sequence is not one the
    collection can go through. *)
Fixpoint run (evs : list MapEvent) (m : gmap K V) (a : Arbiter)
  : option (gmap K V * Arbiter) :=
  match evs with
  | [] => Some (m, a)
  | ev :: evs' =>
      match collection_step ev m with
      | Some m' => run evs' m' (notify ev a)
      | None => None
      end
  end.

(** [o] is the candidate with the minimum key among those of [m] that pass
    the filter, and is absent when none passes. *)
Definition min_visible (m : gmap K V) (o : option V) : Prop :=
  match o with
  | Some v =>
      ∃ k, m !! k = Some v ∧ visible v = true ∧
           ∀ k' v', m !! k' = Some v' → visible v' = true → k = k' ∨ key_lt k k'
  | None => ∀ k v, m !! k = Some v → visible v = false
  end.

(** The arbiter is consistent with the collection. *)
Definition least (w : gmap K V) (p : option K) : Prop :=
  match p with
  | Some k => is_Some (w !! k) ∧ ∀ k', is_Some (w !! k') → k = k' ∨ key_lt k k'
  | None => w = ∅
  end.

Definition consistent (m : gmap K V) (a : Arbiter) : Prop :=
  (∀ k v, working a !! k = Some v ↔ m !! k = Some v ∧ visible v = true)
  ∧ least (working a) (pick a).

End arbitration.
End PickMap.

(** ** JavaScript values *)

(** A JavaScript string is a sequence of UTF-16 code units.  String
    constants of the source that are only compared as a whole (event names,
    message types, error names) are kept as Rocq strings. *)
Abbreviation jsstring := (list N).

Fixpoint js (s : string) : jsstring :=
  match s with
  | EmptyString => []
  | String c s' => Ascii.N_of_ascii c :: js s'
  end.

(** [String.prototype.startsWith]. *)
Fixpoint startsWith (s prefix : jsstring) {struct prefix} : bool :=
  match prefix, s with
  | [], _ => true
  | p :: prefix', c :: s' => bool_decide (c = p) && startsWith s' prefix'
  | _ :: _, [] => false
  end.

(** [String.prototype.substr(start)] for a start within the string or at
    its end. *)
Definition substr (s : jsstring) (start : nat) : jsstring := drop start s.

(** ECMAScript WhiteSpace and LineTerminator code points, all of them in
    the basic plane: TAB, LF, VT, FF, CR, SP, NBSP, U+1680, U+2000-U+200A,
    LS, PS, U+202F, U+205F, U+3000 and U+FEFF. *)
Definition isWhiteSpace (c : N) : bool :=
  ((9 <=? c) && (c <=? 13) || (c =? 32) || (c =? 160) || (c =? 5760)
   || (8192 <=? c) && (c <=? 8202) || (c =? 8232) || (c =? 8233)
   || (c =? 8239) || (c =? 8287) || (c =? 12288) || (c =? 65279))%N.

Fixpoint trimStart (s : jsstring) : jsstring :=
  match s with
  | c :: s' => if isWhiteSpace c then trimStart s' else s
  | [] => []
  end.

Definition trimEnd (s : jsstring) : jsstring := reverse (trimStart (reverse s)).

(** [String.prototype.trim]. *)
Definition trim (s : jsstring) : jsstring := trimEnd (trimStart s).

(** ToBoolean of a string: the empty string is the only falsy one. *)
Definition truthy (s : jsstring) : bool :=
  match s with [] => false | _ :: _ => true end.

(** A thrown value: an Error with its [name] and [message];
    [err_mediaCode] is [Some code] for an instance of [window.MediaError]. *)
Record Error := {
  err_name : string;
  err_message : jsstring;
  err_mediaCode : option Z
}.

(** [new Error(message)] *)
Definition new_Error (message : jsstring) : Error :=
  {| err_name := "Error"; err_message := message; err_mediaCode := None |}.

(** Modelled from the spec: the clock and its Timeout are not part of the
    sources.  Section 4.4: [elapsed()] "fails with an Aborted condition if
    abort() is called before elapsing"; line 107 recognises that condition
    by its name. *)
Definition AbortError : Error :=
  {| err_name := "AbortError"; err_message := js "Aborted"; err_mediaCode := None |}.

(** How a call or an awaited promise ends: a value, or a thrown error. *)
Inductive Outcome (A : Type) :=
| Resolved (a : A)
| Rejected (e : Error).
Arguments Resolved {A} a.
Arguments Rejected {A} e.

(** What an async function resolves with. *)
Inductive JsValue :=
| undefined
| boolean (b : bool).

(** How a block of statements ends: it falls through, or it executes a
    [return]. *)
Inductive Completion (R : Type) :=
| Normal
| Return (r : R).
Arguments Normal {R}.
Arguments Return {R} r.

(** ** Objects handled by the view model *)

Record Blob := { mimeType : jsstring; blob_ref : nat }.
Record File := { file_name : jsstring; file_blob : Blob }.

(** An image or video handle of the platform. *)
Record Media := {
  maxDimension : Z;
  media_blob : Blob;
  media_duration : Z;
  media_ref : nat
}.

(** [imageToInfo] (../common.js) is not part of the sources: the info object
    it returns is kept symbolic, as the media it was computed from, together
    with the two fields the view model assigns afterwards ([thumbnail_info]
    is itself the result of [imageToInfo], kept as its argument). *)
Record Info := {
  info_of : Media;
  info_duration : option Z;
  thumbnail_info : option Media
}.

Definition imageToInfo (m : Media) : Info :=
  {| info_of := m; info_duration := None; thumbnail_info := None |}.

(** [videoToInfo], lines 378-382. *)
Definition videoToInfo (video : Media) : Info :=
  let info := imageToInfo video in
  {| info_of := info_of info;
     info_duration := Some (media_duration video);
     thumbnail_info := thumbnail_info info |}.

(** [content.info.thumbnail_info = imageToInfo(thumbnail)] *)
Definition set_thumbnail_info (i : Info) (thumbnail : Media) : Info :=
  {| info_of := info_of i;
     info_duration := info_duration i;
     thumbnail_info := Some thumbnail |}.

Record Content := {
  body : jsstring;
  msgtype : string;
  info : option Info
}.

Record Attachments := {
  url : nat;
  info_thumbnail_url : option nat
}.

(** The sub view models and the subscription, each with the identity of the
    object ([h]). *)
Inductive Obj :=
| ComposerViewModel (h : nat)
| ArchivedViewModel (h : nat)
| TimelineViewModel (h : nat) (timeline : nat)
| CallViewModel (h : nat) (call : Call)
| CallSubscription (h : nat).

Global Instance Call_eq_dec : EqDecision Call.
Proof. solve_decision. Defined.
Global Instance Obj_eq_dec : EqDecision Obj.
Proof. solve_decision. Defined.

(** Modelled from the spec: CallViewModel (./CallViewModel) is not part of
    the sources.  Its [id] is the identity of the call it was created for
    (section 4.5, "the newly picked call has the same identity as the
    currently active one"). *)
Definition vm_id (o : Obj) : option string :=
  match o with
  | CallViewModel _ call => Some (call_id call)
  | _ => None
  end.

Definition isCallViewModel (o : Obj) : bool :=
  match o with CallViewModel _ _ => true | _ => false end.

(** Calls answered by the environment of a send command: the room's event
    interface, a timeline entry's reply, and the platform. *)
Inductive Op : Type → Type :=
| sendEvent (type : string) (content : Content) (attachments : option Attachments) : Op unit
| reply (entry : nat) (msgtype : string) (body : jsstring) : Op unit
| createAttachment (blob : Blob) (name : jsstring) : Op nat
| openFile (accept : option string) : Op (option File)
| hasReadPixelPermission : Op bool
| loadVideo (blob : Blob) : Op Media
| loadImage (blob : Blob) : Op Media
| getInt (key : string) : Op (option Z)
| scale (m : Media) (maxDimension : Z) : Op Media
| disposeMedia (m : Media) : Op unit.

(** The state of a timeout of the clock. *)
Inductive TimeoutState := Pending | Elapsed | Aborted.

(** Where a suspended async method of the lifecycle waits. *)
Inductive Await :=
| AwaitOpenTimeline            (* load, line 79 *)
| AwaitElapsed (t : nat)       (* _clearUnreadAfterDelay, line 103 *)
| AwaitClearUnread (t : nat).  (* _clearUnreadAfterDelay, line 104 *)

Global Instance TimeoutState_eq_dec : EqDecision TimeoutState.
Proof. solve_decision. Defined.
Global Instance Await_eq_dec : EqDecision Await.
Proof. solve_decision. Defined.

(** What the view model does to the outside, in the order it happens. *)
Inductive Event :=
| Constructed (o : Obj)
| Disposed (o : Obj)
| RoomOn (event : string)
| RoomOff (event : string)
| RoomRelease
| RoomClearUnread
| TimeoutCreated (t : nat) (ms : Z)
| TimeoutAbort (t : nat)
| EmitChange (source : option Obj) (field : option string)
| ReportError (e : Error)
| UnhandledRejection (e : Error)
| Alert (text : string)
| ConsoleError (e : Error)
| Called {X : Type} (op : Op X) (r : Outcome X).

(** ** The view model and its collaborators *)

(** The fields of RoomViewModel (lines 36-49), the part of the base class
    and of the collaborators that the lifecycle drives, and the trace of what
    was done. *)
Record State := {
  _room : Room;
  _timelineVM : option Obj;
  _tileOptions : option nat;
  _composerVM : option Obj;
  _clearUnreadTimout : option nat;
  _callViewModel : option Obj;
  (* the pick observable: the value it holds, and whether the callback of
     line 59 is subscribed *)
  _callObservable : option Call;
  subscribed : bool;
  (* ViewModel: the tracked disposables, in the order they were tracked *)
  disposables : list Obj;
  isDisposed : bool;
  (* the room: is _onRoomChange registered for "change" *)
  listening : bool;
  (* the clock: the timeouts it created, by number *)
  timeouts : list TimeoutState;
  (* the suspended async methods *)
  awaiting : list Await;
  (* whether load() was called *)
  loadCalled : bool;
  nextHandle : nat;
  trace : list Event
}.

Definition set_timelineVM (v : option Obj) (s : State) : State :=
  {| _room := _room s; _timelineVM := v; _tileOptions := _tileOptions s;
     _composerVM := _composerVM s; _clearUnreadTimout := _clearUnreadTimout s;
     _callViewModel := _callViewModel s; _callObservable := _callObservable s;
     subscribed := subscribed s; disposables := disposables s;
     isDisposed := isDisposed s; listening := listening s;
     timeouts := timeouts s; awaiting := awaiting s; loadCalled := loadCalled s;
     nextHandle := nextHandle s; trace := trace s |}.

Definition set_tileOptions (v : option nat) (s : State) : State :=
  {| _room := _room s; _timelineVM := _timelineVM s; _tileOptions := v;
     _composerVM := _composerVM s; _clearUnreadTimout := _clearUnreadTimout s;
     _callViewModel := _callViewModel s; _callObservable := _callObservable s;
     subscribed := subscribed s; disposables := disposables s;
     isDisposed := isDisposed s; listening := listening s;
     timeouts := timeouts s; awaiting := awaiting s; loadCalled := loadCalled s;
     nextHandle := nextHandle s; trace := trace s |}.

Definition set_composerVM (v : option Obj) (s : State) : State :=
  {| _room := _room s; _timelineVM := _timelineVM s; _tileOptions := _tileOptions s;
     _composerVM := v; _clearUnreadTimout := _clearUnreadTimout s;
     _callViewModel := _callViewModel s; _callObservable := _callObservable s;
     subscribed := subscribed s; disposables := disposables s;
     isDisposed := isDisposed s; listening := listening s;
     timeouts := timeouts s; awaiting := awaiting s; loadCalled := loadCalled s;
     nextHandle := nextHandle s; trace := trace s |}.

Definition set_clearUnreadTimout (v : option nat) (s : State) : State :=
  {| _room := _room s; _timelineVM := _timelineVM s; _tileOptions := _tileOptions s;
     _composerVM := _composerVM s; _clearUnreadTimout := v;
     _callViewModel := _callViewModel s; _callObservable := _callObservable s;
     subscribed := subscribed s; disposables := disposables s;
     isDisposed := isDisposed s; listening := listening s;
     timeouts := timeouts s; awaiting := awaiting s; loadCalled := loadCalled s;
     nextHandle := nextHandle s; trace := trace s |}.

Definition set_callViewModel (v : option Obj) (s : State) : State :=
  {| _room := _room s; _timelineVM := _timelineVM s; _tileOptions := _tileOptions s;
     _composerVM := _composerVM s; _clearUnreadTimout := _clearUnreadTimout s;
     _callViewModel := v; _callObservable := _callObservable s;
     subscribed := subscribed s; disposables := disposables s;
     isDisposed := isDisposed s; listening := listening s;
     timeouts := timeouts s; awaiting := awaiting s; loadCalled := loadCalled s;
     nextHandle := nextHandle s; trace := trace s |}.

Definition set_callObservable (v : option Call) (s : State) : State :=
  {| _room := _room s; _timelineVM := _timelineVM s; _tileOptions := _tileOptions s;
     _composerVM := _composerVM s; _clearUnreadTimout := _clearUnreadTimout s;
     _callViewModel := _callViewModel s; _callObservable := v;
     subscribed := subscribed s; disposables := disposables s;
     isDisposed := isDisposed s; listening := listening s;
     timeouts := timeouts s; awaiting := awaiting s; loadCalled := loadCalled s;
     nextHandle := nextHandle s; trace := trace s |}.

Definition set_subscribed (v : bool) (s : State) : State :=
  {| _room := _room s; _timelineVM := _timelineVM s; _tileOptions := _tileOptions s;
     _composerVM := _composerVM s; _clearUnreadTimout := _clearUnreadTimout s;
     _callViewModel := _callViewModel s; _callObservable := _callObservable s;
     subscribed := v; disposables := disposables s;
     isDisposed := isDisposed s; listening := listening s;
     timeouts := timeouts s; awaiting := awaiting s; loadCalled := loadCalled s;
     nextHandle := nextHandle s; trace := trace s |}.

Definition set_disposables (v : list Obj) (s : State) : State :=
  {| _room := _room s; _timelineVM := _timelineVM s; _tileOptions := _tileOptions s;
     _composerVM := _composerVM s; _clearUnreadTimout := _clearUnreadTimout s;
     _callViewModel := _callViewModel s; _callObservable := _callObservable s;
     subscribed := subscribed s; disposables := v;
     isDisposed := isDisposed s; listening := listening s;
     timeouts := timeouts s; awaiting := awaiting s; loadCalled := loadCalled s;
     nextHandle := nextHandle s; trace := trace s |}.

Definition set_isDisposed (v : bool) (s : State) : State :=
  {| _room := _room s; _timelineVM := _timelineVM s; _tileOptions := _tileOptions s;
     _composerVM := _composerVM s; _clearUnreadTimout := _clearUnreadTimout s;
     _callViewModel := _callViewModel s; _callObservable := _callObservable s;
     subscribed := subscribed s; disposables := disposables s;
     isDisposed := v; listening := listening s;
     timeouts := timeouts s; awaiting := awaiting s; loadCalled := loadCalled s;
     nextHandle := nextHandle s; trace := trace s |}.

Definition set_listening (v : bool) (s : State) : State :=
  {| _room := _room s; _timelineVM := _timelineVM s; _tileOptions := _tileOptions s;
     _composerVM := _composerVM s; _clearUnreadTimout := _clearUnreadTimout s;
     _callViewModel := _callViewModel s; _callObservable := _callObservable s;
     subscribed := subscribed s; disposables := disposables s;
     isDisposed := isDisposed s; listening := v;
     timeouts := timeouts s; awaiting := awaiting s; loadCalled := loadCalled s;
     nextHandle := nextHandle s; trace := trace s |}.

Definition set_timeouts (v : list TimeoutState) (s : State) : State :=
  {| _room := _room s; _timelineVM := _timelineVM s; _tileOptions := _tileOptions s;
     _composerVM := _composerVM s; _clearUnreadTimout := _clearUnreadTimout s;
     _callViewModel := _callViewModel s; _callObservable := _callObservable s;
     subscribed := subscribed s; disposables := disposables s;
     isDisposed := isDisposed s; listening := listening s;
     timeouts := v; awaiting := awaiting s; loadCalled := loadCalled s;
     nextHandle := nextHandle s; trace := trace s |}.

Definition set_awaiting (v : list Await) (s : State) : State :=
  {| _room := _room s; _timelineVM := _timelineVM s; _tileOptions := _tileOptions s;
     _composerVM := _composerVM s; _clearUnreadTimout := _clearUnreadTimout s;
     _callViewModel := _callViewModel s; _callObservable := _callObservable s;
     subscribed := subscribed s; disposables := disposables s;
     isDisposed := isDisposed s; listening := listening s;
     timeouts := timeouts s; awaiting := v; loadCalled := loadCalled s;
     nextHandle := nextHandle s; trace := trace s |}.

Definition set_loadCalled (v : bool) (s : State) : State :=
  {| _room := _room s; _timelineVM := _timelineVM s; _tileOptions := _tileOptions s;
     _composerVM := _composerVM s; _clearUnreadTimout := _clearUnreadTimout s;
     _callViewModel := _callViewModel s; _callObservable := _callObservable s;
     subscribed := subscribed s; disposables := disposables s;
     isDisposed := isDisposed s; listening := listening s;
     timeouts := timeouts s; awaiting := awaiting s; loadCalled := v;
     nextHandle := nextHandle s; trace := trace s |}.

Definition set_nextHandle (v : nat) (s : State) : State :=
  {| _room := _room s; _timelineVM := _timelineVM s; _tileOptions := _tileOptions s;
     _composerVM := _composerVM s; _clearUnreadTimout := _clearUnreadTimout s;
     _callViewModel := _callViewModel s; _callObservable := _callObservable s;
     subscribed := subscribed s; disposables := disposables s;
     isDisposed := isDisposed s; listening := listening s;
     timeouts := timeouts s; awaiting := awaiting s; loadCalled := loadCalled s;
     nextHandle := v; trace := trace s |}.

Definition set_trace (v : list Event) (s : State) : State :=
  {| _room := _room s; _timelineVM := _timelineVM s; _tileOptions := _tileOptions s;
     _composerVM := _composerVM s; _clearUnreadTimout := _clearUnreadTimout s;
     _callViewModel := _callViewModel s; _callObservable := _callObservable s;
     subscribed := subscribed s; disposables := disposables s;
     isDisposed := isDisposed s; listening := listening s;
     timeouts := timeouts s; awaiting := awaiting s; loadCalled := loadCalled s;
     nextHandle := nextHandle s; trace := v |}.

(** ** The monad of the method bodies: state and exceptions *)

Definition M (A : Type) : Type := State → State * Outcome A.

Definition ret {A} (a : A) : M A := λ s, (s, Resolved a).

Definition throw {A} (e : Error) : M A := λ s, (s, Rejected e).

Definition bind {A B} (m : M A) (k : A → M B) : M B :=
  λ s, match m s with
       | (s', Resolved a) => k a s'
       | (s', Rejected e) => (s', Rejected e)
       end.

(** [try { body } catch (error) { handler }] *)
Definition try_catch {A} (body : M A) (handler : Error → M A) : M A :=
  λ s, match body s with
       | (s', Resolved a) => (s', Resolved a)
       | (s', Rejected e) => handler e s'
       end.

Definition get : M State := λ s, (s, Resolved s).

Definition modify (f : State → State) : M unit := λ s, (f s, Resolved tt).

Declare Scope js_scope.
Delimit Scope js_scope with js.
Notation "'let*' x := m 'in' k" := (bind m (λ x, k))
  (at level 10, x binder, m at level 100, k at level 200) : js_scope.
Notation "m ;;; k" := (bind m (λ _, k))
  (at level 100, k at level 200, right associativity) : js_scope.
Open Scope js_scope.

(** A promise that has already settled with [o], awaited. *)
Definition settle {A} (o : Outcome A) : M A := λ s, (s, o).

(** Calling an async function gives a promise and never throws: the promise
    settles with the outcome of the body. *)
Definition promise_of {A} (m : M A) : M (Outcome A) :=
  λ s, match m s with (s', o) => (s', Resolved o) end.

Definition log (e : Event) : M unit := modify (λ s, set_trace (trace s ++ [e]) s).

(** An async function called without [await], or resumed by the event loop:
    nobody handles the promise, a rejection is an unhandled one. *)
Definition detached (m : M unit) : M unit :=
  λ s, match m s with
       | (s', Resolved _) => (s', Resolved tt)
       | (s', Rejected e) => (set_trace (trace s' ++ [UnhandledRejection e]) s', Resolved tt)
       end.

(** The object identity of a newly created object. *)
Definition fresh : M nat :=
  λ s, (set_nextHandle (S (nextHandle s)) s, Resolved (nextHandle s)).

(** [new C(...)] for the sub view models. *)
Definition new (C : nat → Obj) : M Obj :=
  let* h := fresh in
  log (Constructed (C h));;;
  ret (C h).

(** ** The base class and the collaborators *)

Fixpoint remove_first {A} `{EqDecision A} (x : A) (l : list A) : list A :=
  match l with
  | [] => []
  | y :: l' => if decide (x = y) then l' else y :: remove_first x l'
  end.

(** Modelled from the spec: ViewModel and ErrorReportViewModel
    (../../ViewModel, ../../ErrorReportViewModel) are not part of the
    sources.  Section 4.1: "track(child) -> handle; disposeTracked(handle) ->
    null (disposes immediately, returns null so callers can assign-and-clear
    in one expression); dispose() disposes all still-tracked children in
    reverse order then marks self disposed"; disposing what is not tracked
    (any more) is a no-op. *)
Definition track (o : Obj) : M Obj :=
  modify (λ s, set_disposables (disposables s ++ [o]) s);;;
  ret o.

(** Disposing one object; disposing the subscription unsubscribes the
    callback. *)
Definition dispose_obj (o : Obj) : M unit :=
  log (Disposed o);;;
  match o with
  | CallSubscription _ => modify (set_subscribed false)
  | _ => ret tt
  end.

Fixpoint dispose_all (l : list Obj) : M unit :=
  match l with
  | [] => ret tt
  | o :: l' => dispose_obj o;;; dispose_all l'
  end.

Definition disposeTracked (o : option Obj) : M (option Obj) :=
  match o with
  | None => ret None
  | Some o =>
      let* s := get in
      if decide (o ∈ disposables s) then
        modify (set_disposables (remove_first o (disposables s)));;;
        dispose_obj o;;;
        ret None
      else ret None
  end.

(** [super.dispose()] *)
Definition super_dispose : M unit :=
  let* s := get in
  modify (set_disposables []);;;
  dispose_all (reverse (disposables s));;;
  modify (set_isDisposed true).

(** [this.emitChange(field)], and [emitChange] of a sub view model. *)
Definition emitChange (source : option Obj) (field : option string) : M unit :=
  log (EmitChange source field).

(** Modelled from the spec: section 6, "reportError(error) - records /
    display-queues an error without throwing". *)
Definition reportError (error : Error) : M unit := log (ReportError error).

(** The room: [on], [off], [release()] and the call of [clearUnread()]. *)
Definition room_on (event : string) : M unit :=
  log (RoomOn event);;;
  modify (set_listening true).

Definition room_off (event : string) : M unit :=
  log (RoomOff event);;;
  modify (set_listening false).

Definition room_release : M unit := log RoomRelease.

Definition room_clearUnread : M unit := log RoomClearUnread.

(** Modelled from the spec: section 4.4, "createTimeout(ms) -> Timeout",
    "abort() is idempotent": aborting a timeout that is not pending changes
    nothing. *)
Definition createTimeout (ms : Z) : M nat :=
  let* s := get in
  let t := length (timeouts s) in
  modify (set_timeouts (timeouts s ++ [Pending]));;;
  log (TimeoutCreated t ms);;;
  ret t.

Definition abort (t : nat) : M unit :=
  let* s := get in
  log (TimeoutAbort t);;;
  match timeouts s !! t with
  | Some Pending => modify (set_timeouts (<[t := Aborted]> (timeouts s)))
  | _ => ret tt
  end.

(** An [await] of the lifecycle: the method is suspended until the event
    loop resumes it with the outcome. *)
Definition suspend (a : Await) : M unit :=
  modify (λ s, set_awaiting (awaiting s ++ [a]) s).

(** ** The lifecycle of RoomViewModel *)

(** The callback subscribed on the pick observable, lines 59-68. *)
Definition onCallPicked (call : option Call) : M unit :=
  let* s := get in
  if match call, _callViewModel s with
     | Some call, Some vm => bool_decide (Some (call_id call) = vm_id vm)
     | _, _ => false
     end
  then ret tt
  else
    let* r := disposeTracked (_callViewModel s) in
    modify (set_callViewModel r);;;
    match call with
    | Some call =>
        let* vm := new (λ h, CallViewModel h call) in
        let* vm := track vm in
        modify (set_callViewModel (Some vm))
    | None => ret tt
    end;;;
    emitChange None (Some "callViewModel").

(** [_setupCallViewModel], lines 52-74. *)
Definition _setupCallViewModel : M unit :=
  modify (set_callViewModel None);;;
  let* subscription := new CallSubscription in
  modify (set_subscribed true);;;
  track subscription;;;
  let* s := get in
  match _callObservable s with
  | Some call =>
      let* vm := new (λ h, CallViewModel h call) in
      let* vm := track vm in
      modify (set_callViewModel (Some vm))
  | None => ret tt
  end.

(** The constructor, lines 33-50, for a room and the value the pick
    observable holds at that time. *)
Definition blank (room : Room) (picked : option Call) : State :=
  {| _room := room; _timelineVM := None; _tileOptions := None;
     _composerVM := None; _clearUnreadTimout := None;
     _callViewModel := None; _callObservable := picked;
     subscribed := false; disposables := []; isDisposed := false;
     listening := false; timeouts := []; awaiting := []; loadCalled := false;
     nextHandle := 0; trace := [] |}.

Definition constructor_body : M unit :=
  let* s := get in
  (if isArchived (_room s) then
     let* vm := new ArchivedViewModel in
     modify (set_composerVM (Some vm))
   else
     let* vm := new ComposerViewModel in
     modify (set_composerVM (Some vm)));;;
  modify (set_clearUnreadTimout None);;;
  _setupCallViewModel.

Definition new_RoomViewModel (room : Room) (picked : option Call) : State :=
  (constructor_body (blank room picked)).1.

(** The catch clause of [_clearUnreadAfterDelay], lines 106-110. *)
Definition catch_abort (err : Error) : M unit :=
  if bool_decide (err_name err ≠ "AbortError") then throw err else ret tt.

(** [_clearUnreadAfterDelay], lines 97-103: up to the await of [elapsed()]. *)
Definition _clearUnreadAfterDelay : M unit :=
  let* s := get in
  if isArchived (_room s) || bool_decide (is_Some (_clearUnreadTimout s)) then
    ret tt
  else
    let* t := createTimeout 2000 in
    modify (set_clearUnreadTimout (Some t));;;
    suspend (AwaitElapsed t).

(** [_clearUnreadAfterDelay], lines 103-104: resumed with the outcome of
    [elapsed()], up to the await of [clearUnread()]. *)
Definition _clearUnreadAfterDelay_elapsed (t : nat) (r : Outcome unit) : M unit :=
  try_catch
    (settle r;;;
     room_clearUnread;;;
     suspend (AwaitClearUnread t))
    catch_abort.

(** [_clearUnreadAfterDelay], lines 104-111: resumed with the outcome of
    [clearUnread()]. *)
Definition _clearUnreadAfterDelay_cleared (r : Outcome unit) : M unit :=
  try_catch
    (settle r;;;
     modify (set_clearUnreadTimout None))
    catch_abort.

(** [load], lines 76-79: up to the await of [openTimeline()]. *)
Definition load : M unit :=
  room_on "change";;;
  suspend AwaitOpenTimeline.

(** [load], lines 79-95: resumed with the outcome of [openTimeline()]. *)
Definition load_resumed (r : Outcome nat) : M unit :=
  try_catch
    (let* timeline := settle r in
     modify (set_tileOptions (Some timeline));;;
     let* vm := new (λ h, TimelineViewModel h timeline) in
     let* vm := track vm in
     modify (set_timelineVM (Some vm));;;
     emitChange None (Some "timelineViewModel"))
    (λ error, reportError error);;;
  detached _clearUnreadAfterDelay.

(** [focus], lines 113-115. *)
Definition focus : M unit := detached _clearUnreadAfterDelay.

(** [dispose], lines 117-127. *)
Definition dispose : M unit :=
  super_dispose;;;
  room_off "change";;;
  let* s := get in
  (if isArchived (_room s) then room_release else ret tt);;;
  let* s := get in
  match _clearUnreadTimout s with
  | Some t =>
      abort t;;;
      modify (set_clearUnreadTimout None)
  | None => ret tt
  end.

(** [_onRoomChange], lines 131-135. *)
Definition _onRoomChange : M unit :=
  let* s := get in
  emitChange (_composerVM s) None;;;
  emitChange None None.

(** ** The event loop *)

(** What happens to a room view model: the calls of its owner, the
    notifications of the room and of the pick observable, and the settling
    of what its async methods await. *)
Inductive Input :=
| call_load
| call_focus
| call_dispose
| room_change
| pick_update (call : option Call)
| openTimeline_settled (r : Outcome nat)
| timeout_elapsed (t : nat)
| abort_observed (t : nat)
| clearUnread_settled (t : nat) (r : Outcome unit).

Definition exec (m : M unit) (s : State) : State := (detached m s).1.

Definition resume (a : Await) (m : M unit) (s : State) : option State :=
  if decide (a ∈ awaiting s)
  then Some (exec m (set_awaiting (remove_first a (awaiting s)) s))
  else None.

(** One turn of the event loop; [None] when the input cannot happen in that
    state.  The owner calls [load()] once and calls nothing after
    [dispose()] (section 3, lifecycle; section 4.5, "Disposed: terminal");
    a notification only reaches a registered callback; a timeout elapses
    when it is pending, and then resolves [elapsed()]; an aborted timeout
    rejects [elapsed()] with the Aborted condition. *)
Definition step (i : Input) (s : State) : option State :=
  match i with
  | call_load =>
      if isDisposed s || loadCalled s then None
      else Some (exec load (set_loadCalled true s))
  | call_focus =>
      if isDisposed s then None else Some (exec focus s)
  | call_dispose =>
      if isDisposed s then None else Some (exec dispose s)
  | room_change =>
      Some (if listening s then exec _onRoomChange s else s)
  | pick_update call =>
      let s' := set_callObservable call s in
      Some (if subscribed s then exec (onCallPicked call) s' else s')
  | openTimeline_settled r =>
      resume AwaitOpenTimeline (load_resumed r) s
  | timeout_elapsed t =>
      match timeouts s !! t with
      | Some Pending =>
          resume (AwaitElapsed t) (_clearUnreadAfterDelay_elapsed t (Resolved tt))
                 (set_timeouts (<[t := Elapsed]> (timeouts s)) s)
      | _ => None
      end
  | abort_observed t =>
      match timeouts s !! t with
      | Some Aborted =>
          resume (AwaitElapsed t) (_clearUnreadAfterDelay_elapsed t (Rejected AbortError)) s
      | _ => None
      end
  | clearUnread_settled t r =>
      resume (AwaitClearUnread t) (_clearUnreadAfterDelay_cleared r) s
  end.

Fixpoint steps (inputs : list Input) (s : State) : option State :=
  match inputs with
  | [] => Some s
  | i :: inputs' =>
      match step i s with
      | Some s' => steps inputs' s'
      | None => None
      end
  end.

(** ** The send commands *)

(** The environment of a send command answers each call, knowing what
    happened before. *)
Definition Env : Type := ∀ X, Op X → list Event → Outcome X.

Section commands.
Variable env : Env.

(** A call into the room or the platform, awaited where the source awaits
    it: it returns or throws what the environment answers. *)
Definition call {X} (op : Op X) : M X :=
  λ s, let r := env X op (trace s) in
       (set_trace (trace s ++ [Called op r]) s, r).

Definition alert (text : string) : M unit := log (Alert text).

Definition console_error (e : Error) : M unit := log (ConsoleError e).

(** [limit] as a condition: [undefined] and 0 are falsy. *)
Definition truthy_number (limit : option Z) : option Z :=
  match limit with
  | Some l => if l =? 0 then None else Some l
  | None => None
  end.

(** [_sendMessage], lines 197-217. *)
Definition _sendMessage (message : jsstring) (replyingTo : option nat) : M JsValue :=
  let* s := get in
  if negb (isArchived (_room s)) && truthy message then
    let* c :=
      try_catch
        (let msgtype := "m.text"%string in
         let '(message, msgtype) :=
           if startsWith message (js "/me ")
           then (trim (substr message 4), "m.emote"%string)
           else (message, msgtype) in
         match replyingTo with
         | Some replyingTo => call (reply replyingTo msgtype message)
         | None =>
             call (sendEvent "m.room.message"
                     {| msgtype := msgtype; body := message; info := None |} None)
         end;;;
         ret Normal)
        (λ error, reportError error;;; ret (Return (boolean false))) in
    match c with
    | Return v => ret v
    | Normal => ret (boolean true)
    end
  else ret (boolean false).

(** [_sendFile], lines 231-239. *)
Definition _sendFile (file : File) : M JsValue :=
  let content := {| body := file_name file; msgtype := "m.file"; info := None |} in
  let* attachment := call (createAttachment (file_blob file) (file_name file)) in
  call (sendEvent "m.room.message" content
          (Some {| url := attachment; info_thumbnail_url := None |}));;;
  ret undefined.

(** The end of an async function whose try block may have executed
    [return]: the promise of the function settles as what was returned. *)
Definition finish (c : Completion (Outcome JsValue)) : M JsValue :=
  match c with
  | Return p => settle p
  | Normal => ret undefined
  end.

(** [_pickAndSendFile], lines 219-229.  [return this._sendFile(file)] hands
    the promise of [_sendFile] over without awaiting it inside the try
    block. *)
Definition _pickAndSendFile : M JsValue :=
  let* c :=
    try_catch
      (let* file := call (openFile None) in
       match file with
       | None => ret (Return (Resolved undefined))
       | Some file =>
           let* p := promise_of (_sendFile file) in
           ret (Return p)
       end)
      (λ err, console_error err;;; ret Normal) in
  finish c.

(** [_pickAndSendVideo], lines 241-284. *)
Definition _pickAndSendVideo : M JsValue :=
  let* c :=
    try_catch
      (let* permission := call hasReadPixelPermission in
       if negb permission then
         alert "Please allow canvas image data access, so we can scale your images down.";;;
         ret (Return (Resolved undefined))
       else
         let* file := call (openFile (Some "video/*"%string)) in
         match file with
         | None => ret (Return (Resolved undefined))
         | Some file =>
             if negb (startsWith (mimeType (file_blob file)) (js "video/")) then
               let* p := promise_of (_sendFile file) in
               ret (Return p)
             else
               let* video :=
                 try_catch
                   (call (loadVideo (file_blob file)))
                   (λ err,
                      if bool_decide (err_mediaCode err = Some 4) then
                        throw (new_Error (js "this browser does not support videos of type "
                                          ++ mimeType (file_blob file) ++ js "."))
                      else throw err) in
               let content :=
                 {| body := file_name file; msgtype := "m.video";
                    info := Some (videoToInfo video) |} in
               let* attachment := call (createAttachment (media_blob video) (file_name file)) in
               let* limit := call (getInt "sentImageSizeLimit") in
               let maxDimension :=
                 match truthy_number limit with
                 | Some limit => limit
                 | None => Z.min (maxDimension video) 800
                 end in
               let* thumbnail := call (scale video maxDimension) in
               let content :=
                 {| body := body content; msgtype := msgtype content;
                    info := Some (set_thumbnail_info (videoToInfo video) thumbnail) |} in
               let* thumbnail_url :=
                 call (createAttachment (media_blob thumbnail) (file_name file)) in
               call (sendEvent "m.room.message" content
                       (Some {| url := attachment;
                                info_thumbnail_url := Some thumbnail_url |}));;;
               ret Normal
         end)
      (λ error, reportError error;;; ret Normal) in
  finish c.

(** [_pickAndSendPicture], lines 286-324. *)
Definition _pickAndSendPicture : M JsValue :=
  let* c :=
    try_catch
      (let* permission := call hasReadPixelPermission in
       if negb permission then
         alert "Please allow canvas image data access, so we can scale your images down.";;;
         ret (Return (Resolved undefined))
       else
         let* file := call (openFile (Some "image/*"%string)) in
         match file with
         | None => ret (Return (Resolved undefined))
         | Some file =>
             if negb (startsWith (mimeType (file_blob file)) (js "image/")) then
               let* p := promise_of (_sendFile file) in
               ret (Return p)
             else
               let* image := call (loadImage (file_blob file)) in
               let* limit := call (getInt "sentImageSizeLimit") in
               let* image :=
                 match truthy_number limit with
                 | Some limit =>
                     if maxDimension image >? limit then
                       let* scaledImage := call (scale image limit) in
                       call (disposeMedia image);;;
                       ret scaledImage
                     else ret image
                 | None => ret image
                 end in
               let content :=
                 {| body := file_name file; msgtype := "m.image";
                    info := Some (imageToInfo image) |} in
               let* attachment := call (createAttachment (media_blob image) (file_name file)) in
               let* '(content, thumbnail_url) :=
                 if maxDimension image >? 600 then
                   let* thumbnail := call (scale image 400) in
                   let* thumbnail_url :=
                     call (createAttachment (media_blob thumbnail) (file_name file)) in
                   ret ({| body := body content; msgtype := msgtype content;
                           info := Some (set_thumbnail_info (imageToInfo image) thumbnail) |},
                        Some thumbnail_url)
                 else ret (content, None) in
               call (sendEvent "m.room.message" content
                       (Some {| url := attachment;
                                info_thumbnail_url := thumbnail_url |}));;;
               ret Normal
         end)
      (λ error, reportError error;;; ret Normal) in
  finish c.

End commands.

(** ** Reading a trace *)

Definition reported (tr : list Event) : list Error :=
  omap (λ ev, match ev with ReportError e => Some e | _ => None end) tr.

Definition unhandled (tr : list Event) : list Error :=
  omap (λ ev, match ev with UnhandledRejection e => Some e | _ => None end) tr.

(** The failures of the calls of a send command. *)
Definition failures (tr : list Event) : list Error :=
  omap (λ ev, match ev with @Called _ _ (Rejected e) => Some e | _ => None end) tr.

Definition is_send (ev : Event) : bool :=
  match ev with
  | @Called _ (sendEvent _ _ _) _ => true
  | @Called _ (reply _ _ _) _ => true
  | _ => false
  end.

Definition is_clearUnread (ev : Event) : bool :=
  match ev with RoomClearUnread => true | _ => false end.

(** How many events of a trace satisfy [f]. *)
Definition count (f : Event → bool) (tr : list Event) : nat :=
  length (List.filter f tr).

Definition is_disposal (o : Obj) (ev : Event) : bool :=
  match ev with Disposed o' => bool_decide (o' = o) | _ => false end.

(** How often [o] was disposed. *)
Definition disposals (o : Obj) (tr : list Event) : nat := count (is_disposal o) tr.

(** The call view models that are alive after a trace: constructed and not
    disposed since. *)
Definition alive_step (live : list Obj) (ev : Event) : list Obj :=
  match ev with
  | Constructed o => if isCallViewModel o then live ++ [o] else live
  | Disposed o => remove_first o live
  | _ => live
  end.

Definition alive (tr : list Event) : list Obj := foldl alive_step [] tr.

(** What a send command did: the events after those of [before]. *)
Definition news (before after : State) : list Event :=
  drop (length (trace before)) (trace after).

(** The call a message is sent with, lines 205-209. *)
Definition send_op (replyingTo : option nat) (msgtype : string) (message : jsstring)
  : Op unit :=
  match replyingTo with
  | Some replyingTo => reply replyingTo msgtype message
  | None =>
      sendEvent "m.room.message"
        {| msgtype := msgtype; body := message; info := None |} None
  end.

(** The file the user picked, if one was picked. *)
Definition picked (tr : list Event) : option File :=
  head (omap (λ ev, match ev with
                    | @Called _ (openFile _) (Resolved (Some file)) => Some file
                    | _ => None
                    end) tr).

(** Whether the picked file is not of the requested media type, so that it
    was handed to [_sendFile] (lines 251-253 and 296-298). *)
Definition sent_as_file (prefix : jsstring) (tr : list Event) : bool :=
  match picked tr with
  | Some file => negb (startsWith (mimeType (file_blob file)) prefix)
  | None => false
  end.

(** The errors that the failed calls of [_pickAndSendVideo] raise: the catch
    clause of lines 257-264 replaces the MediaError with code 4 of
    [loadVideo]. *)
Definition video_failures (tr : list Event) : list Error :=
  omap (λ ev, match ev with
              | @Called _ (loadVideo blob) (Rejected e) =>
                  Some (if bool_decide (err_mediaCode e = Some 4)
                        then new_Error (js "this browser does not support videos of type "
                                        ++ mimeType blob ++ js ".")
                        else e)
              | @Called _ _ (Rejected e) => Some e
              | _ => None
              end) tr.

(** ** Notions for the statements *)

(** What [trim] leaves of a string: the string without the white space
    around it. *)
Definition trimmed (s body : jsstring) : Prop :=
  ∃ lead trail,
    s = lead ++ body ++ trail
    ∧ Forall (λ c, isWhiteSpace c = true) lead
    ∧ Forall (λ c, isWhiteSpace c = true) trail
    ∧ (∀ c, head body = Some c → isWhiteSpace c = false)
    ∧ (∀ c, last body = Some c → isWhiteSpace c = false).

(** How many elements of a list satisfy [f]. *)
Definition tally {A : Type} (f : A → bool) (l : list A) : nat :=
  length (List.filter f l).

Definition is_release (ev : Event) : bool :=
  match ev with RoomRelease => true | _ => false end.

Definition obj_handle (o : Obj) : nat :=
  match o with
  | ComposerViewModel h | ArchivedViewModel h | TimelineViewModel h _
  | CallViewModel h _ | CallSubscription h => h
  end.

(** The objects the view model tracks: everything it creates but the
    composer (lines 43 and 45 do not call [track]). *)
Definition trackable (o : Obj) : bool :=
  match o with
  | ComposerViewModel _ | ArchivedViewModel _ => false
  | _ => true
  end.

(** Events that neither create nor dispose an object. *)
Definition quiet (ev : Event) : bool :=
  match ev with
  | Constructed _ | Disposed _ => false
  | _ => true
  end.

(** No prefix of [tr], run from [live], has more than one call view model
    alive. *)
Definition calm (live : list Obj) (tr : list Event) : Prop :=
  ∀ n, (length (foldl alive_step live (take n tr)) ≤ 1)%nat.

(** The state before the scheduling at the end of [load()], lines 79-93. *)
Definition attached (r : Outcome nat) (s : State) : State :=
  match r with
  | Resolved timeline =>
      let vm := TimelineViewModel (nextHandle s) timeline in
      set_trace
        ((trace s ++ [Constructed vm]) ++ [EmitChange None (Some "timelineViewModel")])
        (set_timelineVM (Some vm)
           (set_disposables (disposables s ++ [vm])
              (set_trace (trace s ++ [Constructed vm])
                 (set_nextHandle (S (nextHandle s))
                    (set_tileOptions (Some timeline) s)))))
  | Rejected e => set_trace (trace s ++ [ReportError e]) s
  end.

(** The state after [dispose()]. *)
Definition disposed_trace (s : State) : list Event :=
  (Disposed <$> reverse (disposables s)) ++ [RoomOff "change"]
  ++ (if isArchived (_room s) then [RoomRelease] else [])
  ++ match _clearUnreadTimout s with Some t => [TimeoutAbort t] | None => [] end.

Definition disposed_timeouts (s : State) : list TimeoutState :=
  match _clearUnreadTimout s with
  | Some t =>
      match timeouts s !! t with
      | Some Pending => <[t := Aborted]> (timeouts s)
      | _ => timeouts s
      end
  | None => timeouts s
  end.

(** ** Invariants of the event loop *)

Definition isOpen (a : Await) : bool :=
  match a with AwaitOpenTimeline => true | _ => false end.

Definition isClear (a : Await) : bool :=
  match a with AwaitClearUnread _ => true | _ => false end.

(** The timeouts of the unread-clear.  While the view model is not disposed,
    a pending timeout is the one [_clearUnreadTimout] refers to, and while
    [clearUnread()] is awaited the field still refers to the timeout that
    elapsed.  After [dispose()] only the rest of [load()] can still create a
    timeout, once. *)
Record Inv_timers (s : State) : Prop := {
  it_unique : ∀ t1 t2,
    timeouts s !! t1 = Some Pending → timeouts s !! t2 = Some Pending → t1 = t2;
  it_open : (tally isOpen (awaiting s) ≤ 1)%nat;
  it_load : loadCalled s = false → tally isOpen (awaiting s) = 0%nat;
  it_field : isDisposed s = false →
    ∀ t, timeouts s !! t = Some Pending → _clearUnreadTimout s = Some t;
  it_clear : isDisposed s = false → (tally isClear (awaiting s) ≤ 1)%nat;
  it_cleared : isDisposed s = false → (1 ≤ tally isClear (awaiting s))%nat →
    ∃ t, _clearUnreadTimout s = Some t ∧ timeouts s !! t = Some Elapsed;
  it_disposed : isDisposed s = true →
    ∀ t, timeouts s !! t = Some Pending → tally isOpen (awaiting s) = 0%nat
}.

(** The part of the state the timeouts depend on is the same. *)
Definition same_timers (s s' : State) : Prop :=
  timeouts s' = timeouts s ∧ awaiting s' = awaiting s
  ∧ _clearUnreadTimout s' = _clearUnreadTimout s
  ∧ isDisposed s' = isDisposed s ∧ loadCalled s' = loadCalled s
  ∧ _room s' = _room s.

(** The tracked objects against the trace: every tracked object was created
    and not disposed, every created object that is no longer tracked was
    disposed once, and the composer never. *)
Record Track (tr : list Event) (ds : list Obj) (next : nat) : Prop := {
  tk_nodup : NoDup ds;
  tk_tracked : ∀ o, o ∈ ds →
    trackable o = true ∧ disposals o tr = 0%nat ∧ Constructed o ∈ tr;
  tk_fresh : ∀ o, Constructed o ∈ tr ∨ Disposed o ∈ tr → (obj_handle o < next)%nat;
  tk_gone : ∀ o, Constructed o ∈ tr → trackable o = true → o ∉ ds →
    disposals o tr = 1%nat;
  tk_composer : ∀ o, trackable o = false → disposals o tr = 0%nat
}.

(** The call view models against the trace. *)
Record Calls (tr : list Event) (ds : list Obj) (field : option Obj) : Prop := {
  cl_calm : calm [] tr;
  cl_alive : alive tr = filter isCallViewModel ds;
  cl_field : ∀ vm, field = Some vm → isCallViewModel vm = true;
  cl_one : filter isCallViewModel ds = []
           ∨ ∃ vm, filter isCallViewModel ds = [vm] ∧ field = Some vm
}.

(** The objects of the view model: the tracked ones, the call view models,
    and the fields that refer to them. *)
Record Inv_objects (s : State) : Prop := {
  io_track : Track (trace s) (disposables s) (nextHandle s);
  io_calls : Calls (trace s) (disposables s) (_callViewModel s);
  io_timeline : ∀ o, _timelineVM s = Some o →
    isCallViewModel o = false ∧ (isDisposed s = false → o ∈ disposables s);
  io_call : ∀ o, _callViewModel s = Some o → isDisposed s = false → o ∈ disposables s;
  io_composer : ∃ o, _composerVM s = Some o ∧ trackable o = false
                     ∧ Constructed o ∈ trace s
}.

(** A step that neither creates nor disposes an object. *)
Definition quiet_frame (s s' : State) : Prop :=
  ∃ ext, trace s' = trace s ++ ext ∧ forallb quiet ext = true
         ∧ disposables s' = disposables s ∧ nextHandle s' = nextHandle s
         ∧ _timelineVM s' = _timelineVM s ∧ _callViewModel s' = _callViewModel s
         ∧ _composerVM s' = _composerVM s ∧ isDisposed s' = isDisposed s.

(** While [load()] awaits [openTimeline()], and before [load()] is called,
    no timeline view model is attached. *)
Definition Inv_load (s : State) : Prop :=
  (loadCalled s = false → _timelineVM s = None)
  ∧ (AwaitOpenTimeline ∈ awaiting s → _timelineVM s = None).

(** ** Sample inputs *)

Definition room1 : Room := {| room_id := "!room:hs"; isArchived := false |}.

Definition archive1 : Room := {| room_id := "!left:hs"; isArchived := true |}.

Definition callA : Call :=
  {| call_id := "call-a"; call_roomId := "!room:hs"; call_hasJoined := true |}.

Definition callB : Call :=
  {| call_id := "call-b"; call_roomId := "!room:hs"; call_hasJoined := true |}.

Definition callC : Call :=
  {| call_id := "call-c"; call_roomId := "!other:hs"; call_hasJoined := true |}.

Definition boom : Error :=
  {| err_name := "Error"; err_message := js "boom"; err_mediaCode := None |}.

Definition png : File :=
  {| file_name := js "cat.png";
     file_blob := {| mimeType := js "image/png"; blob_ref := 1 |} |}.

Definition photo : Media :=
  {| maxDimension := 1024; media_blob := file_blob png; media_duration := 0;
     media_ref := 2 |}.

(** An environment in which every call succeeds. *)
Definition env_ok : Env :=
  λ X op _,
    match op in Op X return Outcome X with
    | sendEvent _ _ _ => Resolved tt
    | reply _ _ _ => Resolved tt
    | createAttachment _ _ => Resolved 3%nat
    | openFile _ => Resolved (Some png)
    | hasReadPixelPermission => Resolved true
    | loadVideo _ => Resolved photo
    | loadImage _ => Resolved photo
    | getInt _ => Resolved None
    | scale m _ => Resolved m
    | disposeMedia _ => Resolved tt
    end.

(** The same, except that [openFile] fails. *)
Definition env_openFile_fails : Env :=
  λ X op tr,
    match op in Op X return Outcome X with
    | openFile _ => Rejected boom
    | op => env_ok _ op tr
    end.

(** The same, except that [sendEvent] fails. *)
Definition env_sendEvent_fails : Env :=
  λ X op tr,
    match op in Op X return Outcome X with
    | sendEvent _ _ _ => Rejected boom
    | op => env_ok _ op tr
    end.

(** The same, except that [loadImage] fails. *)
Definition env_loadImage_fails : Env :=
  λ X op tr,
    match op in Op X return Outcome X with
    | loadImage _ => Rejected boom
    | op => env_ok _ op tr
    end.

(** ** Further notions of the lifecycle *)

(** The composer the constructor creates (lines 42-46); it is the first
    object of the view model. *)
Definition composer_of (room : Room) : Obj :=
  if isArchived room then ArchivedViewModel 0 else ComposerViewModel 0.

(** The call view model is the one of the call the pick observable holds. *)
Definition follows_pick (s : State) : Prop :=
  match _callObservable s, _callViewModel s with
  | Some c, Some (CallViewModel _ c') => call_id c' = call_id c
  | None, None => True
  | _, _ => False
  end.

Definition isElapsed (t : TimeoutState) : bool :=
  match t with Elapsed => true | _ => false end.

(** The timeouts a trace created, with their delays. *)
Definition created (tr : list Event) : list (nat * Z) :=
  omap (λ ev, match ev with TimeoutCreated t ms => Some (t, ms) | _ => None end) tr.

Definition is_timeline_created (ev : Event) : bool :=
  match ev with Constructed (TimelineViewModel _ _) => true | _ => false end.

(** Whether [openTimeline()] has resolved. *)
Definition is_opened (i : Input) : bool :=
  match i with openTimeline_settled (Resolved _) => true | _ => false end.

Definition is_dispose (i : Input) : bool :=
  match i with call_dispose => true | _ => false end.

(** What the callback of the pick observable adds to the trace: disposals,
    constructions of call view models and changes. *)
Definition of_call (ev : Event) : bool :=
  match ev with
  | Disposed _ | Constructed (CallViewModel _ _) | EmitChange _ _ => true
  | _ => false
  end.

(** ** Tiles *)

Section tiles.
Context {Entry TileClass : Type}.

(** [this._tileClassForEntry], the function of the options or the default
    one (line 38); it is what [_tileOptions.tileClassForEntry] is (line 84). *)
Variable tileClassForEntry : Entry → option TileClass.

(** [new Tile(entry, this._tileOptions)]: the tile classes are not part of
    the sources, the new tile is kept as what it is constructed from. *)
Record Tile := {
  tile_class : TileClass;
  tile_entry : Entry;
  tile_options : nat
}.

(** [_createTile], lines 188-195; [None] is [undefined]. *)
Definition _createTile (entry : Entry) (s : State) : option Tile :=
  match _tileOptions s with
  | Some options =>
      match tileClassForEntry entry with
      | Some T => Some {| tile_class := T; tile_entry := entry; tile_options := options |}
      | None => None
      end
  | None => None
  end.

End tiles.

(** ** Replying *)

(** [startReply], lines 345-349: the call of [setReplyingTo] that it makes,
    with its receiver and its argument; [None] when it makes none. *)
Definition startReply (entry : nat) (s : State) : option (option Obj * nat) :=
  if negb (isArchived (_room s)) then Some (_composerVM s, entry) else None.

(** ** Further invariants of the event loop *)

(** The room and the composer are those of the constructor. *)
Definition Inv_fixed (room : Room) (s : State) : Prop :=
  _room s = room ∧ _composerVM s = Some (composer_of room).

(** Until [dispose()] the callback of the pick observable is subscribed,
    and the call view model follows the pick. *)
Definition Inv_pick (s : State) : Prop :=
  isDisposed s = false → subscribed s = true ∧ follows_pick s.

(** [_onRoomChange] is registered from [load()] to [dispose()]. *)
Definition Inv_listen (s : State) : Prop :=
  listening s = loadCalled s && negb (isDisposed s).

(** The unread-clear of an archived room. *)
Definition Inv_archived (s : State) : Prop :=
  isArchived (_room s) = true → timeouts s = [] ∧ _clearUnreadTimout s = None.

(** The calls of [clearUnread()] and the timeouts of the clock. *)
Definition Inv_clears (s : State) : Prop :=
  count is_clearUnread (trace s) = tally isElapsed (timeouts s)
  ∧ created (trace s) = (λ t, (t, 2000)) <$> seq 0 (length (timeouts s)).

(** The timeline view model: there is none before [openTimeline()] has
    resolved, and one, with the tile options of its timeline, afterwards. *)
Definition Inv_timeline (s : State) : Prop :=
  match _timelineVM s with
  | None => count is_timeline_created (trace s) = 0%nat ∧ _tileOptions s = None
  | Some vm =>
      ∃ h timeline, vm = TimelineViewModel h timeline
        ∧ _tileOptions s = Some timeline
        ∧ count is_timeline_created (trace s) = 1%nat
        ∧ Constructed vm ∈ trace s
        ∧ tally isOpen (awaiting s) = 0%nat ∧ loadCalled s = true
  end.

(** After [dispose()], as long as [load()] awaits [openTimeline()], the
    field [_clearUnreadTimout] is null. *)
Definition Inv_late (s : State) : Prop :=
  isDisposed s = true →
  _clearUnreadTimout s = None ∨ tally isOpen (awaiting s) = 0%nat.

(** After [clearUnread()] has failed: the field refers to the timeout that
    elapsed, none is pending, and [clearUnread()] is not awaited. *)
Definition Stuck (s : State) : Prop :=
  isDisposed s = false ∧ is_Some (_clearUnreadTimout s)
  ∧ (∀ t, timeouts s !! t ≠ Some Pending)
  ∧ tally isClear (awaiting s) = 0%nat.

(** The guard of line 60: the picked call has the id of the current call
    view model. *)
Definition same_call (call : option Call) (vm : option Obj) : bool :=
  match call, vm with
  | Some call, Some vm => bool_decide (Some (call_id call) = vm_id vm)
  | _, _ => false
  end.

(** Until [dispose()], the tracked objects are the subscription on the pick
    observable, the timeline view model and the call view model. *)
Definition Inv_tracked (s : State) : Prop :=
  isDisposed s = false →
  disposables s
  ≡ₚ CallSubscription 1 :: option_list (_timelineVM s) ++ option_list (_callViewModel s).

(** ** Further readings of a trace *)

(** The messages a trace sent with [sendEvent], with their attachments. *)
Definition sent (tr : list Event) : list (Content * option Attachments) :=
  omap (λ ev, match ev with
              | @Called _ (sendEvent _ content attachments) _ => Some (content, attachments)
              | _ => None
              end) tr.

(** The sends that succeeded. *)
Definition is_delivered (ev : Event) : bool :=
  match ev with
  | @Called _ (sendEvent _ _ _) (Resolved _) => true
  | @Called _ (reply _ _ _) (Resolved _) => true
  | _ => false
  end.

(** The calls of [scale], with what they gave. *)
Definition scaled (tr : list Event) : list (Media * Z * Outcome Media) :=
  omap (λ ev, match ev with
              | @Called _ (scale m d) r => Some (m, d, r)
              | _ => None
              end) tr.

(** The media that were disposed. *)
Definition disposed_media (tr : list Event) : list Media :=
  omap (λ ev, match ev with
              | @Called _ (disposeMedia m) _ => Some m
              | _ => None
              end) tr.

(** The image or video the platform loaded. *)
Definition loaded (tr : list Event) : option Media :=
  head (omap (λ ev, match ev with
                    | @Called _ (loadImage _) (Resolved m) => Some m
                    | @Called _ (loadVideo _) (Resolved m) => Some m
                    | _ => None
                    end) tr).

(** The size limit of the settings, when it was read and is set. *)
Definition size_limit (tr : list Event) : option Z :=
  head (omap (λ ev, match ev with
                    | @Called _ (getInt _) (Resolved limit) => Some limit
                    | _ => None
                    end) tr) ≫= truthy_number.

(** The attachments that were created, with their handles. *)
Definition attached_blobs (tr : list Event) : list (Blob * jsstring * nat) :=
  omap (λ ev, match ev with
              | @Called _ (createAttachment blob name) (Resolved a) => Some (blob, name, a)
              | _ => None
              end) tr.

(** What the platform answered about the read-pixel permission. *)
Definition permission (tr : list Event) : option (Outcome bool) :=
  head (omap (λ ev, match ev with
                    | @Called _ hasReadPixelPermission r => Some r
                    | _ => None
                    end) tr).

Definition is_openFile (ev : Event) : bool :=
  match ev with @Called _ (openFile _) _ => true | _ => false end.

Definition is_alert (ev : Event) : bool :=
  match ev with Alert _ => true | _ => false end.

Definition is_call (ev : Event) : bool :=
  match ev with @Called _ _ _ => true | _ => false end.

(** Every send of a trace is its last call. *)
Fixpoint send_is_last (tr : list Event) : bool :=
  match tr with
  | [] => true
  | ev :: tr' =>
      (if is_send ev then bool_decide (count is_call tr' = 0%nat) else true)
      && send_is_last tr'
  end.

(** A send command ran in order: it changed nothing of the view model but
    the trace, it sent at most once and made no call afterwards, at most
    one of its calls failed and at most one error was reported, and after
    a failure nothing was delivered. *)
Definition orderly (s s' : State) : Prop :=
  s' = set_trace (trace s ++ news s s') s
  ∧ (count is_send (news s s') ≤ 1)%nat
  ∧ (length (failures (news s s')) ≤ 1)%nat
  ∧ (length (reported (news s s')) ≤ 1)%nat
  ∧ (failures (news s s') ≠ [] → count is_delivered (news s s') = 0%nat)
  ∧ send_is_last (news s s') = true.

(** The message of a picture: its body is the name of the picked file; its
    info is that of the image, without a duration; the image is the loaded
    one, or, when a size limit is set and the loaded image exceeds it, the
    loaded image scaled to the limit (the loaded one is then disposed); an
    image whose [maxDimension] exceeds 600 comes with a thumbnail, scaled
    to 400, and the attachments hold what was created from the blobs of
    the image and of the thumbnail. *)
Definition picture_message (tr : list Event) (content : Content)
    (attachments : option Attachments) : Prop :=
  ∃ file i a,
    picked tr = Some file ∧ body content = file_name file
    ∧ info content = Some i ∧ info_duration i = None
    ∧ attachments = Some a
    ∧ (media_blob (info_of i), file_name file, url a) ∈ attached_blobs tr
    ∧ (if maxDimension (info_of i) >? 600 then
         ∃ thumbnail thumbnail_url,
           thumbnail_info i = Some thumbnail
           ∧ info_thumbnail_url a = Some thumbnail_url
           ∧ (info_of i, 400, Resolved thumbnail) ∈ scaled tr
           ∧ (media_blob thumbnail, file_name file, thumbnail_url) ∈ attached_blobs tr
       else thumbnail_info i = None ∧ info_thumbnail_url a = None)
    ∧ ∃ image,
        loaded tr = Some image
        ∧ match size_limit tr with
          | Some limit =>
              if maxDimension image >? limit then
                (image, limit, Resolved (info_of i)) ∈ scaled tr
                ∧ disposed_media tr = [image]
              else info_of i = image ∧ disposed_media tr = []
          | None => info_of i = image ∧ disposed_media tr = []
          end.

(** The message of a video: its body is the name of the picked file; its
    info is that of the loaded video, with its duration; it always comes
    with a thumbnail, the video scaled to the size limit when one is set
    and to the smaller of its own size and 800 otherwise; nothing is
    disposed. *)
Definition video_message (tr : list Event) (content : Content)
    (attachments : option Attachments) : Prop :=
  ∃ file video i a thumbnail thumbnail_url,
    picked tr = Some file ∧ loaded tr = Some video
    ∧ body content = file_name file
    ∧ info content = Some i ∧ info_of i = video
    ∧ info_duration i = Some (media_duration video)
    ∧ thumbnail_info i = Some thumbnail
    ∧ attachments = Some a ∧ info_thumbnail_url a = Some thumbnail_url
    ∧ (media_blob video, file_name file, url a) ∈ attached_blobs tr
    ∧ (media_blob thumbnail, file_name file, thumbnail_url) ∈ attached_blobs tr
    ∧ (video,
       match size_limit tr with
       | Some limit => limit
       | None => Z.min (maxDimension video) 800
       end,
       Resolved thumbnail) ∈ scaled tr
    ∧ disposed_media tr = [].

(** A file that is sent as it is: an "m.file" with the name of the picked
    file as body, without info and without a thumbnail, with the one
    attachment created from the blob of the file; nothing was loaded or
    scaled. *)
Definition sent_as_it_is (tr : list Event) (content : Content)
    (attachments : option Attachments) : Prop :=
  ∃ file url,
    picked tr = Some file
    ∧ content = {| body := file_name file; msgtype := "m.file"; info := None |}
    ∧ attachments = Some {| url := url; info_thumbnail_url := None |}
    ∧ attached_blobs tr = [(file_blob file, file_name file, url)]
    ∧ loaded tr = None ∧ scaled tr = [].

(** What a command does about the read-pixel permission: with the
    permission it shows no alert and opens the file picker once; without it
    it shows the alert and does nothing else; when asking fails, the error
    is reported and nothing else is done. *)
Definition asks_permission (tr : list Event) (o : Outcome JsValue) : Prop :=
  match permission tr with
  | Some (Resolved true) =>
      count is_alert tr = 0%nat ∧ count is_openFile tr = 1%nat
  | Some (Resolved false) =>
      tr = [Called hasReadPixelPermission (Resolved false);
            Alert "Please allow canvas image data access, so we can scale your images down."]
      ∧ o = Resolved undefined
  | Some (Rejected e) =>
      tr = [Called hasReadPixelPermission (Rejected e); ReportError e]
      ∧ o = Resolved undefined
  | None => False
  end.

(** The same view model on another room. *)
Definition with_room (room : Room) (s : State) : State :=
  {| _room := room; _timelineVM := _timelineVM s; _tileOptions := _tileOptions s;
     _composerVM := _composerVM s; _clearUnreadTimout := _clearUnreadTimout s;
     _callViewModel := _callViewModel s; _callObservable := _callObservable s;
     subscribed := subscribed s; disposables := disposables s;
     isDisposed := isDisposed s; listening := listening s;
     timeouts := timeouts s; awaiting := awaiting s; loadCalled := loadCalled s;
     nextHandle := nextHandle s; trace := trace s |}.

(** What a command gives on another room: the same, the room apart. *)
Definition on_room (room : Room) (run : State * Outcome JsValue)
  : State * Outcome JsValue :=
  (with_room room run.1, run.2).

(** How a command ends that has handed the picked file to [_sendFile]
    (lines 225, 252 and 297): as [_sendFile] ends, with the failure of its
    call if one failed. *)
Definition as_sendFile (tr : list Event) : Outcome JsValue :=
  match failures tr with
  | [] => Resolved undefined
  | e :: _ => Rejected e
  end.

(** ** Starting a call *)

(** [new LocalMedia().withUserMedia(stream)]: LocalMedia is not part of the
    sources, the object is kept as what it is made of. *)
Inductive LocalMedia := withUserMedia (stream : nat).

Section start_call.

(** The numbers of JavaScript, with the arithmetic of line 364 -
    [Math.round(r * 100)] and the conversion to a string - left open. *)
Context {number : Type}.
Variable times100 : number → number.
Variable Math_round : number → number.
Variable toString : number → jsstring.

(** Calls answered by the environment of [startCall]: the media devices and
    the random source of the platform, the call handler of the session,
    and the call it creates. *)
Inductive CallOp : Type → Type :=
| getMediaTracks (audio video : bool) : CallOp nat
| random : CallOp number
| createCall (roomId : string) (type : string) (name : jsstring) : CallOp nat
| join (call : nat) (localMedia : LocalMedia) : CallOp unit.

(** A call that was made, with what it gave. *)
Inductive Asked :=
| Ask {X : Type} (op : CallOp X) (r : Outcome X).

Definition CallEnv : Type := ∀ X, CallOp X → list Asked → Outcome X.

Variable cenv : CallEnv.

(** The run of [startCall]: the view model, and the calls made so far. *)
Definition C (A : Type) : Type :=
  State * list Asked → (State * list Asked) * Outcome A.

Definition C_ret {A} (a : A) : C A := λ c, (c, Resolved a).

Definition C_bind {A B} (m : C A) (k : A → C B) : C B :=
  λ c, match m c with
       | (c', Resolved a) => k a c'
       | (c', Rejected e) => (c', Rejected e)
       end.

Definition C_try {A} (body : C A) (handler : Error → C A) : C A :=
  λ c, match body c with
       | (c', Resolved a) => (c', Resolved a)
       | (c', Rejected e) => handler e c'
       end.

(** A method of the view model, run within [startCall]. *)
Definition C_lift {A} (m : M A) : C A :=
  λ c, match m c.1 with (s', o) => ((s', c.2), o) end.

(** A call, awaited: it returns or throws what the environment answers. *)
Definition ask {X} (op : CallOp X) : C X :=
  λ c, let r := cenv X op c.2 in ((c.1, c.2 ++ [Ask op r]), r).

(** [try { body } catch (err) { this.reportError(new Error(`prefix${err.message}`)); return; }],
    the shape of the three blocks of [startCall]: [None] when the block
    has returned from the method. *)
Definition attempt {A} (body : C A) (prefix : jsstring) : C (option A) :=
  C_try (C_bind body (λ a, C_ret (Some a)))
        (λ err, C_bind (C_lift (reportError (new_Error (prefix ++ err_message err))))
                       (λ _, C_ret None)).

(** [startCall], lines 351-375. *)
Definition startCall : C JsValue :=
  C_bind
    (attempt
       (C_bind (ask (getMediaTracks false true))
               (λ stream, C_ret (withUserMedia stream)))
       (js "Could not get local audio and/or video stream: "))
    (λ localMedia,
       match localMedia with
       | None => C_ret undefined
       | Some localMedia =>
           C_bind
             (attempt
                (C_bind (C_lift get) (λ s,
                 C_bind (ask random) (λ r,
                 ask (createCall (room_id (_room s)) "m.video"
                        (js "A call " ++ toString (Math_round (times100 r)))))))
                (js "Could not create call: "))
             (λ call,
                match call with
                | None => C_ret undefined
                | Some call =>
                    C_bind
                      (attempt (ask (join call localMedia))
                               (js "Could not join call: "))
                      (λ _, C_ret undefined)
                end)
       end).

(** The calls of [startCall] in their order, with what they gave: the
    media tracks, the random number, the creation of the call, the join;
    each is made when the one before it succeeded. *)
Definition call_plan (roomId : string) (r1 : Outcome nat) (r2 : Outcome number)
    (r3 : Outcome nat) (r4 : Outcome unit) : list Asked :=
  Ask (getMediaTracks false true) r1
  :: match r1 with
     | Rejected _ => []
     | Resolved stream =>
         Ask random r2
         :: match r2 with
            | Rejected _ => []
            | Resolved n =>
                Ask (createCall roomId "m.video"
                       (js "A call " ++ toString (Math_round (times100 n)))) r3
                :: match r3 with
                   | Rejected _ => []
                   | Resolved call => [Ask (join call (withUserMedia stream)) r4]
                   end
            end
     end.

(** The text that the report of a failed call starts with. *)
Definition stage {X} (op : CallOp X) : jsstring :=
  match op with
  | getMediaTracks _ _ => js "Could not get local audio and/or video stream: "
  | random | createCall _ _ _ => js "Could not create call: "
  | join _ _ => js "Could not join call: "
  end.

(** The report of a call that failed. *)
Definition report_of (a : Asked) : list Event :=
  match a with
  | Ask op (Rejected e) => [ReportError (new_Error (stage op ++ err_message e))]
  | Ask op (Resolved _) => []
  end.

Definition has_failed (a : Asked) : bool :=
  match a with Ask _ (Rejected _) => true | _ => false end.

(** The calls of [join]. *)
Definition joined (l : list Asked) : list (nat * LocalMedia * Outcome unit) :=
  omap (λ a, match a with
             | @Ask _ (join call localMedia) r => Some (call, localMedia, r)
             | _ => None
             end) l.

End start_call.

(** ** Further sample inputs *)

(** A video file and what the platform loads from it. *)
Definition film : File :=
  {| file_name := js "cat.webm";
     file_blob := {| mimeType := js "video/webm"; blob_ref := 5 |} |}.

Definition clip : Media :=
  {| maxDimension := 1920; media_blob := file_blob film; media_duration := 12000;
     media_ref := 6 |}.

Definition small (m : Media) (d : Z) : Media :=
  {| maxDimension := d; media_blob := {| mimeType := js "image/jpeg"; blob_ref := 7 |};
     media_duration := 0; media_ref := 8 |}.

(** An environment with a size limit of 320 pixels, in which a video is
    picked for "video/*". *)
Definition env_limit : Env :=
  λ X op tr,
    match op in Op X return Outcome X with
    | openFile (Some "video/*"%string) => Resolved (Some film)
    | loadVideo _ => Resolved clip
    | getInt _ => Resolved (Some 320)
    | scale m d => Resolved (small m d)
    | op => env_ok _ op tr
    end.

(** An environment of [startCall] in which the join fails. *)
Definition env_call : @CallEnv nat :=
  λ X op _,
    match op in CallOp X return Outcome X with
    | getMediaTracks _ _ => Resolved 11%nat
    | random => Resolved 42%nat
    | createCall _ _ _ => Resolved 12%nat
    | join _ _ => Rejected boom
    end.

(** * Properties *)

(** ** Map-pick arbitration *)

Module PickMapFacts.
Import PickMap.
Section arbitration.
Context {K : Type} `{Countable K}.
Context (key_lt : relation K) `{!RelDecision key_lt}.
Context `{!StrictOrder key_lt} `{!Trichotomy key_lt}.
Context {V : Type} (visible : V → bool).

Lemma foldr_lower_least (l : list K) :
  match foldr (lower key_lt) None l with
  | Some k => k ∈ l ∧ ∀ k', k' ∈ l → k = k' ∨ key_lt k k'
  | None => l = []
  end.
Proof.
  induction l as [|x l IH]; simpl; [done|].
  destruct (foldr (lower key_lt) None l) as [k|]; simpl.
  - destruct IH as [Hin Hle]. case_decide as Hlt.
    + split; [left|]. intros k' [->|Hk']%elem_of_cons; [by left|].
      right. destruct (Hle k' Hk') as [<-|Hlt']; [done|]. by transitivity k.
    + split; [by right|]. intros k' [->|Hk']%elem_of_cons; [|by apply Hle].
      destruct (trichotomy key_lt x k) as [?|[->|?]]; [done|by left|by right].
  - subst l. split; [left|]. intros k' Hk'. left.
    by apply list_elem_of_singleton in Hk'.
Qed.

Lemma min_key_least (w : gmap K V) : least key_lt w (min_key key_lt w).
Proof.
  unfold min_key. pose proof (foldr_lower_least (map_to_list w).*1) as Hf.
  destruct (foldr (lower key_lt) None (map_to_list w).*1) as [k|]; simpl.
  - destruct Hf as [Hin Hle]. split.
    + apply list_elem_of_fmap in Hin as [[k0 v] [-> Hin]].
      apply elem_of_map_to_list in Hin. by exists v.
    + intros k' [v Hv]. apply Hle. apply list_elem_of_fmap.
      exists (k', v). split; [done|]. by apply elem_of_map_to_list.
  - apply fmap_nil_inv in Hf. by apply map_to_list_empty_iff.
Qed.

Lemma least_insert_new (w : gmap K V) p k v :
  least key_lt w p →
  least key_lt (<[k:=v]> w)
    (match p with
     | None => Some k
     | Some p => if decide (key_lt k p) then Some k else Some p
     end).
Proof.
  destruct p as [p|]; simpl.
  - intros [Hp Hle]. case_decide as Hlt; split.
    + rewrite lookup_insert_eq. by eexists.
    + intros k' Hk'. destruct (decide (k = k')) as [|Hne]; [by left|right].
      rewrite lookup_insert_ne in Hk' by done.
      destruct (Hle k' Hk') as [<-|?]; [done|by transitivity p].
    + destruct (decide (k = p)) as [->|Hne].
      * rewrite lookup_insert_eq. by eexists.
      * by rewrite lookup_insert_ne.
    + intros k' Hk'. destruct (decide (k = k')) as [<-|Hne].
      * destruct (trichotomy key_lt k p) as [?|[->|?]]; [done|by left|by right].
      * rewrite lookup_insert_ne in Hk' by done. by apply Hle.
  - intros ->. split.
    + rewrite lookup_insert_eq. by eexists.
    + intros k' Hk'. destruct (decide (k = k')) as [|Hne]; [by left|].
      rewrite lookup_insert_ne, lookup_empty in Hk' by done. by destruct Hk'.
Qed.

Lemma least_remove (w : gmap K V) p k :
  least key_lt w p →
  least key_lt (delete k w)
    (if decide (p = Some k) then min_key key_lt (delete k w) else p).
Proof.
  intros Hl. case_decide as Hp; [apply min_key_least|].
  destruct p as [p|]; simpl in *.
  - destruct Hl as [Hin Hle]. assert (k ≠ p) by congruence. split.
    + by rewrite lookup_delete_ne.
    + intros k' Hk'. apply Hle. destruct (decide (k = k')) as [->|Hne].
      * rewrite lookup_delete_eq in Hk'. by destruct Hk'.
      * by rewrite lookup_delete_ne in Hk'.
  - subst w. apply delete_empty.
Qed.

Lemma least_overwrite (w : gmap K V) p k v :
  is_Some (w !! k) → least key_lt w p → least key_lt (<[k:=v]> w) p.
Proof.
  intros Hk. assert (∀ k', is_Some (<[k:=v]> w !! k') ↔ is_Some (w !! k')) as Hiff.
  { intros k'. destruct (decide (k = k')) as [<-|Hne].
    - rewrite lookup_insert_eq. split; [done|by eexists].
    - by rewrite lookup_insert_ne. }
  destruct p as [p|]; simpl.
  - intros [Hp Hle]. split; [by apply Hiff|]. intros k' Hk'. by apply Hle, Hiff.
  - intros ->. rewrite lookup_empty in Hk. by destruct Hk.
Qed.

Lemma consistent_empty : consistent key_lt visible ∅ empty.
Proof.
  split; simpl; [|done]. intros k v. rewrite !lookup_empty. split; [done|by intros [? _]].
Qed.

(** The arbiter stays consistent with the collection over every mutation. *)
Ltac solve_lookup :=
  split; [intros ?|intros [? ?]]; simplify_eq; try done; try congruence;
  try (split; congruence).

Lemma consistent_step ev (m m' : gmap K V) a :
  consistent key_lt visible m a →
  collection_step ev m = Some m' →
  consistent key_lt visible m' (notify key_lt visible ev a).
Proof.
  intros [Hw Hl] Hstep. destruct ev as [k v|k|k v]; simpl in *.
  - destruct (m !! k) as [old|] eqn:Hmk; [done|]. injection Hstep as <-.
    assert (working a !! k = None) as Hwk.
    { destruct (working a !! k) as [v0|] eqn:E; [|done].
      apply Hw in E as [E _]. congruence. }
    unfold on_insert. destruct (visible v) eqn:Hv; split; simpl.
    + intros k0 v0. destruct (decide (k = k0)) as [<-|Hne].
      * rewrite !lookup_insert_eq. solve_lookup.
      * rewrite !lookup_insert_ne by done. apply Hw.
    + by apply least_insert_new.
    + intros k0 v0. destruct (decide (k = k0)) as [<-|Hne].
      * rewrite lookup_insert_eq, Hwk. solve_lookup.
      * rewrite lookup_insert_ne by done. apply Hw.
    + done.
  - destruct (m !! k) as [old|] eqn:Hmk; [|done]. injection Hstep as <-.
    split; simpl.
    + intros k0 v0. destruct (decide (k = k0)) as [<-|Hne].
      * rewrite !lookup_delete_eq. solve_lookup.
      * rewrite !lookup_delete_ne by done. apply Hw.
    + by apply least_remove.
  - destruct (m !! k) as [old|] eqn:Hmk; [|done]. injection Hstep as <-.
    unfold on_update.
    destruct (working a !! k) as [w0|] eqn:Hwk, (visible v) eqn:Hv; split; simpl.
    + intros k0 v0. destruct (decide (k = k0)) as [<-|Hne].
      * rewrite !lookup_insert_eq. solve_lookup.
      * rewrite !lookup_insert_ne by done. apply Hw.
    + apply least_overwrite; [by rewrite Hwk|done].
    + intros k0 v0. destruct (decide (k = k0)) as [<-|Hne].
      * rewrite lookup_delete_eq, lookup_insert_eq. solve_lookup.
      * rewrite lookup_delete_ne, lookup_insert_ne by done. apply Hw.
    + by apply least_remove.
    + unfold on_insert. rewrite Hv. simpl.
      intros k0 v0. destruct (decide (k = k0)) as [<-|Hne].
      * rewrite !lookup_insert_eq. solve_lookup.
      * rewrite !lookup_insert_ne by done. apply Hw.
    + unfold on_insert. rewrite Hv. simpl. by apply least_insert_new.
    + intros k0 v0. destruct (decide (k = k0)) as [<-|Hne].
      * rewrite lookup_insert_eq, Hwk. solve_lookup.
      * rewrite lookup_insert_ne by done. apply Hw.
    + done.
Qed.

Lemma consistent_run evs (m m' : gmap K V) a a' :
  consistent key_lt visible m a →
  run key_lt visible evs m a = Some (m', a') →
  consistent key_lt visible m' a'.
Proof.
  revert m a. induction evs as [|ev evs IH]; simpl; intros m a Hc Hrun.
  - by injection Hrun as <- <-.
  - destruct (collection_step ev m) as [m1|] eqn:Hstep; [|done].
    eapply IH; [|done]. by eapply consistent_step.
Qed.

Lemma consistent_min_visible (m : gmap K V) a :
  consistent key_lt visible m a → min_visible key_lt visible m (get a).
Proof.
  intros [Hw Hl]. unfold get. destruct (pick a) as [p|]; simpl in *.
  - destruct Hl as [[v Hp] Hle]. rewrite Hp. simpl.
    exists p. apply Hw in Hp as Hm. destruct Hm as [Hm Hv].
    split; [done|]. split; [done|].
    intros k' v' Hk' Hv'. apply Hle. exists v'. by apply Hw.
  - intros k v Hk. destruct (visible v) eqn:Hv; [|done].
    assert (working a !! k = Some v) as E by by apply Hw.
    rewrite Hl, lookup_empty in E. done.
Qed.

End arbitration.
End PickMapFacts.

(** The spec's own example: keys 5 and 2 both pass the filter, the pick is
    the call under key 2; removing key 2 gives the call under key 5;
    removing key 5 gives no call. *)
Example pick_example :
  let run_get evs :=
    (λ r, PickMap.get (snd r)) <$>
      PickMap.run Z.lt (callFilter room1) evs ∅ PickMap.empty in
  run_get [PickMap.Insert 5 callA; PickMap.Insert 2 callB] = Some (Some callB)
  ∧ run_get [PickMap.Insert 5 callA; PickMap.Insert 2 callB; PickMap.Remove 2]
    = Some (Some callA)
  ∧ run_get [PickMap.Insert 5 callA; PickMap.Insert 2 callB; PickMap.Remove 2;
             PickMap.Remove 5] = Some None.
Proof. vm_compute. done. Qed.

(** C1. For every sequence of insert/remove/update events on the call
    collection, the value held by the pick observable of
    [_setupCallViewModel] is the call with the minimum key among the calls
    that currently satisfy [c.roomId === this._room.id && c.hasJoined], and
    is absent when no call satisfies it.  The statement is about every
    sequence, hence about the state after every single mutation. *)
Theorem pick_is_min_visible_call
    {K : Type} `{Countable K} (key_lt : relation K) `{!RelDecision key_lt}
    `{!StrictOrder key_lt} `{!Trichotomy key_lt}
    (room : Room) (evs : list (PickMap.MapEvent (K:=K) (V:=Call)))
    (m : gmap K Call) (a : PickMap.Arbiter) :
  PickMap.run key_lt (callFilter room) evs ∅ PickMap.empty = Some (m, a) →
  PickMap.min_visible key_lt (callFilter room) m (PickMap.get a).
Proof.
  intros Hrun. apply PickMapFacts.consistent_min_visible; [done..|].
  eapply PickMapFacts.consistent_run; [done.. | | exact Hrun].
  by apply PickMapFacts.consistent_empty.
Qed.

Lemma Z_lt_trichotomy : Trichotomy Z.lt.
Proof. intros x y. lia. Qed.

Lemma pick_is_min_visible_call_witness :
  let evs := [PickMap.Insert 5 callA; PickMap.Insert 7 callC; PickMap.Insert 2 callB;
              PickMap.Update 2 {| call_id := "call-b"; call_roomId := "!room:hs";
                                  call_hasJoined := false |}] in
  match PickMap.run Z.lt (callFilter room1) evs ∅ PickMap.empty with
  | Some (m, a) =>
      PickMap.get a = Some callA ∧
      PickMap.min_visible Z.lt (callFilter room1) m (PickMap.get a)
  | None => False
  end.
Proof.
  intros evs.
  destruct (PickMap.run Z.lt (callFilter room1) evs ∅ PickMap.empty)
    as [[m a]|] eqn:Hrun.
  - split.
    + vm_compute in Hrun. injection Hrun as _ <-. reflexivity.
    + exact (pick_is_min_visible_call Z.lt (Trichotomy0:=Z_lt_trichotomy)
               room1 evs m a Hrun).
  - vm_compute in Hrun. discriminate Hrun.
Defined.

(** ** The callback of the pick observable *)

(** C3. If the pick observable delivers a call whose id equals the id of the
    currently active call view model, the callback disposes nothing, creates
    nothing and emits no change: the whole state, with [_callViewModel] and
    the trace of what was done, is left exactly as it was.  In the event
    loop only the value held by the observable itself is new. *)
Theorem onCallPicked_same_id (s : State) (call : Call) (vm : Obj) :
  _callViewModel s = Some vm →
  vm_id vm = Some (call_id call) →
  onCallPicked (Some call) s = (s, Resolved tt)
  ∧ step (pick_update (Some call)) s = Some (set_callObservable (Some call) s).
Proof.
  intros Hvm Hid.
  assert (∀ s0, _callViewModel s0 = Some vm →
                onCallPicked (Some call) s0 = (s0, Resolved tt)) as Hnoop.
  { intros s0 Hs0. unfold onCallPicked, bind, get. simpl. rewrite Hs0, Hid.
    by rewrite bool_decide_true. }
  split; [by apply Hnoop|].
  simpl. unfold exec, detached. rewrite Hnoop by done.
  by destruct (subscribed s).
Qed.

Lemma onCallPicked_same_id_witness :
  let s := new_RoomViewModel room1 (Some callA) in
  let call := {| call_id := "call-a"; call_roomId := "!room:hs";
                 call_hasJoined := true |} in
  _callViewModel s = Some (CallViewModel 2 callA)
  ∧ onCallPicked (Some call) s = (s, Resolved tt)
  ∧ step (pick_update (Some call)) s = Some (set_callObservable (Some call) s).
Proof.
  intros s call. split; [reflexivity|].
  exact (onCallPicked_same_id s call (CallViewModel 2 callA) eq_refl eq_refl).
Defined.

(** ** The deferred unread-clear *)

(** C7. When the delay is aborted, [elapsed()] rejects with the Aborted
    condition and the method ends there: the state is unchanged, so
    [clearUnread()] is not invoked and nothing is reported, and the method
    returns normally.  Any other exception from that await is raised again.
    In the event loop the aborted method is no longer suspended, and nothing
    was added to the trace. *)
Theorem aborted_delay_is_swallowed (s : State) (t : nat) (e : Error) :
  _clearUnreadAfterDelay_elapsed t (Rejected AbortError) s = (s, Resolved tt)
  ∧ _clearUnreadAfterDelay_elapsed t (Rejected e) s
    = (s, if bool_decide (err_name e = "AbortError") then Resolved tt else Rejected e)
  ∧ match step (abort_observed t) s with
    | Some s' =>
        trace s' = trace s
        ∧ awaiting s' = remove_first (AwaitElapsed t) (awaiting s)
        ∧ count is_clearUnread (trace s') = count is_clearUnread (trace s)
        ∧ reported (trace s') = reported (trace s)
        ∧ unhandled (trace s') = unhandled (trace s)
    | None => True
    end.
Proof.
  split; [reflexivity|]. split.
  - unfold _clearUnreadAfterDelay_elapsed, try_catch, catch_abort, bind, settle.
    simpl. by repeat case_bool_decide.
  - simpl. destruct (timeouts s !! t) as [[]|]; try done.
    unfold resume. case_decide; [|done]. by simpl.
Qed.

(** An aborted delay in action: [focus()] arms the delay, [dispose()] aborts
    it, the rejection of [elapsed()] is observed. *)
Example aborted_delay_example :
  match steps [call_focus; call_dispose; abort_observed 0]
              (new_RoomViewModel room1 None) with
  | Some s =>
      count is_clearUnread (trace s) = 0%nat ∧ reported (trace s) = []
      ∧ unhandled (trace s) = [] ∧ awaiting s = []
      ∧ timeouts s = [Aborted]
  | None => False
  end.
Proof. vm_compute. done. Qed.

(** The rest of [load()] when [openTimeline()] has failed (lines 91-94): it
    leaves [_timelineVM] and the tracked objects as they were, passes that
    one error to [reportError], and runs the scheduling of the deferred
    unread-clear. *)
Lemma load_resumed_failure (s : State) (e : Error) :
  let s' := (load_resumed (Rejected e) s).1 in
  (load_resumed (Rejected e) s).2 = Resolved tt
  ∧ _timelineVM s' = _timelineVM s
  ∧ disposables s' = disposables s
  ∧ reported (news s s') = [e]
  ∧ if isArchived (_room s) then
      trace s' = trace s ++ [ReportError e]
      ∧ _clearUnreadTimout s' = _clearUnreadTimout s
      ∧ timeouts s' = timeouts s ∧ awaiting s' = awaiting s
    else
      match _clearUnreadTimout s with
      | Some t =>
          trace s' = trace s ++ [ReportError e]
          ∧ _clearUnreadTimout s' = Some t
          ∧ timeouts s' = timeouts s ∧ awaiting s' = awaiting s
      | None =>
          let t := length (timeouts s) in
          trace s' = trace s ++ [ReportError e; TimeoutCreated t 2000]
          ∧ _clearUnreadTimout s' = Some t
          ∧ timeouts s' = timeouts s ++ [Pending]
          ∧ timeouts s' !! t = Some Pending
          ∧ awaiting s' = awaiting s ++ [AwaitElapsed t]
      end.
Proof.
  unfold news, load_resumed, detached, _clearUnreadAfterDelay, try_catch, bind,
    settle, reportError, log, modify, get. simpl.
  destruct (isArchived (_room s)) eqn:Harch; simpl.
  - rewrite drop_app_length. done.
  - destruct (_clearUnreadTimout s) as [t|] eqn:Hfield; simpl.
    + rewrite drop_app_length. done.
    + rewrite <- app_assoc. simpl. rewrite drop_app_length.
      repeat split; try done.
      rewrite lookup_app_r by done. by rewrite Nat.sub_diag.
Qed.

(** ** Strings *)

Lemma startsWith_spec (s prefix : jsstring) :
  startsWith s prefix = true ↔ ∃ rest, s = prefix ++ rest.
Proof.
  revert s. induction prefix as [|p prefix IH]; intros s; simpl.
  - split; [by exists s|done].
  - destruct s as [|c s]; simpl.
    + split; [done|]. by intros [rest ?].
    + rewrite andb_true_iff, bool_decide_eq_true, IH. split.
      * intros [-> [rest ->]]. by exists rest.
      * intros [rest [= -> ->]]. split; [done|by exists rest].
Qed.

Lemma trimStart_spec (s : jsstring) :
  ∃ lead, s = lead ++ trimStart s
          ∧ Forall (λ c, isWhiteSpace c = true) lead
          ∧ ∀ c, head (trimStart s) = Some c → isWhiteSpace c = false.
Proof.
  induction s as [|c s (lead & Hs & Hlead & Hhead)]; simpl.
  - by exists [].
  - destruct (isWhiteSpace c) eqn:Hc.
    + exists (c :: lead). simpl. split; [by f_equal|]. split; [by constructor|done].
    + exists []. simpl. split; [done|]. split; [constructor|]. by intros ? [= <-].
Qed.

Lemma trimEnd_spec (s : jsstring) :
  ∃ trail, s = trimEnd s ++ trail
           ∧ Forall (λ c, isWhiteSpace c = true) trail
           ∧ ∀ c, last (trimEnd s) = Some c → isWhiteSpace c = false.
Proof.
  unfold trimEnd. destruct (trimStart_spec (reverse s)) as (lead & Hs & Hlead & Hhead).
  exists (reverse lead). split; [|split].
  - rewrite <- reverse_app, <- Hs. by rewrite reverse_involutive.
  - by apply Forall_reverse.
  - intros c. rewrite last_reverse. apply Hhead.
Qed.

Lemma trim_spec (s : jsstring) : trimmed s (trim s).
Proof.
  unfold trim. destruct (trimStart_spec s) as (lead & Hs & Hlead & Hhead).
  destruct (trimEnd_spec (trimStart s)) as (trail & Hu & Htrail & Hlast).
  exists lead, trail. split; [by rewrite <- Hu|]. do 2 (split; [done|]).
  split; [|done]. intros c Hc. apply Hhead. rewrite Hu.
  destruct (trimEnd (trimStart s)); [done|]. exact Hc.
Qed.

(** ** The send commands *)

Arguments startsWith : simpl never.
Arguments trim : simpl never.
Arguments substr : simpl never.
Arguments js : simpl never.

Ltac unfold_command :=
  unfold _sendMessage, _pickAndSendFile, _pickAndSendPicture, _pickAndSendVideo,
    _sendFile, finish, promise_of, call, alert, console_error, reportError, log,
    try_catch, settle, bind, ret, throw, get, modify, news.

(** C8. For every message and every room: if the room is archived or the
    message is empty, [_sendMessage] returns false and leaves the state as it
    is, so neither [sendEvent] (nor [reply]) is invoked nor an error
    reported; otherwise it makes exactly one call, [sendEvent] or the reply,
    and if that call throws, the error is reported and the result is false,
    else nothing is reported and the result is true. *)
Theorem sendMessage_result (env : Env) (s : State) (message : jsstring)
    (replyingTo : option nat) :
  let '(s', o) := _sendMessage env message replyingTo s in
  if isArchived (_room s) || negb (truthy message) then
    s' = s ∧ o = Resolved (boolean false)
  else
    ∃ msgtype body,
      let op := send_op replyingTo msgtype body in
      is_send (Called op (env _ op (trace s))) = true ∧
      match env _ op (trace s) with
      | Resolved _ =>
          s' = set_trace (trace s ++ [Called op (Resolved tt)]) s
          ∧ o = Resolved (boolean true)
      | Rejected e =>
          s' = set_trace (trace s ++ [Called op (Rejected e); ReportError e]) s
          ∧ o = Resolved (boolean false)
      end.
Proof.
  unfold_command.
  destruct (isArchived (_room s)); simpl; [done|].
  destruct message as [|c message]; simpl; [done|].
  destruct (startsWith (c :: message) (js "/me ")) eqn:Hprefix;
    destruct replyingTo as [entry|];
    match goal with |- context [env unit ?op ?tr] =>
      destruct (env unit op tr) as [[]|e] eqn:E end; simpl.
  1-4: exists "m.emote"%string, (trim (substr (c :: message) 4)).
  5-8: exists "m.text"%string, (c :: message).
  all: simpl; rewrite E; (split; [done|]).
  all: rewrite <- ?app_assoc; by destruct s.
Qed.

(** C10. For every non-empty message on a room that is not archived: a
    message that starts with "/me " is sent (with [sendEvent], or with the
    reply) as "m.emote", with the rest of the message, the white space
    around it trimmed, as body; every other message is sent as "m.text"
    with the message itself as body. *)
Theorem sendMessage_msgtype (env : Env) (s : State) (message : jsstring)
    (replyingTo : option nat) :
  isArchived (_room s) = false →
  message ≠ [] →
  ∃ msgtype body r rest',
    trace (_sendMessage env message replyingTo s).1
    = trace s ++ Called (send_op replyingTo msgtype body) r :: rest'
    ∧ ((∃ rest, message = js "/me " ++ rest ∧ msgtype = "m.emote"%string
                ∧ body = trim rest ∧ trimmed rest body)
       ∨ ((∀ rest, message ≠ js "/me " ++ rest) ∧ msgtype = "m.text"%string
          ∧ body = message)).
Proof.
  intros Harch Hmsg. unfold_command. rewrite Harch.
  destruct message as [|c message]; [done|]. simpl negb. simpl truthy. simpl andb.
  cbv iota.
  destruct (startsWith (c :: message) (js "/me ")) eqn:Hprefix.
  - apply startsWith_spec in Hprefix as [rest Hrest].
    exists "m.emote"%string, (trim rest).
    assert (substr (c :: message) 4 = rest) as -> by by rewrite Hrest.
    destruct replyingTo as [entry|]; simpl;
      match goal with |- context [env unit ?op ?tr] =>
        exists (env unit op tr); destruct (env unit op tr) as [[]|e] end;
      simpl; eexists; (split; [rewrite <- ?app_assoc; reflexivity|]);
      left; exists rest; (do 3 (split; [done|])); apply trim_spec.
  - assert (∀ rest, c :: message ≠ js "/me " ++ rest) as Hno.
    { intros rest Hrest.
      assert (startsWith (c :: message) (js "/me ") = true) as E
        by (apply startsWith_spec; by exists rest).
      congruence. }
    exists "m.text"%string, (c :: message).
    destruct replyingTo as [entry|]; simpl;
      match goal with |- context [env unit ?op ?tr] =>
        exists (env unit op tr); destruct (env unit op tr) as [[]|e] end;
      simpl; eexists; (split; [rewrite <- ?app_assoc; reflexivity|]);
      by right.
Qed.

Lemma sendMessage_msgtype_witness :
  let s := new_RoomViewModel room1 None in
  let message := js "/me  waves " in
  isArchived (_room s) = false ∧ message ≠ []
  ∧ trace (_sendMessage env_ok message None s).1
    = trace s ++ [Called (send_op None "m.emote" (js "waves")) (Resolved tt)]
  ∧ ∃ msgtype body r rest',
      trace (_sendMessage env_ok message None s).1
      = trace s ++ Called (send_op None msgtype body) r :: rest'
      ∧ ((∃ rest, message = js "/me " ++ rest ∧ msgtype = "m.emote"%string
                  ∧ body = trim rest ∧ trimmed rest body)
         ∨ ((∀ rest, message ≠ js "/me " ++ rest) ∧ msgtype = "m.text"%string
            ∧ body = message)).
Proof.
  intros s message. split; [reflexivity|]. split; [discriminate|].
  split; [reflexivity|].
  exact (sendMessage_msgtype env_ok s message None eq_refl
           (λ H : message = [], eq_ind message (λ l, match l with [] => False | _ => True end) I [] H)).
Defined.

(** Case analysis over what the environment answers and over the branches
    of a command, in a goal that starts with the equation running it. *)
Ltac run_cases :=
  repeat match goal with
    | |- context [?env ?X ?op ?tr] =>
        match type of env with Env => idtac end;
        destruct (env X op tr) as [?|?]; simpl
    | |- context [negb (startsWith ?a ?b)] => destruct (startsWith a b) eqn:?; simpl
    | |- context [if negb ?b then _ else _] => destruct b; simpl
    | |- context [match truthy_number ?b with _ => _ end] =>
        destruct (truthy_number b); simpl
    | |- context [if (?a >? ?b) then _ else _] => destruct (a >? b); simpl
    | |- context [if bool_decide (err_mediaCode ?e = Some 4) then _ else _] =>
        destruct (bool_decide (err_mediaCode e = Some 4)) eqn:?; simpl
    | |- context [match ?r with Some _ => _ | None => _ end] =>
        destruct r; simpl
    end.

Ltac finish_cases :=
  let H := fresh "H" in
  intros H; injection H as ? ?; subst; unfold news; simpl;
  rewrite <- ?app_assoc; simpl; rewrite ?drop_app_length, ?drop_all;
  unfold sent_as_file, picked, count, reported, failures, video_failures; simpl;
  repeat match goal with
    | Hb : startsWith _ _ = _ |- _ => rewrite Hb; clear Hb
    | Hb : bool_decide _ = _ |- _ => rewrite Hb; clear Hb
    end;
  simpl.

Lemma sendMessage_contract (env : Env) (s s' : State) (o : Outcome JsValue)
    (message : jsstring) (replyingTo : option nat) :
  _sendMessage env message replyingTo s = (s', o) →
  ∃ b, o = Resolved (boolean b)
       ∧ reported (news s s') = failures (news s s')
       ∧ (b = true ↔ failures (news s s') = [] ∧ count is_send (news s s') = 1%nat)
       ∧ (isArchived (_room s) || negb (truthy message) = true → news s s' = []).
Proof.
  pose proof (sendMessage_result env s message replyingTo) as Hres.
  intros Hrun. rewrite Hrun in Hres.
  destruct (isArchived (_room s) || negb (truthy message)) eqn:Hpre.
  - destruct Hres as [-> ->]. exists false. unfold news. rewrite drop_all.
    split; [done|]. split; [done|]. split; [|done]. split; [done|by intros [_ ?]].
  - destruct Hres as (msgtype & body & Hsend & Hres). simpl in Hres.
    destruct (env unit (send_op replyingTo msgtype body) (trace s)) as [[]|e];
      destruct Hres as [-> ->]; unfold news; simpl; rewrite drop_app_length;
      simpl in *; unfold count; simpl; rewrite Hsend; simpl.
    + exists true. done.
    + exists false. split; [done|]. split; [done|]. split; [|done].
      split; [done|by intros [? _]].
Qed.

Lemma pickAndSendPicture_contract (env : Env) (s s' : State) (o : Outcome JsValue) :
  _pickAndSendPicture env s = (s', o) →
  (∀ b, o ≠ Resolved (boolean b))
  ∧ (picked (news s s') = None → count is_send (news s s') = 0%nat)
  ∧ if sent_as_file (js "image/") (news s s') then True
    else o = Resolved undefined ∧ reported (news s s') = failures (news s s').
Proof.
  unfold_command. run_cases; finish_cases; done.
Qed.

Lemma pickAndSendVideo_contract (env : Env) (s s' : State) (o : Outcome JsValue) :
  _pickAndSendVideo env s = (s', o) →
  (∀ b, o ≠ Resolved (boolean b))
  ∧ (picked (news s s') = None → count is_send (news s s') = 0%nat)
  ∧ if sent_as_file (js "video/") (news s s') then True
    else o = Resolved undefined
         ∧ reported (news s s') = video_failures (news s s').
Proof.
  unfold_command. run_cases; finish_cases; done.
Qed.

Lemma pickAndSendFile_contract (env : Env) (s s' : State) (o : Outcome JsValue) :
  _pickAndSendFile env s = (s', o) →
  (∀ b, o ≠ Resolved (boolean b))
  ∧ (picked (news s s') = None →
     o = Resolved undefined ∧ count is_send (news s s') = 0%nat).
Proof.
  unfold_command. run_cases; finish_cases; done.
Qed.

(** A picture that cannot be loaded: the error is reported, nothing is
    sent, the command resolves with undefined. *)
Example pickAndSendPicture_example :
  let s := new_RoomViewModel room1 None in
  let '(s', o) := _pickAndSendPicture env_loadImage_fails s in
  o = Resolved undefined ∧ reported (news s s') = [boom]
  ∧ count is_send (news s s') = 0%nat.
Proof. vm_compute. done. Qed.

(** The claim fails on [_pickAndSendFile]: when [openFile] fails, the error
    goes to the console and not to the error-reporting capability, and the
    command resolves with undefined, not with a boolean; when [sendEvent]
    fails, the rejection propagates to the caller; and in an archived room
    the file is sent all the same.  A picture that is sent resolves with
    undefined too. *)
Lemma pick_commands_break_the_contract :
  (let s := new_RoomViewModel room1 None in
   let '(s', o) := _pickAndSendFile env_openFile_fails s in
   o = Resolved undefined ∧ failures (news s s') = [boom]
   ∧ reported (news s s') = [])
  ∧ (let s := new_RoomViewModel room1 None in
     let '(s', o) := _pickAndSendFile env_sendEvent_fails s in
     o = Rejected boom ∧ reported (news s s') = [])
  ∧ (let s := new_RoomViewModel archive1 None in
     let '(s', o) := _pickAndSendFile env_ok s in
     o = Resolved undefined ∧ count is_send (news s s') = 1%nat)
  ∧ (let s := new_RoomViewModel room1 None in
     let '(s', o) := _pickAndSendPicture env_ok s in
     o = Resolved undefined ∧ count is_send (news s s') = 1%nat
     ∧ failures (news s s') = []).
Proof. vm_compute. done. Qed.

(** ** Lists *)

Section lists.
Context {A : Type} `{EqDecision A}.

Lemma elem_of_remove_first (x y : A) (l : list A) :
  y ∈ remove_first x l → y ∈ l.
Proof.
  induction l as [|z l IH]; simpl; [done|]. case_decide.
  - by right.
  - intros [->|Hy]%elem_of_cons; [left|right; by apply IH].
Qed.

Lemma elem_of_remove_first_ne (x y : A) (l : list A) :
  y ≠ x → y ∈ l → y ∈ remove_first x l.
Proof.
  intros Hne. induction l as [|z l IH]; simpl; [done|].
  intros [->|Hy]%elem_of_cons; case_decide; subst; try done.
  - left.
  - right. by apply IH.
Qed.

Lemma NoDup_remove_first (x : A) (l : list A) :
  NoDup l → NoDup (remove_first x l) ∧ x ∉ remove_first x l.
Proof.
  induction 1 as [|y l Hy Hl [IH1 IH2]]; simpl.
  - split; [constructor|]. apply not_elem_of_nil.
  - case_decide as Hxy.
    + subst. done.
    + split.
      * constructor; [|done]. intros Hin. by apply elem_of_remove_first in Hin.
      * apply not_elem_of_cons. done.
Qed.

Lemma filter_remove_first (P : A → Prop) `{∀ x, Decision (P x)} (x : A) (l : list A) :
  P x → filter P (remove_first x l) = remove_first x (filter P l).
Proof.
  intros Hx. induction l as [|y l IH]; simpl; [done|]. case_decide as Hxy.
  - subst. rewrite filter_cons_True by done. simpl. by rewrite decide_True.
  - destruct (decide (P y)) as [Hy|Hy].
    + rewrite !filter_cons_True by done. simpl. rewrite decide_False by done.
      by rewrite IH.
    + rewrite !filter_cons_False by done. done.
Qed.

Lemma tally_app f (l l' : list A) : tally f (l ++ l') = (tally f l + tally f l')%nat.
Proof. unfold tally. by rewrite List.filter_app, length_app. Qed.

Lemma tally_remove_first_false f (x : A) (l : list A) :
  f x = false → tally f (remove_first x l) = tally f l.
Proof.
  intros Hx. unfold tally. induction l as [|y l IH]; simpl; [done|].
  case_decide as Hxy.
  - subst. by rewrite Hx.
  - simpl. destruct (f y); simpl; by rewrite IH.
Qed.

Lemma tally_remove_first_true f (x : A) (l : list A) :
  x ∈ l → f x = true → tally f l = S (tally f (remove_first x l)).
Proof.
  intros Hin Hx. unfold tally. induction l as [|y l IH]; simpl.
  - by apply elem_of_nil in Hin.
  - case_decide as Hxy.
    + subst. by rewrite Hx.
    + apply elem_of_cons in Hin as [?|Hin]; [done|].
      simpl. destruct (f y); simpl; by rewrite IH.
Qed.

Lemma tally_snoc f (l : list A) (x : A) :
  tally f (l ++ [x]) = (tally f l + (if f x then 1 else 0))%nat.
Proof. rewrite tally_app. unfold tally. simpl. by destruct (f x). Qed.

End lists.

(** ** The timeouts of the unread-clear *)

Ltac unfold_M :=
  cbv beta delta [exec resume detached focus load load_resumed dispose _onRoomChange
    onCallPicked _clearUnreadAfterDelay _clearUnreadAfterDelay_elapsed
    _clearUnreadAfterDelay_cleared catch_abort super_dispose disposeTracked
    dispose_obj track new fresh emitChange reportError room_on room_off
    room_release room_clearUnread createTimeout abort suspend log try_catch
    settle bind ret throw get modify] in *.

Lemma Inv_timers_frame (s s' : State) :
  same_timers s s' → Inv_timers s → Inv_timers s'.
Proof.
  intros (Ht & Ha & Hf & Hd & Hl & Hr) [].
  constructor; rewrite ?Ht, ?Ha, ?Hf, ?Hd, ?Hl; assumption.
Qed.

(** What disposing a list of objects does. *)
Lemma dispose_all_spec (l : list Obj) (s : State) :
  ∃ sub, dispose_all l s
         = (set_subscribed sub (set_trace (trace s ++ (Disposed <$> l)) s),
            Resolved tt)
         ∧ (subscribed s = false → sub = false).
Proof.
  revert s. induction l as [|o l IH]; intros s.
  - exists (subscribed s). simpl. unfold ret. rewrite app_nil_r.
    split; [by destruct s|done].
  - simpl. unfold_M.
    destruct o; simpl;
      match goal with |- context [dispose_all l ?s1] =>
        destruct (IH s1) as (sub & -> & Hsub) end;
      exists sub; simpl; rewrite <- app_assoc; simpl;
      (split; [by destruct s|]); intros Hs; apply Hsub; simpl; done.
Qed.

Lemma dispose_effect (s : State) :
  ∃ sub,
    exec dispose s
    = set_clearUnreadTimout None
        (set_timeouts (disposed_timeouts s)
           (set_trace (trace s ++ disposed_trace s)
              (set_listening false
                 (set_isDisposed true
                    (set_subscribed sub (set_disposables [] s)))))).
Proof.
  unfold_M. unfold disposed_trace, disposed_timeouts.
  destruct (dispose_all_spec (reverse (disposables s)) (set_disposables [] s))
    as (sub & -> & _).
  exists sub. simpl.
  destruct (isArchived (_room s)); simpl;
    destruct (_clearUnreadTimout s) as [t|] eqn:Hf; simpl;
    try (destruct (timeouts s !! t) as [[]|]; simpl);
    rewrite <- ?app_assoc; simpl; destruct s; simpl in *; by subst.
Qed.

Lemma lookup_pending_snoc (l : list TimeoutState) (t : nat) :
  (l ++ [Pending]) !! t = Some Pending → l !! t = Some Pending ∨ t = length l.
Proof. rewrite lookup_snoc_Some. intros [[_ ?]|[? _]]; auto. Qed.

Lemma lookup_pending_insert (l : list TimeoutState) (t t' : nat) (x : TimeoutState) :
  x ≠ Pending → <[t := x]> l !! t' = Some Pending → t' ≠ t ∧ l !! t' = Some Pending.
Proof.
  intros Hx. rewrite list_lookup_insert_Some. intros [(_ & ? & _)|[? ?]]; [done|auto].
Qed.

Lemma Inv_timers_new (room : Room) (picked : option Call) :
  Inv_timers (new_RoomViewModel room picked).
Proof.
  unfold new_RoomViewModel, constructor_body, _setupCallViewModel. unfold_M.
  simpl. destruct (isArchived room); simpl; destruct picked; simpl;
    constructor; simpl; try done; unfold tally; simpl; lia.
Qed.

(** Arming the unread-clear before and after [dispose()]. *)
Lemma Inv_timers_arm (s : State) :
  isDisposed s = false → Inv_timers s → Inv_timers (exec focus s).
Proof.
  intros Hd Hinv. unfold_M. simpl.
  destruct (isArchived (_room s)); simpl; [done|].
  destruct (_clearUnreadTimout s) as [t|] eqn:Hf; simpl; [done|].
  assert (∀ t, timeouts s !! t ≠ Some Pending) as Hnone.
  { intros t Ht. apply (it_field _ Hinv Hd) in Ht. congruence. }
  destruct Hinv as [Hu Ho Hl Hfd Hc Hcd Hdp]. constructor; simpl; rewrite ?tally_snoc; simpl; rewrite ?Nat.add_0_r.
  - intros t1 t2 [?| ->]%lookup_pending_snoc [?| ->]%lookup_pending_snoc;
      try done; by exfalso; eapply Hnone.
  - done.
  - done.
  - intros _ t [?| ->]%lookup_pending_snoc; [by exfalso; eapply Hnone|done].
  - done.
  - intros _ Hc1. destruct (Hcd Hd Hc1) as (t & Ht & _). congruence.
  - congruence.
Qed.

Lemma Inv_timers_arm_late (s : State) :
  isDisposed s = true → tally isOpen (awaiting s) = 0%nat →
  (∀ t, timeouts s !! t ≠ Some Pending) →
  Inv_timers s → Inv_timers (exec focus s).
Proof.
  intros Hd Hopen Hnone Hinv. unfold_M. simpl.
  destruct (isArchived (_room s)); simpl; [done|].
  destruct (_clearUnreadTimout s) as [t|] eqn:Hf; simpl; [done|].
  destruct Hinv as [Hu Ho Hl Hfd Hc Hcd Hdp]. constructor; simpl; rewrite ?tally_snoc; simpl; rewrite ?Nat.add_0_r;
    try done; try congruence.
  intros t1 t2 [?| ->]%lookup_pending_snoc [?| ->]%lookup_pending_snoc;
    try done; by exfalso; eapply Hnone.
Qed.

Lemma Inv_timers_dispose (s : State) :
  isDisposed s = false → Inv_timers s → Inv_timers (exec dispose s).
Proof.
  intros Hd Hinv. destruct (dispose_effect s) as [sub ->].
  assert (∀ t, disposed_timeouts s !! t ≠ Some Pending) as Hnone.
  { intros t Ht. unfold disposed_timeouts in Ht.
    pose proof (it_field _ Hinv Hd) as Hfield.
    destruct (_clearUnreadTimout s) as [t0|] eqn:Hf.
    - destruct (timeouts s !! t0) as [[]|] eqn:Ht0.
      + apply lookup_pending_insert in Ht as [Hne Ht]; [|done].
        apply Hfield in Ht. congruence.
      + pose proof (Hfield _ Ht). congruence.
      + pose proof (Hfield _ Ht). congruence.
      + pose proof (Hfield _ Ht). congruence.
    - pose proof (Hfield _ Ht). congruence. }
  destruct Hinv as [Hu Ho Hl Hfd Hc Hcd Hdp]. constructor; simpl; try done.
  - intros t1 t2 Ht1. by apply Hnone in Ht1.
  - intros _ t Ht. by apply Hnone in Ht.
Qed.
Lemma load_resumed_arms (r : Outcome nat) (s : State) :
  ∃ s1, exec (load_resumed r) s = exec focus s1 ∧ same_timers s s1.
Proof.
  destruct r as [timeline|e].
  - set (vm := TimelineViewModel (nextHandle s) timeline).
    exists (set_trace
              ((trace s ++ [Constructed vm]) ++ [EmitChange None (Some "timelineViewModel")])
              (set_timelineVM (Some vm)
                 (set_disposables (disposables s ++ [vm])
                    (set_trace (trace s ++ [Constructed vm])
                       (set_nextHandle (S (nextHandle s))
                          (set_tileOptions (Some timeline) s)))))).
    split; [reflexivity|by repeat split].
  - exists (set_trace (trace s ++ [ReportError e]) s).
    split; [reflexivity|by repeat split].
Qed.

Lemma onCallPicked_same_timers (call : option Call) (s : State) :
  same_timers s (exec (onCallPicked call) s).
Proof.
  unfold_M. simpl.
  repeat (case_match; simplify_eq/=; try by repeat split).
Qed.

Lemma Inv_timers_step (i : Input) (s s' : State) :
  Inv_timers s → step i s = Some s' → Inv_timers s'.
Proof.
  intros Hinv Hstep. destruct i as [| | | |delivered|r|t|t|t r]; simpl in Hstep.
  - (* load() *)
    destruct (isDisposed s) eqn:Hd; [done|]. destruct (loadCalled s) eqn:Hl; [done|].
    injection Hstep as <-. unfold_M. simpl.
    destruct Hinv as [Hu Ho Hlo Hfd Hc Hcd Hdp].
    constructor; simpl; rewrite ?tally_snoc, ?Hlo; simpl; rewrite ?Nat.add_0_r;
      try done; try lia.
    congruence.
  - (* focus() *)
    destruct (isDisposed s) eqn:Hd; [done|]. injection Hstep as <-.
    by apply Inv_timers_arm.
  - (* dispose() *)
    destruct (isDisposed s) eqn:Hd; [done|]. injection Hstep as <-.
    by apply Inv_timers_dispose.
  - (* the room changed *)
    injection Hstep as <-. destruct (listening s); [|done].
    eapply Inv_timers_frame; [|done]. unfold_M. simpl. by repeat split.
  - (* the pick observable delivers *)
    injection Hstep as <-.
    assert (Inv_timers (set_callObservable delivered s)) as Hinv'
      by (eapply Inv_timers_frame; [|done]; by repeat split).
    destruct (subscribed s); [|done].
    eapply Inv_timers_frame; [|done]. apply onCallPicked_same_timers.
  - (* openTimeline() settled *)
    unfold resume in Hstep. case_decide as Hin; [|done]. injection Hstep as <-.
    set (s0 := set_awaiting (remove_first AwaitOpenTimeline (awaiting s)) s).
    pose proof (tally_remove_first_true isOpen _ _ Hin eq_refl) as Hrm.
    assert (tally isOpen (awaiting s0) = 0%nat) as Hopen.
    { pose proof (it_open _ Hinv). simpl. lia. }
    assert (Inv_timers s0) as Hinv0.
    { destruct Hinv as [Hu Ho Hlo Hfd Hc Hcd Hdp]. constructor; simpl; try done.
      - simpl in Hopen. lia.
      - intros Hd. rewrite tally_remove_first_false by done. auto.
      - intros Hd. rewrite tally_remove_first_false by done. auto. }
    destruct (load_resumed_arms r s0) as (s1 & -> & Hframe).
    pose proof (Inv_timers_frame _ _ Hframe Hinv0) as Hinv1.
    destruct Hframe as (Ht & Ha & Hf & Hd & Hl & Hr).
    destruct (isDisposed s1) eqn:Hd1.
    + apply Inv_timers_arm_late; try done.
      * by rewrite Ha.
      * intros t Hp. rewrite Ht in Hp. simpl in Hp.
        assert (isDisposed s = true) as Hds by (symmetry; exact Hd).
        pose proof (it_disposed _ Hinv Hds t Hp) as E. lia.
    + by apply Inv_timers_arm.
  - (* the timeout elapses *)
    destruct (timeouts s !! t) as [[]|] eqn:Ht; try done.
    unfold resume in Hstep. simpl in Hstep. case_decide as Hin; [|done].
    injection Hstep as <-. unfold_M. simpl.
    assert (t < length (timeouts s))%nat as Hlt by by eapply lookup_lt_Some.
    destruct Hinv as [Hu Ho Hlo Hfd Hc Hcd Hdp]. constructor; simpl;
      rewrite ?tally_snoc, ?tally_remove_first_false by done; simpl;
      rewrite ?Nat.add_0_r; try done.
    + intros t1 t2 [_ ?]%lookup_pending_insert [_ ?]%lookup_pending_insert; auto.
    + intros Hd t' [_ ?]%lookup_pending_insert; auto.
    + intros Hd. destruct (decide (1 ≤ tally isClear (awaiting s))%nat) as [Hc1|Hc1].
      * destruct (Hcd Hd Hc1) as (t' & Hf & Ht').
        rewrite (Hfd Hd t Ht) in Hf. injection Hf as <-. congruence.
      * lia.
    + intros Hd _. exists t. split; [by apply Hfd|].
      by apply list_lookup_insert_eq.
    + intros Hd t' [_ ?]%lookup_pending_insert; eauto.
  - (* the abort is observed *)
    destruct (timeouts s !! t) as [[]|] eqn:Ht; try done.
    unfold resume in Hstep. case_decide as Hin; [|done].
    injection Hstep as <-. unfold_M. simpl.
    destruct Hinv as [Hu Ho Hlo Hfd Hc Hcd Hdp]. constructor; simpl;
      rewrite ?tally_remove_first_false by done; done.
  - (* clearUnread() settled *)
    unfold resume in Hstep. case_decide as Hin; [|done]. injection Hstep as <-.
    pose proof (tally_remove_first_true isClear _ _ Hin eq_refl) as Hrm.
    unfold_M. destruct r as [[]|e]; simpl.
    + destruct Hinv as [Hu Ho Hlo Hfd Hc Hcd Hdp]. constructor; simpl;
        rewrite ?tally_remove_first_false by done; try done.
      * intros Hd t' Ht'. exfalso.
        destruct (Hcd Hd) as (t0 & Hf & Ht0); [lia|].
        rewrite (Hfd Hd t' Ht') in Hf. injection Hf as <-. congruence.
      * intros Hd. specialize (Hc Hd). lia.
      * intros Hd. specialize (Hc Hd). lia.
    + case_bool_decide; simpl; destruct Hinv as [Hu Ho Hlo Hfd Hc Hcd Hdp];
        constructor; simpl;
        rewrite ?tally_remove_first_false by done; try done;
        try (intros Hd; specialize (Hc Hd); lia).
Qed.

Lemma steps_invariant (I : State → Prop) :
  (∀ i s s', I s → step i s = Some s' → I s') →
  ∀ inputs s s', I s → steps inputs s = Some s' → I s'.
Proof.
  intros Hstep inputs. induction inputs as [|i inputs IH]; simpl; intros s s' Hs Hrun.
  - by injection Hrun as <-.
  - destruct (step i s) as [s1|] eqn:Hi; [|done]. eapply IH; [|done]. by eapply Hstep.
Qed.

(** ** The objects of the view model *)

Lemma count_app f (tr ext : list Event) :
  count f (tr ++ ext) = (count f tr + count f ext)%nat.
Proof. unfold count. by rewrite List.filter_app, length_app. Qed.

Lemma disposals_app o (tr ext : list Event) :
  disposals o (tr ++ ext) = (disposals o tr + disposals o ext)%nat.
Proof. apply count_app. Qed.

Lemma disposals_quiet o (ext : list Event) :
  forallb quiet ext = true → disposals o ext = 0%nat.
Proof.
  induction ext as [|ev ext IH]; simpl; [done|].
  intros [Hev Hext]%andb_true_iff. unfold disposals, count in *. simpl.
  destruct ev; simpl in *; try done; by apply IH.
Qed.

Lemma disposals_absent o (tr : list Event) :
  Disposed o ∉ tr → disposals o tr = 0%nat.
Proof.
  induction tr as [|ev tr IH]; [done|]. intros [Hne Hin]%not_elem_of_cons.
  unfold disposals, count in *. simpl.
  destruct ev; simpl; try by apply IH. case_bool_decide; [by subst|by apply IH].
Qed.

Lemma disposals_cons o ev (tr : list Event) :
  disposals o (ev :: tr) = ((if is_disposal o ev then 1 else 0) + disposals o tr)%nat.
Proof. unfold disposals, count. simpl. by destruct (is_disposal o ev). Qed.

Lemma disposals_fmap o (l : list Obj) :
  NoDup l → disposals o (Disposed <$> l) = if decide (o ∈ l) then 1%nat else 0%nat.
Proof.
  induction 1 as [|x l Hx Hl IH]; [done|].
  rewrite fmap_cons, disposals_cons, IH. simpl. case_bool_decide as Hxo.
  - subst x. rewrite decide_False by done. rewrite decide_True by left. done.
  - destruct (decide (o ∈ l)) as [Hin|Hin].
    + rewrite decide_True by by right. done.
    + rewrite decide_False; [done|]. intros [?|?]%elem_of_cons; congruence.
Qed.

Lemma elem_of_quiet ev (tr ext : list Event) :
  forallb quiet ext = true → quiet ev = false → ev ∈ tr ++ ext → ev ∈ tr.
Proof.
  intros Hq Hev [?|Hin]%elem_of_app; [done|]. exfalso.
  rewrite forallb_forall in Hq. apply list_elem_of_In, Hq in Hin. congruence.
Qed.

Lemma Track_quiet tr ds next ext :
  forallb quiet ext = true → Track tr ds next → Track (tr ++ ext) ds next.
Proof.
  intros Hq []. constructor; try done.
  - intros o Ho. destruct (tk_tracked0 o Ho) as (? & ? & ?).
    rewrite disposals_app, (disposals_quiet _ ext) by done.
    split; [done|]. split; [lia|]. apply elem_of_app. by left.
  - intros o [H|H]; apply tk_fresh0; [left|right]; by eapply elem_of_quiet.
  - intros o Hc Ht Hn. rewrite disposals_app, (disposals_quiet _ ext) by done.
    rewrite tk_gone0; try done. by eapply elem_of_quiet.
  - intros o Ho. rewrite disposals_app, (disposals_quiet _ ext) by done. by rewrite tk_composer0.
Qed.

Lemma Track_new tr ds next o :
  trackable o = true → obj_handle o = next →
  Track tr ds next → Track (tr ++ [Constructed o]) (ds ++ [o]) (S next).
Proof.
  intros Ho Hh []. 
  assert ((Constructed o ∉ tr) ∧ (Disposed o ∉ tr)) as [Hnc Hnd].
  { split; intros Hin.
    - assert (obj_handle o < next)%nat by (apply tk_fresh0; left; done). lia.
    - assert (obj_handle o < next)%nat by (apply tk_fresh0; right; done). lia. }
  assert (o ∉ ds) as Hnot.
  { intros Hin. by destruct (tk_tracked0 o Hin) as (_ & _ & ?). }
  assert (∀ o', disposals o' (tr ++ [Constructed o]) = disposals o' tr) as Hd.
  { intros o'. rewrite disposals_app. unfold disposals at 2, count. simpl. lia. }
  constructor.
  - apply NoDup_app. split; [done|]. split; [|apply NoDup_singleton].
    intros x Hx ->%list_elem_of_singleton. done.
  - intros o' [Ho'| ->%list_elem_of_singleton]%elem_of_app; rewrite Hd.
    + destruct (tk_tracked0 o' Ho') as (? & ? & ?). repeat split; try done.
      apply elem_of_app. by left.
    + repeat split; [done|by apply disposals_absent|].
      apply elem_of_app. right. left.
  - intros o' [[H|H%list_elem_of_singleton]%elem_of_app|[H|H%list_elem_of_singleton]%elem_of_app];
      try done.
    + assert (obj_handle o' < next)%nat by (apply tk_fresh0; by left). lia.
    + injection H as ->. lia.
    + assert (obj_handle o' < next)%nat by (apply tk_fresh0; by right). lia.
  - intros o' [H|H%list_elem_of_singleton]%elem_of_app Ht Hn; rewrite Hd.
    + apply tk_gone0; try done. intros Hin. apply Hn, elem_of_app. by left.
    + injection H as ->. exfalso. apply Hn, elem_of_app. right. left.
  - intros o' Ho'. rewrite Hd. by apply tk_composer0.
Qed.

Lemma Track_dispose tr ds next o :
  o ∈ ds → Track tr ds next → Track (tr ++ [Disposed o]) (remove_first o ds) next.
Proof.
  intros Hin []. destruct (tk_tracked0 o Hin) as (Ht & Hd0 & Hc).
  destruct (NoDup_remove_first o ds tk_nodup0) as [Hnd Hgone].
  assert (∀ o', disposals o' (tr ++ [Disposed o])
                = (disposals o' tr + if decide (o' = o) then 1 else 0)%nat) as Hd.
  { intros o'. rewrite disposals_app. unfold disposals at 2, count. simpl.
    case_bool_decide; case_decide; try done; congruence. }
  constructor; try done.
  - intros o' Ho'. assert (o' ≠ o) by (intros ->; done).
    apply elem_of_remove_first in Ho'. destruct (tk_tracked0 o' Ho') as (? & ? & ?).
    rewrite Hd, decide_False by done. repeat split; try done; [lia|].
    apply elem_of_app. by left.
  - intros o' [[H|H%list_elem_of_singleton]%elem_of_app|[H|H%list_elem_of_singleton]%elem_of_app];
      try done.
    + apply tk_fresh0. by left.
    + apply tk_fresh0. by right.
    + injection H as ->. apply tk_fresh0. by left.
  - intros o' [H|H%list_elem_of_singleton]%elem_of_app Ht' Hn; [|done]. rewrite Hd.
    case_decide as Ho'.
    + subst o'. lia.
    + rewrite tk_gone0; [lia|done|done|].
      intros Hin'. by apply Hn, elem_of_remove_first_ne.
  - intros o' Ho'. rewrite Hd, decide_False by congruence. rewrite tk_composer0 by done. done.
Qed.

Lemma Track_dispose_all tr ds next :
  Track tr ds next → Track (tr ++ (Disposed <$> reverse ds)) [] next.
Proof.
  intros []. assert (NoDup (reverse ds)) as Hnd by by rewrite reverse_Permutation.
  assert (∀ o, disposals o (tr ++ (Disposed <$> reverse ds))
               = (disposals o tr + if decide (o ∈ ds) then 1 else 0)%nat) as Hd.
  { intros o. rewrite disposals_app, disposals_fmap by done.
    destruct (decide (o ∈ ds)) as [Hin|Hin].
    - rewrite decide_True by by apply elem_of_reverse. done.
    - rewrite decide_False; [done|]. by rewrite elem_of_reverse. }
  assert (∀ ev, quiet ev = false → ev ∈ tr ++ (Disposed <$> reverse ds) →
                ev ∈ tr ∨ ∃ o, ev = Disposed o ∧ o ∈ ds) as Hin.
  { intros ev _ [?|Hin]%elem_of_app; [by left|right].
    apply list_elem_of_fmap in Hin as (o & -> & Ho). exists o.
    by rewrite elem_of_reverse in Ho. }
  constructor.
  - constructor.
  - intros o Ho. by apply elem_of_nil in Ho.
  - intros o [H|H]; apply Hin in H; try done.
    + destruct H as [H|(o' & [=] & _)]. apply tk_fresh0. by left.
    + destruct H as [H|(o' & [= <-] & Ho)]; [apply tk_fresh0; by right|].
      destruct (tk_tracked0 o Ho) as (_ & _ & ?). apply tk_fresh0. by left.
  - intros o Hc Ht _. apply Hin in Hc as [Hc|(o' & [=] & _)]; [|done].
    rewrite Hd. case_decide as Ho.
    + destruct (tk_tracked0 o Ho) as (_ & -> & _). done.
    + rewrite tk_gone0 by done. lia.
  - intros o Ho. rewrite Hd, tk_composer0 by done. case_decide as Hin'; [|done].
    destruct (tk_tracked0 o Hin') as (? & _). congruence.
Qed.

Lemma alive_app (tr ext : list Event) :
  alive (tr ++ ext) = foldl alive_step (alive tr) ext.
Proof. unfold alive. by rewrite foldl_app. Qed.

Lemma calm_app (live : list Obj) (tr ext : list Event) :
  calm live tr → calm (foldl alive_step live tr) ext → calm live (tr ++ ext).
Proof.
  intros Htr Hext n. rewrite take_app, foldl_app.
  destruct (decide (n ≤ length tr)%nat) as [Hn|Hn].
  - replace (n - length tr)%nat with 0%nat by lia. rewrite take_0. simpl. apply Htr.
  - rewrite take_ge by lia. apply Hext.
Qed.

Lemma calm_nil (live : list Obj) : (length live ≤ 1)%nat → calm live [].
Proof. intros Hl n. by rewrite take_nil. Qed.

Lemma calm_cons (live : list Obj) (ev : Event) (tr : list Event) :
  (length live ≤ 1)%nat → calm (alive_step live ev) tr → calm live (ev :: tr).
Proof. intros Hl Htr [|n]; simpl; [done|apply Htr]. Qed.

Lemma calm_length (live : list Obj) (tr : list Event) :
  calm live tr → (length (foldl alive_step live tr) ≤ 1)%nat.
Proof. intros H. specialize (H (length tr)). by rewrite take_ge in H. Qed.

Lemma foldl_quiet (live : list Obj) (ext : list Event) :
  forallb quiet ext = true → foldl alive_step live ext = live.
Proof.
  revert live. induction ext as [|ev ext IH]; intros live; simpl; [done|].
  intros [Hev Hext]%andb_true_iff. rewrite <- (IH live Hext) at 2.
  by destruct ev.
Qed.

Lemma forallb_take (f : Event → bool) (n : nat) (l : list Event) :
  forallb f l = true → forallb f (take n l) = true.
Proof.
  revert n. induction l as [|x l IH]; intros [|n]; simpl; try done.
  intros [? ?]%andb_true_iff. apply andb_true_iff. split; [done|by apply IH].
Qed.

Lemma calm_quiet (live : list Obj) (ext : list Event) :
  (length live ≤ 1)%nat → forallb quiet ext = true → calm live ext.
Proof. intros Hl Hq n. rewrite foldl_quiet; [done|]. by apply forallb_take. Qed.

Lemma length_remove_first (x : Obj) (l : list Obj) :
  (length (remove_first x l) ≤ length l)%nat.
Proof. induction l as [|y l IH]; simpl; [done|]. case_decide; simpl; lia. Qed.

Lemma foldl_disposed_length (live l : list Obj) :
  (length (foldl alive_step live (Disposed <$> l)) ≤ length live)%nat.
Proof.
  revert live. induction l as [|x l IH]; intros live; simpl; [done|].
  etrans; [apply IH|]. apply length_remove_first.
Qed.

Lemma calm_disposed (live l : list Obj) :
  (length live ≤ 1)%nat → calm live (Disposed <$> l).
Proof.
  intros Hl n. rewrite <- fmap_take. etrans; [apply foldl_disposed_length|done].
Qed.

Lemma foldl_disposed_nil (l : list Obj) : foldl alive_step [] (Disposed <$> l) = [].
Proof. induction l as [|x l IH]; simpl; done. Qed.

Lemma foldl_disposed_one (vm : Obj) (l : list Obj) :
  vm ∈ l → foldl alive_step [vm] (Disposed <$> l) = [].
Proof.
  induction l as [|x l IH]; simpl.
  - by intros ?%elem_of_nil.
  - intros Hin. case_decide as Hx.
    + apply foldl_disposed_nil.
    + apply IH. apply elem_of_cons in Hin as [?|?]; [congruence|done].
Qed.

Lemma filter_call_snoc_other (ds : list Obj) (o : Obj) :
  isCallViewModel o = false →
  filter isCallViewModel (ds ++ [o]) = filter isCallViewModel ds.
Proof.
  intros Ho. rewrite filter_app, filter_cons, filter_nil, Ho. simpl.
  by rewrite app_nil_r.
Qed.

Lemma filter_call_snoc_call (ds : list Obj) (h : nat) (c : Call) :
  filter isCallViewModel (ds ++ [CallViewModel h c])
  = filter isCallViewModel ds ++ [CallViewModel h c].
Proof. by rewrite filter_app, filter_cons, filter_nil. Qed.

Lemma elem_of_filter_call (ds : list Obj) (vm : Obj) :
  vm ∈ filter isCallViewModel ds ↔ isCallViewModel vm = true ∧ vm ∈ ds.
Proof. rewrite list_elem_of_filter, Is_true_true. done. Qed.

Lemma Calls_quiet tr ds field ext :
  forallb quiet ext = true → Calls tr ds field → Calls (tr ++ ext) ds field.
Proof.
  intros Hq []. constructor; try done.
  - apply calm_app; [done|]. apply calm_quiet; [|done]. by apply calm_length.
  - rewrite alive_app, foldl_quiet by done. done.
Qed.

Lemma Calls_new_other tr ds field o :
  isCallViewModel o = false → Calls tr ds field →
  Calls (tr ++ [Constructed o]) (ds ++ [o]) field.
Proof.
  intros Ho [].
  assert (filter isCallViewModel (ds ++ [o]) = filter isCallViewModel ds) as Hf.
  { by apply filter_call_snoc_other. }
  constructor; rewrite ?Hf; try done.
  - apply calm_app; [done|]. apply calm_cons; [by apply calm_length|].
    simpl. rewrite Ho. apply calm_nil. by apply calm_length.
  - rewrite alive_app. simpl. by rewrite Ho.
Qed.

Lemma Calls_untracked tr ds field :
  (∀ vm, field = Some vm → vm ∉ ds) → Calls tr ds field →
  filter isCallViewModel ds = [].
Proof.
  intros Hno []. destruct cl_one0 as [?|(vm & Hf & Hvm)]; [done|]. exfalso.
  apply (Hno vm Hvm). assert (vm ∈ filter isCallViewModel ds) as Hin by (rewrite Hf; left).
  by apply elem_of_filter_call in Hin as [_ ?].
Qed.

Lemma Calls_set_none tr ds field :
  filter isCallViewModel ds = [] → Calls tr ds field → Calls tr ds None.
Proof. intros Hf []. constructor; try done. by left. Qed.

Lemma Calls_dispose_current tr ds vm :
  vm ∈ ds → Calls tr ds (Some vm) →
  Calls (tr ++ [Disposed vm]) (remove_first vm ds) None.
Proof.
  intros Hin []. pose proof (cl_field0 vm eq_refl) as Hvm.
  assert (filter isCallViewModel ds = [vm]) as Hf.
  { destruct cl_one0 as [Hf|(vm' & Hf & [= <-])]; [|done].
    assert (vm ∈ filter isCallViewModel ds) as Hin' by by apply elem_of_filter_call.
    rewrite Hf in Hin'. by apply elem_of_nil in Hin'. }
  assert (filter isCallViewModel (remove_first vm ds) = []) as Hf'.
  { rewrite filter_remove_first by (by rewrite Hvm). rewrite Hf. simpl.
    by rewrite decide_True. }
  constructor; rewrite ?Hf'; try done.
  - apply calm_app; [done|]. apply calm_cons; [by apply calm_length|].
    apply calm_nil. simpl. etrans; [apply length_remove_first|by apply calm_length].
  - rewrite alive_app, cl_alive0, Hf. simpl. by rewrite decide_True.
  - by left.
Qed.

Lemma Calls_new_call tr ds field h c :
  filter isCallViewModel ds = [] → Calls tr ds field →
  Calls (tr ++ [Constructed (CallViewModel h c)]) (ds ++ [CallViewModel h c])
        (Some (CallViewModel h c)).
Proof.
  intros Hf [].
  assert (filter isCallViewModel (ds ++ [CallViewModel h c]) = [CallViewModel h c]) as Hf'.
  { by rewrite filter_call_snoc_call, Hf. }
  constructor; rewrite ?Hf'.
  - apply calm_app; [done|]. fold (alive tr). rewrite cl_alive0, Hf.
    apply calm_cons; [simpl; lia|]. apply calm_nil. simpl. lia.
  - rewrite alive_app, cl_alive0, Hf. done.
  - by intros vm [= <-].
  - right. by eexists.
Qed.

Lemma Calls_dispose_all tr ds field :
  (∀ vm, field = Some vm → isCallViewModel vm = true) →
  Calls tr ds field → Calls (tr ++ (Disposed <$> reverse ds)) [] field.
Proof.
  intros Hfield []. constructor; try done.
  - apply calm_app; [done|]. apply calm_disposed. by apply calm_length.
  - rewrite alive_app, cl_alive0. rewrite filter_nil.
    destruct cl_one0 as [->|(vm & Hf & _)]; [apply foldl_disposed_nil|].
    rewrite Hf. apply foldl_disposed_one. apply elem_of_reverse.
    assert (vm ∈ filter isCallViewModel ds) as Hin by (rewrite Hf; left).
    by apply elem_of_filter_call in Hin as [_ ?].
  - left. apply filter_nil.
Qed.

Lemma load_resumed_eq (r : Outcome nat) (s : State) :
  exec (load_resumed r) s = exec focus (attached r s).
Proof. by destruct r. Qed.

Lemma Inv_objects_quiet (s s' : State) :
  quiet_frame s s' → Inv_objects s → Inv_objects s'.
Proof.
  intros (ext & Ht & Hq & Hds & Hn & Htl & Hc & Hco & Hd) [].
  constructor; rewrite ?Ht, ?Hds, ?Hn, ?Htl, ?Hc, ?Hco, ?Hd.
  - by apply Track_quiet.
  - by apply Calls_quiet.
  - done.
  - done.
  - destruct io_composer0 as (o & ? & ? & ?). exists o. repeat split; try done.
    apply elem_of_app. by left.
Qed.

Ltac quiet_frame_tac :=
  first
    [ exists []; rewrite app_nil_r; by repeat split
    | eexists; split; [simpl; rewrite <- ?app_assoc; reflexivity|]; by repeat split ].

Lemma focus_quiet (s : State) : quiet_frame s (exec focus s).
Proof.
  unfold_M. simpl. destruct (isArchived (_room s)); simpl; [quiet_frame_tac|].
  destruct (_clearUnreadTimout s); simpl; quiet_frame_tac.
Qed.

Lemma Track_new_untracked tr ds next o :
  trackable o = false → obj_handle o = next →
  Track tr ds next → Track (tr ++ [Constructed o]) ds (S next).
Proof.
  intros Ho Hh [].
  assert (∀ o', disposals o' (tr ++ [Constructed o]) = disposals o' tr) as Hd.
  { intros o'. rewrite disposals_app. unfold disposals at 2, count. simpl. lia. }
  constructor; try done.
  - intros o' Ho'. destruct (tk_tracked0 o' Ho') as (? & ? & ?). rewrite Hd.
    repeat split; try done. apply elem_of_app. by left.
  - intros o' [[H|H%list_elem_of_singleton]%elem_of_app|[H|H%list_elem_of_singleton]%elem_of_app];
      try done.
    + assert (obj_handle o' < next)%nat by (apply tk_fresh0; by left). lia.
    + injection H as ->. lia.
    + assert (obj_handle o' < next)%nat by (apply tk_fresh0; by right). lia.
  - intros o' [H|H%list_elem_of_singleton]%elem_of_app Ht Hn; rewrite Hd.
    + by apply tk_gone0.
    + injection H as ->. congruence.
  - intros o' Ho'. rewrite Hd. by apply tk_composer0.
Qed.

Lemma Calls_new_untracked tr ds field o :
  isCallViewModel o = false → Calls tr ds field →
  Calls (tr ++ [Constructed o]) ds field.
Proof.
  intros Ho []. constructor; try done.
  - apply calm_app; [done|]. apply calm_cons; [by apply calm_length|].
    simpl. rewrite Ho. apply calm_nil. by apply calm_length.
  - rewrite alive_app. simpl. by rewrite Ho.
Qed.

Lemma Track_nil : Track [] [] 0.
Proof.
  constructor; try done.
  - constructor.
  - intros o Ho. by apply elem_of_nil in Ho.
  - intros o [Ho|Ho]; by apply elem_of_nil in Ho.
  - intros o Ho. by apply elem_of_nil in Ho.
Qed.

Lemma Calls_nil : Calls [] [] None.
Proof.
  constructor; try done.
  - apply calm_nil. simpl. lia.
  - by left.
Qed.

Lemma Inv_objects_new (room : Room) (picked : option Call) :
  Inv_objects (new_RoomViewModel room picked).
Proof.
  unfold new_RoomViewModel, constructor_body, _setupCallViewModel. unfold_M. simpl.
  set (composer := if isArchived room then ArchivedViewModel 0 else ComposerViewModel 0).
  assert (trackable composer = false ∧ obj_handle composer = 0%nat
          ∧ isCallViewModel composer = false) as (Hc1 & Hc2 & Hc3)
    by (unfold composer; by destruct (isArchived room)).
  pose proof (Track_new _ _ _ (CallSubscription 1) eq_refl eq_refl
                (Track_new_untracked _ _ _ composer Hc1 Hc2 Track_nil)) as Ht.
  pose proof (Calls_new_other _ _ _ (CallSubscription 1) eq_refl
                (Calls_new_untracked _ _ _ composer Hc3 Calls_nil)) as Hc.
  simpl in Ht, Hc.
  destruct picked as [c|].
  - pose proof (Track_new _ _ _ (CallViewModel 2 c) eq_refl eq_refl Ht) as Ht'.
    pose proof (Calls_new_call _ [CallSubscription 1] _ 2%nat c eq_refl Hc) as Hc'.
    unfold composer in *. destruct (isArchived room); simpl in *;
      (constructor; simpl; [exact Ht'|exact Hc'|done| |]);
      [intros o [= <-] _; set_solver | eexists; repeat split; set_solver
      |intros o [= <-] _; set_solver | eexists; repeat split; set_solver].
  - unfold composer in *. destruct (isArchived room); simpl in *;
      (constructor; simpl; [exact Ht|exact Hc|done|done|]);
      eexists; repeat split; set_solver.
Qed.

Lemma Inv_objects_attached (r : Outcome nat) (s : State) :
  Inv_objects s → Inv_objects (attached r s).
Proof.
  intros Hinv. destruct r as [timeline|e]; simpl.
  - destruct Hinv. constructor; simpl.
    + apply Track_quiet; [done|]. by apply Track_new.
    + apply Calls_quiet; [done|]. by apply Calls_new_other.
    + intros o [= <-]. split; [done|]. intros _. apply elem_of_app. right. left.
    + intros o Ho Hd. apply elem_of_app. left. by apply io_call0.
    + destruct io_composer0 as (o & ? & ? & ?). exists o. repeat split; try done.
      rewrite <- app_assoc. apply elem_of_app. by left.
  - eapply Inv_objects_quiet; [|done]. quiet_frame_tac.
Qed.

Lemma Inv_objects_dispose (s : State) :
  Inv_objects s → Inv_objects (exec dispose s).
Proof.
  intros []. destruct (dispose_effect s) as [sub ->]. unfold disposed_trace.
  assert (forallb quiet
            ([RoomOff "change"] ++ (if isArchived (_room s) then [RoomRelease] else [])
             ++ match _clearUnreadTimout s with
                | Some t => [TimeoutAbort t]
                | None => []
                end) = true) as Hq
    by (by destruct (isArchived (_room s)), (_clearUnreadTimout s)).
  constructor; simpl; rewrite ?app_assoc; rewrite <- ?(app_assoc _ [RoomOff _]).
  - apply Track_quiet; [done|]. by apply Track_dispose_all.
  - apply Calls_quiet; [done|]. apply Calls_dispose_all; [|done]. by destruct io_calls0.
  - intros o Ho. split; [|done]. by apply io_timeline0.
  - done.
  - destruct io_composer0 as (o & ? & ? & ?). exists o. repeat split; try done.
    rewrite <- !app_assoc. apply elem_of_app. by left.
Qed.

Lemma Inv_objects_onCallPicked (call : option Call) (s : State) :
  Inv_objects s → Inv_objects (exec (onCallPicked call) s).
Proof.
  intros Hinv. unfold_M. simpl.
  destruct (match call with
            | Some call0 =>
                match _callViewModel s with
                | Some vm => bool_decide (Some (call_id call0) = vm_id vm)
                | None => false
                end
            | None => false
            end) eqn:Hsame; simpl; [done|].
  destruct Hinv as [Htrack Hcalls Htl Hcall Hcomp].
  assert (∀ ext, ∃ o, _composerVM s = Some o ∧ trackable o = false
                      ∧ Constructed o ∈ trace s ++ ext) as Hcomp'.
  { intros ext. destruct Hcomp as (o & ? & ? & ?). exists o. repeat split; try done.
    apply elem_of_app. by left. }
  destruct (_callViewModel s) as [vm|] eqn:Hvm; simpl.
  - pose proof (cl_field _ _ _ Hcalls vm eq_refl) as Hkind.
    destruct (decide (vm ∈ disposables s)) as [Hin|Hin]; simpl.
    + (* the active call view model is disposed *)
      pose proof (Track_dispose _ _ _ vm Hin Htrack) as Htrack'.
      pose proof (Calls_dispose_current _ _ vm Hin Hcalls) as Hcalls'.
      assert (filter isCallViewModel (remove_first vm (disposables s)) = []) as Hnone.
      { destruct Hcalls' as [_ _ _ [?|(vm' & _ & [=])]]. done. }
      assert (∀ o, _timelineVM s = Some o →
                   isDisposed s = false → o ∈ remove_first vm (disposables s)) as Htl'.
      { intros o Ho Hd. destruct (Htl o Ho) as [Hk Hmem].
        apply elem_of_remove_first_ne; [congruence|by apply Hmem]. }
      destruct vm; try done; simpl; destruct call as [c|]; simpl; constructor; simpl;
        try (by rewrite <- ?app_assoc; apply Hcomp').
      * apply Track_quiet; [done|]. by apply Track_new.
      * apply Calls_quiet; [done|].
        by eapply Calls_new_call.
      * intros o Ho. split; [by apply Htl|]. intros Hd. apply elem_of_app. left.
        by apply Htl'.
      * intros o [= <-] _. apply elem_of_app. right. left.
      * by apply Track_quiet.
      * by apply Calls_quiet.
      * intros o Ho. split; [by apply Htl|]. by apply Htl'.
      * done.
    + (* it is not tracked any more *)
      assert (filter isCallViewModel (disposables s) = []) as Hnone.
      { eapply Calls_untracked; [|done]. by intros vm' [= <-]. }
      pose proof (Calls_set_none _ _ _ Hnone Hcalls) as Hcalls'.
      destruct call as [c|]; simpl; constructor; simpl;
        try (by rewrite <- ?app_assoc; apply Hcomp').
      * apply Track_quiet; [done|]. by apply Track_new.
      * apply Calls_quiet; [done|].
        by eapply Calls_new_call.
      * intros o Ho. split; [by apply Htl|]. intros Hd. apply elem_of_app. left.
        by apply Htl.
      * intros o [= <-] _. apply elem_of_app. right. left.
      * by apply Track_quiet.
      * by apply Calls_quiet.
      * done.
      * done.
  - assert (filter isCallViewModel (disposables s) = []) as Hnone.
    { eapply Calls_untracked; [|done]. done. }
    destruct call as [c|]; simpl; constructor; simpl;
      try (by rewrite <- ?app_assoc; apply Hcomp').
    * apply Track_quiet; [done|]. by apply Track_new.
    * apply Calls_quiet; [done|].
      by eapply Calls_new_call.
    * intros o Ho. split; [by apply Htl|]. intros Hd. apply elem_of_app. left.
      by apply Htl.
    * intros o [= <-] _. apply elem_of_app. right. left.
    * by apply Track_quiet.
    * by apply Calls_quiet.
    * done.
    * done.
Qed.

Lemma Inv_objects_step (i : Input) (s s' : State) :
  Inv_objects s → step i s = Some s' → Inv_objects s'.
Proof.
  intros Hinv Hstep. destruct i as [| | | |delivered|r|t|t|t r]; simpl in Hstep.
  - destruct (isDisposed s || loadCalled s); [done|]. injection Hstep as <-.
    eapply Inv_objects_quiet; [|done]. unfold_M. simpl. quiet_frame_tac.
  - destruct (isDisposed s); [done|]. injection Hstep as <-.
    eapply Inv_objects_quiet; [|done]. apply focus_quiet.
  - destruct (isDisposed s); [done|]. injection Hstep as <-.
    by apply Inv_objects_dispose.
  - injection Hstep as <-. destruct (listening s); [|done].
    eapply Inv_objects_quiet; [|done]. unfold_M. simpl. quiet_frame_tac.
  - injection Hstep as <-.
    assert (Inv_objects (set_callObservable delivered s)) as Hinv'
      by (eapply Inv_objects_quiet; [|done]; quiet_frame_tac).
    destruct (subscribed s); [|done]. by apply Inv_objects_onCallPicked.
  - unfold resume in Hstep. case_decide; [|done]. injection Hstep as <-.
    rewrite load_resumed_eq. eapply Inv_objects_quiet; [apply focus_quiet|].
    apply Inv_objects_attached. eapply Inv_objects_quiet; [|done]. quiet_frame_tac.
  - destruct (timeouts s !! t) as [[]|]; try done.
    unfold resume in Hstep. simpl in Hstep. case_decide; [|done]. injection Hstep as <-.
    eapply Inv_objects_quiet; [|done]. unfold_M. simpl. quiet_frame_tac.
  - destruct (timeouts s !! t) as [[]|]; try done.
    unfold resume in Hstep. case_decide; [|done]. injection Hstep as <-.
    eapply Inv_objects_quiet; [|done]. unfold_M. simpl. quiet_frame_tac.
  - unfold resume in Hstep. case_decide; [|done]. injection Hstep as <-.
    eapply Inv_objects_quiet; [|done]. unfold_M.
    destruct r as [[]|e]; simpl; [quiet_frame_tac|].
    case_bool_decide; simpl; quiet_frame_tac.
Qed.

Lemma reachable_objects (room : Room) (picked : option Call) (inputs : list Input)
    (s : State) :
  steps inputs (new_RoomViewModel room picked) = Some s → Inv_objects s.
Proof.
  apply steps_invariant; [apply Inv_objects_step|apply Inv_objects_new].
Qed.

Lemma reachable_timers (room : Room) (picked : option Call) (inputs : list Input)
    (s : State) :
  steps inputs (new_RoomViewModel room picked) = Some s → Inv_timers s.
Proof.
  apply steps_invariant; [apply Inv_timers_step|apply Inv_timers_new].
Qed.

Lemma tally_elem_of (f : Await → bool) (a : Await) (l : list Await) :
  a ∈ l → f a = true → (1 ≤ tally f l)%nat.
Proof.
  intros Hin Hf. rewrite (tally_remove_first_true f a l Hin Hf). lia.
Qed.

Lemma Inv_load_new (room : Room) (picked : option Call) :
  Inv_load (new_RoomViewModel room picked).
Proof.
  unfold new_RoomViewModel, constructor_body, _setupCallViewModel. unfold_M. simpl.
  by destruct (isArchived room), picked.
Qed.

Lemma onCallPicked_keeps_load (call : option Call) (s : State) :
  let s' := exec (onCallPicked call) s in
  loadCalled s' = loadCalled s ∧ awaiting s' = awaiting s
  ∧ _timelineVM s' = _timelineVM s.
Proof.
  unfold_M. simpl. repeat (case_match; simplify_eq/=; try done).
Qed.

Lemma Inv_load_step (i : Input) (s s' : State) :
  Inv_timers s → Inv_load s → step i s = Some s' → Inv_load s'.
Proof.
  intros Htim [Hnot Hopen] Hstep.
  destruct i as [| | | |delivered|r|t|t|t r]; simpl in Hstep.
  - destruct (isDisposed s); [done|]. destruct (loadCalled s) eqn:Hl; [done|].
    injection Hstep as <-. unfold_M. simpl. split; [done|auto].
  - destruct (isDisposed s); [done|]. injection Hstep as <-. unfold_M. simpl.
    destruct (isArchived (_room s)); simpl; [done|].
    destruct (_clearUnreadTimout s); simpl; [done|]. split; [done|].
    intros [?|[=]%list_elem_of_singleton]%elem_of_app. auto.
  - destruct (isDisposed s); [done|]. injection Hstep as <-.
    destruct (dispose_effect s) as [sub ->]. done.
  - injection Hstep as <-. destruct (listening s); [|done]. unfold_M. by simpl.
  - injection Hstep as <-. destruct (subscribed s); [|done].
    destruct (onCallPicked_keeps_load delivered (set_callObservable delivered s))
      as (Hl & Ha & Ht).
    unfold Inv_load. rewrite Hl, Ha, Ht. done.
  - unfold resume in Hstep. case_decide as Hin; [|done]. injection Hstep as <-.
    assert (loadCalled s = true) as Hl.
    { destruct (loadCalled s) eqn:Hl; [done|].
      pose proof (it_load _ Htim Hl). pose proof (tally_elem_of isOpen _ _ Hin eq_refl).
      lia. }
    assert (AwaitOpenTimeline ∉ remove_first AwaitOpenTimeline (awaiting s)) as Hgone.
    { intros Hin'. pose proof (tally_remove_first_true isOpen _ _ Hin eq_refl).
      pose proof (tally_elem_of isOpen _ _ Hin' eq_refl). pose proof (it_open _ Htim).
      lia. }
    rewrite load_resumed_eq. unfold_M. destruct r as [timeline|e]; simpl;
      (destruct (isArchived (_room s)); simpl;
       [|destruct (_clearUnreadTimout s); simpl]);
      unfold Inv_load; simpl; (split; [congruence|]);
      intros Hin'; exfalso; apply Hgone;
      first [done | by apply elem_of_app in Hin' as [?|[=]%list_elem_of_singleton]].
  - destruct (timeouts s !! t) as [[]|]; try done.
    unfold resume in Hstep. simpl in Hstep. case_decide; [|done]. injection Hstep as <-.
    unfold_M. simpl. split; [done|].
    intros [?%elem_of_remove_first|[=]%list_elem_of_singleton]%elem_of_app. auto.
  - destruct (timeouts s !! t) as [[]|]; try done.
    unfold resume in Hstep. case_decide; [|done]. injection Hstep as <-.
    unfold_M. simpl. split; [done|]. intros ?%elem_of_remove_first. auto.
  - unfold resume in Hstep. case_decide; [|done]. injection Hstep as <-.
    unfold_M. destruct r as [[]|e]; simpl; [|case_bool_decide; simpl];
      (split; [done|]); intros ?%elem_of_remove_first; auto.
Qed.

Lemma reachable_load (room : Room) (picked : option Call) (inputs : list Input)
    (s : State) :
  steps inputs (new_RoomViewModel room picked) = Some s → Inv_load s.
Proof.
  intros Hrun.
  assert (Inv_timers s ∧ Inv_load s) as [_ ?]; [|done].
  revert Hrun. apply (steps_invariant (λ s, Inv_timers s ∧ Inv_load s)).
  - intros i s0 s1 [Ht Hl] Hstep. split; [by eapply Inv_timers_step|by eapply Inv_load_step].
  - split; [apply Inv_timers_new|apply Inv_load_new].
Qed.

(** ** The lifecycle claims *)

(** C2. In every state a room view model can reach, under every sequence of
    updates of the pick observable (and of everything else that can happen
    to it), no prefix of the history has more than one call view model
    alive: at most one exists at any time, also in between.  In particular,
    at the moment a call view model is constructed none is alive: the
    previous one was disposed before. *)
Theorem at_most_one_call_view_model (room : Room) (picked : option Call)
    (inputs : list Input) (s : State) :
  steps inputs (new_RoomViewModel room picked) = Some s →
  (∀ n, (length (alive (take n (trace s))) ≤ 1)%nat)
  ∧ (∀ before h c after,
       trace s = before ++ Constructed (CallViewModel h c) :: after →
       alive before = []).
Proof.
  intros Hrun. apply reachable_objects in Hrun as [_ [Hcalm _ _ _] _ _ _].
  split; [exact Hcalm|].
  intros before h c after Htr.
  specialize (Hcalm (S (length before))). rewrite Htr in Hcalm.
  rewrite (cons_middle _ before), app_assoc in Hcalm.
  rewrite take_app_le in Hcalm by (rewrite length_app; simpl; lia).
  rewrite take_ge in Hcalm by (rewrite length_app; simpl; lia).
  fold (alive (before ++ [Constructed (CallViewModel h c)])) in Hcalm.
  rewrite alive_app in Hcalm. simpl in Hcalm. rewrite length_app in Hcalm.
  simpl in Hcalm. destruct (alive before); [done|simpl in Hcalm; lia].
Qed.

Lemma at_most_one_call_view_model_witness :
  ∃ s, steps [pick_update (Some callB); pick_update (Some callB); pick_update None;
              pick_update (Some callA); call_dispose]
         (new_RoomViewModel room1 (Some callA)) = Some s
       ∧ count (λ ev, match ev with Constructed o => isCallViewModel o | _ => false end)
           (trace s) = 3%nat
       ∧ (∀ n, (length (alive (take n (trace s))) ≤ 1)%nat)
       ∧ (∀ before h c after,
            trace s = before ++ Constructed (CallViewModel h c) :: after →
            alive before = []).
Proof.
  eexists. split; [vm_compute; reflexivity|]. split; [reflexivity|].
  apply (at_most_one_call_view_model room1 (Some callA)
           [pick_update (Some callB); pick_update (Some callB); pick_update None;
            pick_update (Some callA); call_dispose]).
  vm_compute. reflexivity.
Defined.

Lemma count_disposed (f : Event → bool) (l : list Obj) :
  (∀ o, f (Disposed o) = false) → count f (Disposed <$> l) = 0%nat.
Proof.
  intros Hf. unfold count. induction l as [|o l IH]; simpl; [done|].
  by rewrite Hf.
Qed.

(** C4 as the code has it.  In every state a room view model can reach
    before it is disposed, [dispose()] disposes the tracked objects in the
    reverse order of tracking, then takes [_onRoomChange] off the room,
    calls [release()] if and only if the room is archived, and aborts the
    timeout [_clearUnreadTimout] refers to and nulls the field.  Afterwards
    nothing is tracked and no timeout is pending; every tracked object the
    view model ever created - the subscription on the pick observable, the
    timeline view models, the call view models, among them the current
    timeline and call view model - has been disposed exactly once.  The
    composer is not tracked (lines 43 and 45): it is not disposed. *)
Theorem dispose_releases_what_is_tracked (room : Room) (picked : option Call)
    (inputs : list Input) (s : State) :
  steps inputs (new_RoomViewModel room picked) = Some s →
  isDisposed s = false →
  let s' := exec dispose s in
  step call_dispose s = Some s'
  ∧ news s s'
    = (Disposed <$> reverse (disposables s)) ++ [RoomOff "change"]
      ++ (if isArchived (_room s) then [RoomRelease] else [])
      ++ match _clearUnreadTimout s with Some t => [TimeoutAbort t] | None => [] end
  ∧ listening s' = false
  ∧ count is_release (news s s') = (if isArchived (_room s) then 1 else 0)%nat
  ∧ _clearUnreadTimout s' = None
  ∧ (∀ t, timeouts s' !! t ≠ Some Pending)
  ∧ disposables s' = [] ∧ isDisposed s' = true
  ∧ (∀ o, Constructed o ∈ trace s → trackable o = true →
          disposals o (trace s') = 1%nat)
  ∧ (∀ o, _timelineVM s = Some o → disposals o (trace s') = 1%nat)
  ∧ (∀ o, _callViewModel s = Some o → disposals o (trace s') = 1%nat)
  ∧ (∃ o, _composerVM s = Some o ∧ disposals o (trace s') = 0%nat).
Proof.
  intros Hrun Hd s'.
  pose proof (reachable_objects _ _ _ _ Hrun) as Hobj.
  pose proof (reachable_timers _ _ _ _ Hrun) as Htim.
  pose proof (Inv_objects_dispose _ Hobj) as Hobj'.
  pose proof (Inv_timers_dispose _ Hd Htim) as Htim'.
  fold s' in Hobj', Htim'.
  assert (trace s' = trace s ++ disposed_trace s ∧ listening s' = false
          ∧ _clearUnreadTimout s' = None ∧ disposables s' = []
          ∧ isDisposed s' = true ∧ timeouts s' = disposed_timeouts s
          ∧ _composerVM s' = _composerVM s) as (Htr & Hl & Hf & Hds & Hd' & Hto & Hco).
  { unfold s'. destruct (dispose_effect s) as [sub ->]. done. }
  assert (∀ o, Constructed o ∈ trace s → trackable o = true →
               disposals o (trace s') = 1%nat) as Hall.
  { intros o Hc Ht. apply (tk_gone _ _ _ (io_track _ Hobj')); try done.
    - rewrite Htr. apply elem_of_app. by left.
    - rewrite Hds. apply not_elem_of_nil. }
  assert (∀ o, o ∈ disposables s → disposals o (trace s') = 1%nat) as Htracked.
  { intros o Ho. destruct (tk_tracked _ _ _ (io_track _ Hobj) o Ho) as (? & _ & ?).
    by apply Hall. }
  split; [simpl; by rewrite Hd|].
  split; [unfold news; rewrite Htr, drop_app_length; done|].
  split; [done|].
  split.
  { unfold news. rewrite Htr, drop_app_length. unfold disposed_trace.
    rewrite !count_app, count_disposed by done.
    by destruct (isArchived (_room s)), (_clearUnreadTimout s). }
  split; [done|].
  split.
  { intros t Ht. pose proof (it_field _ Htim' ) as Hfield. rewrite Hto in Ht.
    unfold disposed_timeouts in Ht. pose proof (it_field _ Htim Hd) as Hfs.
    destruct (_clearUnreadTimout s) as [t0|] eqn:Hf0.
    - destruct (timeouts s !! t0) as [[]|] eqn:Ht0.
      + apply lookup_pending_insert in Ht as [Hne Ht]; [|done].
        apply Hfs in Ht. congruence.
      + pose proof (Hfs _ Ht). congruence.
      + pose proof (Hfs _ Ht). congruence.
      + pose proof (Hfs _ Ht). congruence.
    - pose proof (Hfs _ Ht). congruence. }
  split; [done|]. split; [done|]. split; [done|].
  split.
  { intros o Ho. apply Htracked. by apply (io_timeline _ Hobj). }
  split.
  { intros o Ho. apply Htracked. by apply (io_call _ Hobj). }
  destruct (io_composer _ Hobj) as (o & Ho & Hk & _). exists o. split; [done|].
  by apply (tk_composer _ _ _ (io_track _ Hobj')).
Qed.

Lemma dispose_releases_what_is_tracked_witness :
  ∃ s, steps [call_load; call_focus; openTimeline_settled (Resolved 7%nat);
              pick_update (Some callB)]
         (new_RoomViewModel archive1 (Some callA)) = Some s
       ∧ isDisposed s = false
       ∧ news s (exec dispose s)
         = [Disposed (CallViewModel 4 callB); Disposed (TimelineViewModel 3 7);
            Disposed (CallSubscription 1); RoomOff "change"; RoomRelease]
       ∧ disposals (CallViewModel 2 callA) (trace (exec dispose s)) = 1%nat
       ∧ disposals (ArchivedViewModel 0) (trace (exec dispose s)) = 0%nat
       ∧ (∀ o, Constructed o ∈ trace s → trackable o = true →
               disposals o (trace (exec dispose s)) = 1%nat).
Proof.
  eexists. split; [vm_compute; reflexivity|]. split; [reflexivity|].
  split; [vm_compute; reflexivity|]. split; [vm_compute; reflexivity|].
  split; [vm_compute; reflexivity|].
  refine (proj1 (proj2 (proj2 (proj2 (proj2 (proj2 (proj2 (proj2 (proj2
    (dispose_releases_what_is_tracked archive1 (Some callA)
       [call_load; call_focus; openTimeline_settled (Resolved 7%nat);
        pick_update (Some callB)] _ _ _)))))))))).
  - vm_compute. reflexivity.
  - reflexivity.
Defined.

(** The claim fails on the composer: it is constructed and never tracked, so
    [dispose()] does not dispose it. *)
Lemma dispose_leaves_the_composer :
  let s := new_RoomViewModel room1 None in
  _composerVM s = Some (ComposerViewModel 0)
  ∧ Constructed (ComposerViewModel 0) ∈ trace s
  ∧ news s (exec dispose s) = [Disposed (CallSubscription 1); RoomOff "change"]
  ∧ disposals (ComposerViewModel 0) (trace (exec dispose s)) = 0%nat.
Proof.
  split; [reflexivity|]. split; [left|]. split; vm_compute; reflexivity.
Qed.

(** C5 as the code has it.  When [load()] was called and [openTimeline()]
    fails, then afterwards no timeline view model is attached
    ([_timelineVM] is null, nothing new is tracked), exactly that one error
    was passed to [reportError], and the scheduling of the deferred
    unread-clear has run: for a room that is not archived a timeout is held
    afterwards, a new pending one of 2000 ms when none was held; for an
    archived room nothing is scheduled. *)
Theorem load_failure (room : Room) (picked : option Call) (inputs : list Input)
    (s s' : State) (e : Error) :
  steps inputs (new_RoomViewModel room picked) = Some s →
  step (openTimeline_settled (Rejected e)) s = Some s' →
  _timelineVM s' = None
  ∧ disposables s' = disposables s
  ∧ reported (news s s') = [e]
  ∧ if isArchived (_room s) then
      news s s' = [ReportError e]
      ∧ _clearUnreadTimout s' = _clearUnreadTimout s
      ∧ timeouts s' = timeouts s
    else
      match _clearUnreadTimout s with
      | Some t =>
          news s s' = [ReportError e]
          ∧ _clearUnreadTimout s' = Some t
          ∧ timeouts s' = timeouts s
      | None =>
          let t := length (timeouts s) in
          news s s' = [ReportError e; TimeoutCreated t 2000]
          ∧ _clearUnreadTimout s' = Some t
          ∧ timeouts s' = timeouts s ++ [Pending]
          ∧ timeouts s' !! t = Some Pending
          ∧ AwaitElapsed t ∈ awaiting s'
      end.
Proof.
  intros Hrun Hstep. pose proof (reachable_load _ _ _ _ Hrun) as [_ Hnone].
  simpl in Hstep. unfold resume in Hstep. case_decide as Hin; [|done].
  injection Hstep as <-. specialize (Hnone Hin).
  set (s0 := set_awaiting (remove_first AwaitOpenTimeline (awaiting s)) s).
  pose proof (load_resumed_failure s0 e) as (Hres & Htl & Hds & Hrep & Hsched).
  assert (exec (load_resumed (Rejected e)) s0 = (load_resumed (Rejected e) s0).1) as ->.
  { unfold exec, detached. destruct (load_resumed (Rejected e) s0) as [s1 o].
    simpl in Hres. by subst o. }
  split; [by rewrite Htl|]. split; [done|]. split; [done|].
  change (_room s0) with (_room s) in Hsched.
  change (_clearUnreadTimout s0) with (_clearUnreadTimout s) in Hsched.
  change (timeouts s0) with (timeouts s) in Hsched.
  change (trace s0) with (trace s) in Hsched.
  unfold news.
  destruct (isArchived (_room s)).
  - destruct Hsched as (-> & ? & ? & _). by rewrite drop_app_length.
  - destruct (_clearUnreadTimout s) as [t|].
    + destruct Hsched as (-> & ? & ? & _). by rewrite drop_app_length.
    + destruct Hsched as (-> & ? & ? & ? & ->). rewrite drop_app_length.
      repeat split; try done. apply elem_of_app. right. left.
Qed.

Lemma load_failure_witness :
  match steps [call_load] (new_RoomViewModel room1 None) with
  | Some s =>
      match step (openTimeline_settled (Rejected boom)) s with
      | Some s' =>
          isArchived (_room s) = false ∧ _clearUnreadTimout s = None
          ∧ _timelineVM s' = None ∧ reported (news s s') = [boom]
          ∧ _clearUnreadTimout s' = Some 0%nat ∧ timeouts s' = [Pending]
          ∧ awaiting s' = [AwaitElapsed 0]
      | None => False
      end
  | None => False
  end.
Proof.
  destruct (steps [call_load] (new_RoomViewModel room1 None)) as [s|] eqn:Hrun;
    [|vm_compute in Hrun; discriminate Hrun].
  destruct (step (openTimeline_settled (Rejected boom)) s) as [s'|] eqn:Hstep;
    [|vm_compute in Hrun; injection Hrun as <-; vm_compute in Hstep;
      discriminate Hstep].
  destruct (load_failure _ _ _ _ _ _ Hrun Hstep) as (Htl & _ & Hrep & _).
  vm_compute in Hrun. injection Hrun as <-.
  vm_compute in Hstep. injection Hstep as <-.
  repeat split; try done.
Defined.

(** The claim fails for an archived room: [load()], then [openTimeline()]
    fails; the error is reported, and no unread-clear is scheduled. *)
Lemma load_failure_archived_schedules_nothing :
  match steps [call_load; openTimeline_settled (Rejected boom)]
              (new_RoomViewModel archive1 None) with
  | Some s =>
      _timelineVM s = None ∧ reported (trace s) = [boom]
      ∧ _clearUnreadTimout s = None ∧ timeouts s = [] ∧ awaiting s = []
  | None => False
  end.
Proof. vm_compute. done. Qed.

(** The same in a room that is not archived: the unread-clear is scheduled. *)
Example load_failure_example :
  match steps [call_load; openTimeline_settled (Rejected boom)]
              (new_RoomViewModel room1 None) with
  | Some s =>
      _timelineVM s = None ∧ reported (trace s) = [boom]
      ∧ _clearUnreadTimout s = Some 0%nat ∧ timeouts s = [Pending]
      ∧ awaiting s = [AwaitElapsed 0]
  | None => False
  end.
Proof. vm_compute. done. Qed.

(** C6 as the code has it.  In every state a room view model can reach (its
    owner calls [load()] once and nothing after [dispose()]), at most one
    timeout of the unread-clear is pending.  [_clearUnreadAfterDelay]
    creates a timeout only when the room is not archived and
    [_clearUnreadTimout] is null, and while the view model is not disposed
    a null field means that no timeout is pending; with a timeout in the
    field, [focus()] changes nothing.  The field is nulled when
    [clearUnread()] has resolved after the timeout elapsed, and by
    [dispose()], which aborts the timeout. *)
Theorem one_unread_clear_timeout (room : Room) (picked : option Call)
    (inputs : list Input) (s : State) :
  steps inputs (new_RoomViewModel room picked) = Some s →
  (∀ t1 t2, timeouts s !! t1 = Some Pending → timeouts s !! t2 = Some Pending →
            t1 = t2)
  ∧ timeouts (exec focus s)
    = (if isArchived (_room s) || bool_decide (is_Some (_clearUnreadTimout s))
       then timeouts s else timeouts s ++ [Pending])
  ∧ (isDisposed s = false → _clearUnreadTimout s = None →
     ∀ t, timeouts s !! t ≠ Some Pending)
  ∧ (is_Some (_clearUnreadTimout s) → exec focus s = s)
  ∧ (∀ t s', step (clearUnread_settled t (Resolved tt)) s = Some s' →
             _clearUnreadTimout s' = None)
  ∧ (∀ s', step call_dispose s = Some s' →
           _clearUnreadTimout s' = None ∧ ∀ t, timeouts s' !! t ≠ Some Pending).
Proof.
  intros Hrun. pose proof (reachable_timers _ _ _ _ Hrun) as Htim.
  split; [by apply (it_unique _ Htim)|].
  split.
  { unfold_M. simpl. destruct (isArchived (_room s)); simpl; [done|].
    by destruct (_clearUnreadTimout s). }
  split.
  { intros Hd Hf t Ht. apply (it_field _ Htim Hd) in Ht. congruence. }
  split.
  { intros [t Hf]. unfold_M. simpl. rewrite Hf. simpl.
    by destruct (isArchived (_room s)). }
  split.
  { intros t s' Hstep. simpl in Hstep. unfold resume in Hstep.
    case_decide; [|done]. by injection Hstep as <-. }
  intros s' Hstep. simpl in Hstep. destruct (isDisposed s) eqn:Hd; [done|].
  injection Hstep as <-.
  pose proof (Inv_timers_dispose _ Hd Htim) as Htim'.
  destruct (dispose_effect s) as [sub Heq]. rewrite Heq in *. split; [done|].
  intros t Ht. simpl in Ht.
  pose proof (it_field _ Htim Hd) as Hfs. unfold disposed_timeouts in Ht.
  destruct (_clearUnreadTimout s) as [t0|] eqn:Hf0.
  - destruct (timeouts s !! t0) as [[]|] eqn:Ht0.
    + apply lookup_pending_insert in Ht as [Hne Ht]; [|done].
      apply Hfs in Ht. congruence.
    + pose proof (Hfs _ Ht). congruence.
    + pose proof (Hfs _ Ht). congruence.
    + pose proof (Hfs _ Ht). congruence.
  - pose proof (Hfs _ Ht). congruence.
Qed.

Lemma one_unread_clear_timeout_witness :
  match steps [call_focus; call_load; call_focus; timeout_elapsed 0; call_focus;
               clearUnread_settled 0 (Resolved tt);
               openTimeline_settled (Resolved 7%nat); call_focus]
              (new_RoomViewModel room1 None) with
  | Some s =>
      timeouts s = [Elapsed; Pending]
      ∧ _clearUnreadTimout s = Some 1%nat
      ∧ (∀ t1 t2, timeouts s !! t1 = Some Pending →
                  timeouts s !! t2 = Some Pending → t1 = t2)
      ∧ exec focus s = s
  | None => False
  end.
Proof.
  destruct (steps _ (new_RoomViewModel room1 None)) as [s|] eqn:Hrun.
  - destruct (one_unread_clear_timeout _ _ _ _ Hrun) as (Hone & _ & _ & Hnoop & _).
    split; [|split; [|split; [exact Hone|]]].
    + vm_compute in Hrun. by injection Hrun as <-.
    + vm_compute in Hrun. by injection Hrun as <-.
    + apply Hnoop. vm_compute in Hrun. injection Hrun as <-. by eexists.
  - vm_compute in Hrun. discriminate Hrun.
Defined.

(** The claim fails when [clearUnread()] fails: the timeout has elapsed, the
    error is raised again, and the field still refers to the timeout, so
    that [focus()] never arms the unread-clear again. *)
Lemma elapsed_timeout_stays_referenced :
  match steps [call_focus; timeout_elapsed 0; clearUnread_settled 0 (Rejected boom)]
              (new_RoomViewModel room1 None) with
  | Some s =>
      timeouts s = [Elapsed] ∧ awaiting s = []
      ∧ _clearUnreadTimout s = Some 0%nat
      ∧ unhandled (trace s) = [boom]
      ∧ step call_focus s = Some s
  | None => False
  end.
Proof. vm_compute. done. Qed.

(** The lifecycle matters for the timeouts: an owner that calls [load()]
    twice, and disposes the view model while both calls await
    [openTimeline()], ends with two pending timeouts. *)
Example two_loads_two_timeouts :
  let s1 := exec load (exec load (new_RoomViewModel room1 None)) in
  match steps [call_focus; timeout_elapsed 0; call_dispose;
               openTimeline_settled (Rejected boom);
               clearUnread_settled 0 (Resolved tt);
               openTimeline_settled (Rejected boom)] s1 with
  | Some s => timeouts s = [Elapsed; Pending; Pending]
  | None => False
  end.
Proof. vm_compute. done. Qed.

(** ** More on the lifecycle *)

(** The cases of one turn of the event loop, with the new state written
    out. *)
Ltac step_cases Hstep :=
  match type of Hstep with
  | step ?i ?s = Some ?s' =>
      destruct i as [| | | |delivered|r|t|t|t r]; simpl in Hstep;
      [ destruct (isDisposed s) eqn:?; simpl in Hstep; [done|];
        destruct (loadCalled s) eqn:?; [done|]; injection Hstep as <-
      | destruct (isDisposed s) eqn:?; [done|]; injection Hstep as <-
      | destruct (isDisposed s) eqn:?; [done|]; injection Hstep as <-
      | injection Hstep as <-
      | injection Hstep as <-
      | unfold resume in Hstep; case_decide; [|done]; injection Hstep as <-
      | destruct (timeouts s !! t) as [[]|] eqn:?; try done;
        unfold resume in Hstep; simpl in Hstep; case_decide; [|done];
        injection Hstep as <-
      | destruct (timeouts s !! t) as [[]|] eqn:?; try done;
        unfold resume in Hstep; case_decide; [|done]; injection Hstep as <-
      | unfold resume in Hstep; case_decide; [|done]; injection Hstep as <- ]
  end.

(** Rewriting with the equations of the context. *)
Ltac use_eqs :=
  repeat match goal with
    | H : ?x = _ |- context [?x] => rewrite H
    end;
  simpl; try done.

Ltac fin := intros; first [done | congruence | by auto].

Lemma steps_snoc (inputs : list Input) (i : Input) (s s' : State) :
  steps (inputs ++ [i]) s = Some s' ↔
  ∃ s1, steps inputs s = Some s1 ∧ step i s1 = Some s'.
Proof.
  revert s. induction inputs as [|j inputs IH]; intros s; cbn [steps app].
  - split.
    + intros Hs. exists s. split; [done|]. by destruct (step i s).
    + intros (s1 & [= <-] & ->). done.
  - destruct (step j s) as [s1|]; [apply IH|].
    split; [done|]. by intros (s2 & ? & _).
Qed.

(** The state the constructor leaves. *)
Lemma new_RoomViewModel_eq (room : Room) (picked : option Call) :
  new_RoomViewModel room picked
  = {| _room := room; _timelineVM := None; _tileOptions := None;
       _composerVM := Some (composer_of room); _clearUnreadTimout := None;
       _callViewModel := CallViewModel 2 <$> picked; _callObservable := picked;
       subscribed := true;
       disposables := CallSubscription 1 :: option_list (CallViewModel 2 <$> picked);
       isDisposed := false; listening := false; timeouts := []; awaiting := [];
       loadCalled := false;
       nextHandle := match picked with Some _ => 3 | None => 2 end;
       trace := [Constructed (composer_of room); Constructed (CallSubscription 1)]
                ++ option_list (Constructed <$> (CallViewModel 2 <$> picked)) |}.
Proof.
  destruct room as [id [|]], picked as [c|]; vm_compute; reflexivity.
Qed.

Lemma Inv_fixed_new (room : Room) (picked : option Call) :
  Inv_fixed room (new_RoomViewModel room picked).
Proof.
  by rewrite new_RoomViewModel_eq.
Qed.

Lemma Inv_fixed_step (room : Room) (i : Input) (s s' : State) :
  Inv_fixed room s → step i s = Some s' → Inv_fixed room s'.
Proof.
  intros [Hr Hc] Hstep. step_cases Hstep; unfold Inv_fixed.
  - unfold_M. done.
  - unfold_M. simpl. destruct (isArchived (_room s)); simpl; [done|].
    by destruct (_clearUnreadTimout s).
  - destruct (dispose_effect s) as [sub ->]. done.
  - destruct (listening s); [|done]. unfold_M. done.
  - destruct (subscribed s); [|done]. unfold_M. simpl.
    repeat (case_match; simplify_eq/=; try done).
  - unfold_M. destruct r as [timeline|e]; simpl;
      (destruct (isArchived (_room s)); simpl; [done|]);
      by destruct (_clearUnreadTimout s).
  - unfold_M. done.
  - unfold_M. done.
  - unfold_M. destruct r as [[]|e]; simpl; [done|]. by case_bool_decide.
Qed.

Lemma reachable_fixed (room : Room) (picked : option Call) (inputs : list Input)
    (s : State) :
  steps inputs (new_RoomViewModel room picked) = Some s → Inv_fixed room s.
Proof.
  apply steps_invariant; [apply Inv_fixed_step|apply Inv_fixed_new].
Qed.

Lemma Inv_pick_new (room : Room) (picked : option Call) :
  Inv_pick (new_RoomViewModel room picked).
Proof.
  rewrite new_RoomViewModel_eq. intros _. split; [done|].
  unfold follows_pick. simpl. by destruct picked.
Qed.

Lemma Inv_pick_step (i : Input) (s s' : State) :
  Inv_objects s → Inv_pick s → step i s = Some s' → Inv_pick s'.
Proof.
  intros Hobj Hpick Hstep. step_cases Hstep; unfold Inv_pick, follows_pick in *.
  - unfold_M. simpl. auto.
  - unfold_M. simpl. destruct (isArchived (_room s)); simpl; [auto|].
    destruct (_clearUnreadTimout s); simpl; auto.
  - destruct (dispose_effect s) as [sub ->]. done.
  - destruct (listening s); [|done]. unfold_M. simpl. auto.
  - destruct (isDisposed s) eqn:Hd.
    + destruct (subscribed s); [|by simpl; rewrite Hd].
      intros Hd'. exfalso. revert Hd'. unfold_M. simpl.
      repeat (case_match; simplify_eq/=; try congruence).
    + destruct (Hpick eq_refl) as [Hsub Hfollows]. rewrite Hsub.
      pose proof (cl_field _ _ _ (io_calls _ Hobj)) as Hfield.
      intros _. unfold_M. simpl.
      destruct (_callViewModel s) as [vm|] eqn:Hvm.
      * specialize (Hfield vm eq_refl). destruct vm; try done.
        destruct delivered as [c|]; simpl.
        -- case_bool_decide as Hid; simpl.
           ++ rewrite Hvm. split; [done|]. congruence.
           ++ case_decide; simpl; done.
        -- case_decide; simpl; done.
      * destruct delivered as [c|]; simpl; done.
  - unfold_M. destruct r as [timeline|e]; simpl;
      (destruct (isArchived (_room s)); simpl; [auto|]);
      destruct (_clearUnreadTimout s); simpl; auto.
  - unfold_M. simpl. auto.
  - unfold_M. simpl. auto.
  - unfold_M. destruct r as [[]|e]; simpl; [auto|]. case_bool_decide; simpl; auto.
Qed.

Lemma reachable_pick (room : Room) (picked : option Call) (inputs : list Input)
    (s : State) :
  steps inputs (new_RoomViewModel room picked) = Some s → Inv_pick s.
Proof.
  intros Hrun.
  assert (Inv_objects s ∧ Inv_pick s) as [_ ?]; [|done].
  revert Hrun. apply (steps_invariant (λ s, Inv_objects s ∧ Inv_pick s)).
  - intros i s0 s1 [Ho Hp] Hstep.
    split; [by eapply Inv_objects_step|by eapply Inv_pick_step].
  - split; [apply Inv_objects_new|apply Inv_pick_new].
Qed.

(** X1. In every state a room view model can reach before it is disposed,
    the call view model follows the pick observable: [callViewModel] is
    absent when the observable holds no call, and is a view model of a call
    with the id of the picked call otherwise; and the call view models that
    are alive (constructed and not disposed) are exactly that one. *)
Theorem call_view_model_follows_pick (room : Room) (picked : option Call)
    (inputs : list Input) (s : State) :
  steps inputs (new_RoomViewModel room picked) = Some s →
  isDisposed s = false →
  follows_pick s
  ∧ (_callViewModel s ≫= vm_id) = call_id <$> _callObservable s
  ∧ alive (trace s) = option_list (_callViewModel s).
Proof.
  intros Hrun Hd.
  pose proof (reachable_objects _ _ _ _ Hrun) as Hobj.
  destruct (reachable_pick _ _ _ _ Hrun Hd) as [_ Hfollows].
  split; [done|]. split.
  { unfold follows_pick in Hfollows.
    destruct (_callObservable s) as [c|], (_callViewModel s) as [[]|];
      simpl; try done. by rewrite Hfollows. }
  destruct (io_calls _ Hobj) as [_ Halive Hfield Hone]. rewrite Halive.
  destruct (_callViewModel s) as [vm|] eqn:Hvm; simpl.
  - pose proof (io_call _ Hobj vm Hvm Hd) as Hin.
    destruct Hone as [Hnil|(vm' & Hone & [= <-])]; [|done].
    exfalso. assert (vm ∈ filter isCallViewModel (disposables s)) as Hin'.
    { apply elem_of_filter_call. split; [by apply Hfield|done]. }
    rewrite Hnil in Hin'. by apply not_elem_of_nil in Hin'.
  - by destruct Hone as [Hnil|(vm' & _ & [=])].
Qed.

Lemma call_view_model_follows_pick_witness :
  match steps [pick_update (Some callB); call_load; pick_update (Some callA)]
              (new_RoomViewModel room1 None) with
  | Some s =>
      isDisposed s = false
      ∧ _callViewModel s = Some (CallViewModel 3 callA)
      ∧ (_callViewModel s ≫= vm_id) = call_id <$> _callObservable s
      ∧ alive (trace s) = option_list (_callViewModel s)
  | None => False
  end.
Proof.
  destruct (steps _ (new_RoomViewModel room1 None)) as [s|] eqn:Hrun;
    [|vm_compute in Hrun; discriminate Hrun].
  assert (isDisposed s = false) as Hd
    by (vm_compute in Hrun; by injection Hrun as <-).
  destruct (call_view_model_follows_pick _ _ _ _ Hrun Hd) as (_ & Hid & Halive).
  split; [done|]. split; [|done].
  vm_compute in Hrun. by injection Hrun as <-.
Defined.

Lemma Inv_listen_new (room : Room) (picked : option Call) :
  Inv_listen (new_RoomViewModel room picked).
Proof.
  by rewrite new_RoomViewModel_eq.
Qed.

Lemma Inv_listen_step (i : Input) (s s' : State) :
  Inv_listen s → step i s = Some s' → Inv_listen s'.
Proof.
  unfold Inv_listen. intros Hl Hstep. step_cases Hstep.
  - unfold_M. simpl. use_eqs.
  - unfold_M. simpl. destruct (isArchived (_room s)); simpl; [use_eqs|].
    destruct (_clearUnreadTimout s); simpl; use_eqs.
  - destruct (dispose_effect s) as [sub ->]. simpl. by rewrite andb_false_r.
  - destruct (listening s) eqn:?; [|congruence]. unfold_M. simpl. use_eqs.
  - destruct (subscribed s); [|done]. unfold_M. simpl.
    repeat (case_match; simplify_eq/=; try done).
  - unfold_M. destruct r as [timeline|e]; simpl;
      (destruct (isArchived (_room s)); simpl; [done|]);
      by destruct (_clearUnreadTimout s).
  - unfold_M. done.
  - unfold_M. done.
  - unfold_M. destruct r as [[]|e]; simpl; [done|]. by case_bool_decide.
Qed.

Lemma reachable_listen (room : Room) (picked : option Call) (inputs : list Input)
    (s : State) :
  steps inputs (new_RoomViewModel room picked) = Some s → Inv_listen s.
Proof.
  apply steps_invariant; [apply Inv_listen_step|apply Inv_listen_new].
Qed.

(** X2. In every state a room view model can reach, a change of the room
    is forwarded exactly when [load()] was called and [dispose()] was not:
    then the composer that the constructor created (an ArchivedViewModel for
    an archived room, a ComposerViewModel otherwise) emits a change first and
    the room view model itself afterwards, and nothing else happens; before
    [load()] and after [dispose()] a change of the room has no effect. *)
Theorem room_change_is_forwarded (room : Room) (picked : option Call)
    (inputs : list Input) (s : State) :
  steps inputs (new_RoomViewModel room picked) = Some s →
  listening s = loadCalled s && negb (isDisposed s)
  ∧ ∃ s', step room_change s = Some s'
      ∧ s' = set_trace (trace s') s
      ∧ trace s' = trace s
          ++ (if loadCalled s && negb (isDisposed s)
              then [EmitChange (Some (composer_of room)) None; EmitChange None None]
              else []).
Proof.
  intros Hrun. pose proof (reachable_listen _ _ _ _ Hrun) as Hl.
  destruct (reachable_fixed _ _ _ _ Hrun) as [_ Hc]. unfold Inv_listen in Hl.
  split; [done|]. eexists. split; [reflexivity|]. rewrite <- Hl.
  destruct (listening s).
  - unfold_M. simpl. rewrite Hc, <- app_assoc. by destruct s.
  - rewrite app_nil_r. by destruct s.
Qed.

Lemma room_change_is_forwarded_witness :
  match steps [room_change; call_load; room_change; call_dispose; room_change]
              (new_RoomViewModel archive1 None) with
  | Some s =>
      List.filter (λ ev, match ev with EmitChange _ _ => true | _ => false end) (trace s)
      = [EmitChange (Some (ArchivedViewModel 0)) None; EmitChange None None]
      ∧ listening s = loadCalled s && negb (isDisposed s)
      ∧ step room_change s = Some s
  | None => False
  end.
Proof.
  destruct (steps _ (new_RoomViewModel archive1 None)) as [s|] eqn:Hrun;
    [|vm_compute in Hrun; discriminate Hrun].
  destruct (room_change_is_forwarded _ _ _ _ Hrun) as (Hl & _).
  split; [|split; [done|]]; vm_compute in Hrun; by injection Hrun as <-.
Defined.

Lemma Inv_archived_new (room : Room) (picked : option Call) :
  Inv_archived (new_RoomViewModel room picked).
Proof.
  by rewrite new_RoomViewModel_eq.
Qed.

Lemma Inv_archived_step (i : Input) (s s' : State) :
  Inv_archived s → step i s = Some s' → Inv_archived s'.
Proof.
  unfold Inv_archived. intros Ha Hstep. step_cases Hstep.
  - unfold_M. done.
  - unfold_M. simpl. destruct (isArchived (_room s)) eqn:Harch; simpl; [fin|].
    destruct (_clearUnreadTimout s); simpl; fin.
  - destruct (dispose_effect s) as [sub ->]. simpl. intros Harch.
    destruct (Ha Harch) as [Ht Hf]. unfold disposed_timeouts. by rewrite Hf.
  - destruct (listening s); [|done]. unfold_M. done.
  - destruct (subscribed s); [|done]. unfold_M. simpl.
    repeat (case_match; simplify_eq/=; try done).
  - unfold_M. destruct r as [timeline|e]; simpl;
      (destruct (isArchived (_room s)) eqn:Harch; simpl; [fin|]);
      destruct (_clearUnreadTimout s); simpl; fin.
  - unfold_M. simpl. intros Harch. destruct (Ha Harch) as [Ht _].
    rewrite Ht in *. done.
  - unfold_M. simpl. done.
  - unfold_M. destruct r as [[]|e]; simpl; [|by case_bool_decide].
    intros Harch. by destruct (Ha Harch).
Qed.

Lemma reachable_archived (room : Room) (picked : option Call) (inputs : list Input)
    (s : State) :
  steps inputs (new_RoomViewModel room picked) = Some s → Inv_archived s.
Proof.
  apply steps_invariant; [apply Inv_archived_step|apply Inv_archived_new].
Qed.

Lemma tally_insert {A : Type} (f : A → bool) (l : list A) (t : nat) (x y : A) :
  l !! t = Some x →
  (tally f (<[t := y]> l) + (if f x then 1 else 0)
   = tally f l + (if f y then 1 else 0))%nat.
Proof.
  revert t. induction l as [|z l IH]; intros [|t]; simpl; try done.
  - intros [= ->]. unfold tally. simpl. destruct (f x), (f y); simpl; lia.
  - intros Ht. specialize (IH t Ht). unfold tally in *. simpl.
    destruct (f z); simpl; lia.
Qed.

Lemma created_app (tr ext : list Event) :
  created (tr ++ ext) = created tr ++ created ext.
Proof. apply omap_app. Qed.

Lemma created_disposed (l : list Obj) : created (Disposed <$> l) = [].
Proof. by induction l. Qed.

Lemma onCallPicked_trace (call : option Call) (s : State) :
  ∃ ext, trace (exec (onCallPicked call) s) = trace s ++ ext
         ∧ forallb of_call ext = true.
Proof.
  unfold_M. simpl.
  repeat (case_match; simplify_eq/=);
    first [ by exists []; rewrite app_nil_r
          | rewrite <- ?app_assoc; simpl; eexists; split; [reflexivity|done] ].
Qed.

Lemma count_of_call (f : Event → bool) (ext : list Event) :
  (∀ ev, of_call ev = true → f ev = false) →
  forallb of_call ext = true → count f ext = 0%nat.
Proof.
  intros Hf. induction ext as [|ev ext IH]; simpl; [done|].
  intros [Hev Hext]%andb_true_iff. unfold count in *. simpl.
  rewrite (Hf ev Hev). by apply IH.
Qed.

Lemma created_of_call (ext : list Event) :
  forallb of_call ext = true → created ext = [].
Proof.
  induction ext as [|ev ext IH]; simpl; [done|].
  intros [Hev Hext]%andb_true_iff. unfold created in *. simpl.
  destruct ev; simpl in *; try done; by apply IH.
Qed.

Lemma Inv_clears_new (room : Room) (picked : option Call) :
  Inv_clears (new_RoomViewModel room picked).
Proof.
  rewrite new_RoomViewModel_eq. unfold Inv_clears, composer_of. simpl.
  by destruct (isArchived room), picked.
Qed.

Lemma Inv_clears_frame (s s' : State) (ext : list Event) :
  trace s' = trace s ++ ext → timeouts s' = timeouts s →
  count is_clearUnread ext = 0%nat → created ext = [] →
  Inv_clears s → Inv_clears s'.
Proof.
  unfold Inv_clears. intros -> -> Hc Hn [Hcount Hcreated].
  rewrite count_app, created_app, Hc, Hn, app_nil_r. split; [lia|done].
Qed.

Lemma Inv_clears_arm (s : State) : Inv_clears s → Inv_clears (exec focus s).
Proof.
  intros Hinv. unfold_M. simpl. destruct (isArchived (_room s)); simpl; [done|].
  destruct (_clearUnreadTimout s); simpl; [done|].
  destruct Hinv as [Hcount Hcreated]. split; simpl.
  - rewrite count_app, tally_snoc. simpl. unfold count at 2. simpl. lia.
  - rewrite created_app, length_app, Hcreated. simpl.
    rewrite Nat.add_1_r, seq_S, fmap_app. done.
Qed.

Lemma Inv_clears_step (i : Input) (s s' : State) :
  Inv_clears s → step i s = Some s' → Inv_clears s'.
Proof.
  intros Hinv Hstep. step_cases Hstep.
  - eapply (Inv_clears_frame _ _ [RoomOn "change"]); [| | | |done]; by unfold_M.
  - by apply Inv_clears_arm.
  - destruct (dispose_effect s) as [sub ->]. destruct Hinv as [Hcount Hcreated].
    unfold Inv_clears. simpl. unfold disposed_trace, disposed_timeouts.
    rewrite !count_app, !created_app, created_disposed, count_disposed by done.
    assert (∀ l : list (nat * Z), [] ++ [] ++ l ++ [] = l) as Hnil
      by (intros l; simpl; by rewrite app_nil_r).
    destruct (isArchived (_room s)); simpl;
      (destruct (_clearUnreadTimout s) as [t|]; simpl;
       [destruct (timeouts s !! t) as [[]|] eqn:Ht; simpl|]);
      rewrite ?app_nil_r, ?length_insert; unfold count in *; simpl;
      (split; [|done]);
      try (pose proof (tally_insert isElapsed _ _ _ Aborted Ht) as Hins;
           simpl in Hins);
      lia.
  - destruct (listening s); [|done].
    eapply (Inv_clears_frame _ _ [EmitChange (_composerVM s) None; EmitChange None None]);
      [| | | |done]; unfold_M; simpl; by rewrite <- ?app_assoc.
  - assert (Inv_clears (set_callObservable delivered s)) as Hinv' by done.
    destruct (subscribed s); [|done].
    destruct (onCallPicked_trace delivered (set_callObservable delivered s))
      as (ext & Htr & Hext).
    eapply Inv_clears_frame; [exact Htr| | | |exact Hinv'].
    + by destruct (onCallPicked_same_timers delivered (set_callObservable delivered s)).
    + apply count_of_call; [|done]. by intros [].
    + by apply created_of_call.
  - rewrite load_resumed_eq. apply Inv_clears_arm.
    destruct r as [timeline|e]; simpl.
    + eapply (Inv_clears_frame _ _ [_; _]); [| | | |exact Hinv]; simpl;
        by rewrite <- ?app_assoc.
    + by eapply (Inv_clears_frame _ _ [_]); [| | | |exact Hinv].
  - destruct Hinv as [Hcount Hcreated]. unfold_M. unfold Inv_clears. simpl.
    rewrite count_app, created_app, length_insert, app_nil_r. split; [|done].
    match goal with H : timeouts s !! t = Some Pending |- _ =>
      pose proof (tally_insert isElapsed _ _ _ Elapsed H) as Hins end.
    simpl in Hins. unfold count at 2. simpl. lia.
  - unfold_M. by simpl.
  - destruct r as [[]|e]; unfold_M; simpl; [done|].
    case_bool_decide; simpl; [|done].
    by eapply (Inv_clears_frame _ _ [_]); [| | | |exact Hinv].
Qed.

Lemma reachable_clears (room : Room) (picked : option Call) (inputs : list Input)
    (s : State) :
  steps inputs (new_RoomViewModel room picked) = Some s → Inv_clears s.
Proof.
  apply steps_invariant; [apply Inv_clears_step|apply Inv_clears_new].
Qed.

Lemma Inv_timeline_new (room : Room) (picked : option Call) :
  Inv_timeline (new_RoomViewModel room picked).
Proof.
  rewrite new_RoomViewModel_eq. unfold Inv_timeline, composer_of. simpl.
  by destruct (isArchived room), picked.
Qed.

Lemma Inv_timeline_frame (s s' : State) (ext : list Event) :
  trace s' = trace s ++ ext → count is_timeline_created ext = 0%nat →
  _timelineVM s' = _timelineVM s → _tileOptions s' = _tileOptions s →
  tally isOpen (awaiting s') = tally isOpen (awaiting s) →
  (loadCalled s = true → loadCalled s' = true) →
  Inv_timeline s → Inv_timeline s'.
Proof.
  unfold Inv_timeline. intros -> Hext -> -> -> Hl.
  rewrite count_app, Hext, Nat.add_0_r.
  destruct (_timelineVM s) as [vm|]; [|done].
  intros (h & timeline & ? & ? & ? & ? & ? & ?). exists h, timeline.
  repeat split; try done; [|by auto]. apply elem_of_app. by left.
Qed.

Lemma Inv_timeline_arm (s : State) : Inv_timeline s → Inv_timeline (exec focus s).
Proof.
  intros Hinv. unfold_M. simpl. destruct (isArchived (_room s)); simpl; [done|].
  destruct (_clearUnreadTimout s); simpl; [done|].
  eapply (Inv_timeline_frame _ _ [_]); [| | | | | |exact Hinv]; simpl; try done.
  by rewrite tally_snoc, Nat.add_0_r.
Qed.

Lemma onCallPicked_keeps_tiles (call : option Call) (s : State) :
  _tileOptions (exec (onCallPicked call) s) = _tileOptions s.
Proof.
  unfold_M. simpl. repeat (case_match; simplify_eq/=; try done).
Qed.

Lemma Inv_timeline_step (i : Input) (s s' : State) :
  Inv_timers s → Inv_timeline s → step i s = Some s' → Inv_timeline s'.
Proof.
  intros Htim Hinv Hstep. step_cases Hstep.
  - unfold Inv_timeline in *. unfold_M. simpl.
    destruct (_timelineVM s) as [vm|].
    + destruct Hinv as (h & timeline & _ & _ & _ & _ & _ & ?). congruence.
    + rewrite count_app. unfold count at 2. simpl. destruct Hinv. split; [lia|done].
  - by apply Inv_timeline_arm.
  - destruct (dispose_effect s) as [sub ->].
    eapply (Inv_timeline_frame _ _ (disposed_trace s)); [| | | | | |exact Hinv];
      try done.
    unfold disposed_trace. rewrite !count_app, count_disposed by done.
    by destruct (isArchived (_room s)), (_clearUnreadTimout s).
  - destruct (listening s); [|done].
    eapply (Inv_timeline_frame _ _ [_; _]); [| | | | | |exact Hinv];
      unfold_M; simpl; by rewrite <- ?app_assoc.
  - assert (Inv_timeline (set_callObservable delivered s)) as Hinv' by done.
    destruct (subscribed s); [|done].
    destruct (onCallPicked_trace delivered (set_callObservable delivered s))
      as (ext & Htr & Hext).
    destruct (onCallPicked_keeps_load delivered (set_callObservable delivered s))
      as (Hl & Ha & Ht).
    eapply Inv_timeline_frame; [exact Htr| | | | | |exact Hinv'].
    + apply count_of_call; [|done]. by intros [| | | | | | | | | | | | |]; try done; destruct o.
    + done.
    + apply onCallPicked_keeps_tiles.
    + by rewrite Ha.
    + by rewrite Hl.
  - rename H into Hin.
    assert (loadCalled s = true) as Hl.
    { destruct (loadCalled s) eqn:Hl; [done|].
      pose proof (it_load _ Htim Hl). pose proof (tally_elem_of isOpen _ _ Hin eq_refl).
      lia. }
    assert (tally isOpen (remove_first AwaitOpenTimeline (awaiting s)) = 0%nat) as Hgone.
    { pose proof (tally_remove_first_true isOpen _ _ Hin eq_refl).
      pose proof (it_open _ Htim). lia. }
    assert (_timelineVM s = None ∧ count is_timeline_created (trace s) = 0%nat
            ∧ _tileOptions s = None) as (Hnone & Hcount & Htiles).
    { unfold Inv_timeline in Hinv. destruct (_timelineVM s) as [vm|]; [|done].
      destruct Hinv as (h & timeline & _ & _ & _ & _ & Hopen & _).
      pose proof (tally_elem_of isOpen _ _ Hin eq_refl). lia. }
    rewrite load_resumed_eq. apply Inv_timeline_arm.
    destruct r as [timeline|e]; unfold Inv_timeline; simpl.
    + exists (nextHandle s), timeline. rewrite !count_app, Hcount.
      repeat split; try done. rewrite <- app_assoc. apply elem_of_app. right. left.
    + rewrite Hnone, count_app, Hcount. done.
  - eapply (Inv_timeline_frame _ _ [_]); [| | | | | |exact Hinv];
      unfold_M; simpl; try done.
    by rewrite tally_snoc, tally_remove_first_false, Nat.add_0_r.
  - eapply (Inv_timeline_frame _ _ []); [| | | | | |exact Hinv];
      unfold_M; simpl; rewrite ?app_nil_r; try done.
    by rewrite tally_remove_first_false.
  - destruct r as [[]|e]; unfold_M; simpl; [|case_bool_decide; simpl].
    + eapply (Inv_timeline_frame _ _ []); [| | | | | |exact Hinv];
        simpl; rewrite ?app_nil_r; try done. by rewrite tally_remove_first_false.
    + eapply (Inv_timeline_frame _ _ [_]); [| | | | | |exact Hinv];
        simpl; try done. by rewrite tally_remove_first_false.
    + eapply (Inv_timeline_frame _ _ []); [| | | | | |exact Hinv];
        simpl; rewrite ?app_nil_r; try done. by rewrite tally_remove_first_false.
Qed.

Lemma reachable_timeline (room : Room) (picked : option Call) (inputs : list Input)
    (s : State) :
  steps inputs (new_RoomViewModel room picked) = Some s → Inv_timeline s.
Proof.
  intros Hrun.
  assert (Inv_timers s ∧ Inv_timeline s) as [_ ?]; [|done].
  revert Hrun. apply (steps_invariant (λ s, Inv_timers s ∧ Inv_timeline s)).
  - intros i s0 s1 [Ht Hl] Hstep.
    split; [by eapply Inv_timers_step|by eapply Inv_timeline_step].
  - split; [apply Inv_timers_new|apply Inv_timeline_new].
Qed.

Lemma step_keeps_timeline (i : Input) (s s' : State) :
  is_opened i = false → step i s = Some s' → _timelineVM s' = _timelineVM s.
Proof.
  intros Hi Hstep. step_cases Hstep.
  - by unfold_M.
  - unfold_M. simpl. destruct (isArchived (_room s)); simpl; [done|].
    by destruct (_clearUnreadTimout s).
  - destruct (dispose_effect s) as [sub ->]. done.
  - destruct (listening s); [|done]. by unfold_M.
  - destruct (subscribed s); [|done].
    by destruct (onCallPicked_keeps_load delivered (set_callObservable delivered s))
      as (_ & _ & ->).
  - destruct r as [timeline|e]; [done|]. unfold_M. simpl.
    destruct (isArchived (_room s)); simpl; [done|].
    by destruct (_clearUnreadTimout s).
  - by unfold_M.
  - by unfold_M.
  - unfold_M. destruct r as [[]|e]; simpl; [done|]. by case_bool_decide.
Qed.

Lemma step_opened (timeline : nat) (s s' : State) :
  step (openTimeline_settled (Resolved timeline)) s = Some s' →
  _timelineVM s' = Some (TimelineViewModel (nextHandle s) timeline)
  ∧ _tileOptions s' = Some timeline
  ∧ disposables s' = disposables s ++ [TimelineViewModel (nextHandle s) timeline]
  ∧ trace s' = trace s
      ++ [Constructed (TimelineViewModel (nextHandle s) timeline);
          EmitChange None (Some "timelineViewModel")]
      ++ (if isArchived (_room s) || bool_decide (is_Some (_clearUnreadTimout s))
          then [] else [TimeoutCreated (length (timeouts s)) 2000])
  ∧ _clearUnreadTimout s'
    = (if isArchived (_room s) then _clearUnreadTimout s
       else match _clearUnreadTimout s with
            | Some t => Some t
            | None => Some (length (timeouts s))
            end).
Proof.
  simpl. unfold resume. case_decide; [|done]. intros [= <-]. unfold_M. simpl.
  destruct (isArchived (_room s)); simpl.
  - rewrite <- app_assoc. done.
  - destruct (_clearUnreadTimout s) eqn:Hf; simpl; rewrite <- !app_assoc; done.
Qed.

Lemma timeline_iff_opened (room : Room) (picked : option Call)
    (inputs : list Input) (s : State) :
  steps inputs (new_RoomViewModel room picked) = Some s →
  is_Some (_timelineVM s) ↔ existsb is_opened inputs = true.
Proof.
  revert s. induction inputs as [|i inputs IH] using rev_ind; intros s.
  - intros [= <-]. rewrite new_RoomViewModel_eq. simpl. split; [|done].
    by intros [? ?].
  - intros (s1 & Hrun & Hstep)%steps_snoc. rewrite existsb_app. simpl.
    rewrite orb_false_r. destruct (is_opened i) eqn:Hi.
    + rewrite orb_true_r. destruct i as [| | | | |[timeline|]| | |]; try done.
      apply step_opened in Hstep as (-> & _). done.
    + rewrite orb_false_r, (step_keeps_timeline _ _ _ Hi Hstep). by apply IH.
Qed.

(** X3. In every state a room view model can reach when its owner calls
    [load()] once and nothing after [dispose()] (the lifecycle of section 3
    of the specification, which the event loop follows), a timeline view
    model was created at most once; [timelineViewModel] is non-null exactly
    when one was created, which is exactly when [openTimeline()] has
    resolved; it is then a timeline view model that was constructed, and
    the tile options hold its timeline; while it is null there are no tile
    options.  [load()] itself has no guard: see [two_loads_two_timelines]. *)
Theorem one_timeline_view_model (room : Room) (picked : option Call)
    (inputs : list Input) (s : State) :
  steps inputs (new_RoomViewModel room picked) = Some s →
  (count is_timeline_created (trace s) ≤ 1)%nat
  ∧ (is_Some (_timelineVM s) ↔ count is_timeline_created (trace s) = 1%nat)
  ∧ (is_Some (_timelineVM s) ↔ existsb is_opened inputs = true)
  ∧ (∀ vm, _timelineVM s = Some vm →
       ∃ h timeline, vm = TimelineViewModel h timeline
         ∧ _tileOptions s = Some timeline ∧ Constructed vm ∈ trace s)
  ∧ (_timelineVM s = None → _tileOptions s = None).
Proof.
  intros Hrun. pose proof (reachable_timeline _ _ _ _ Hrun) as Hinv.
  pose proof (timeline_iff_opened _ _ _ _ Hrun) as Hiff.
  unfold Inv_timeline in Hinv. destruct (_timelineVM s) as [vm|].
  - destruct Hinv as (h & timeline & -> & Htiles & Hcount & Hin & _).
    rewrite Hcount. split; [lia|]. split; [done|]. split; [done|].
    split; [|done]. intros vm [= <-]. by exists h, timeline.
  - destruct Hinv as [Hcount Htiles]. rewrite Hcount.
    split; [lia|]. split; [split; [by intros [? ?]|done]|].
    split; [done|]. split; [done|done].
Qed.

Lemma one_timeline_view_model_witness :
  match steps [call_load; pick_update (Some callA);
               openTimeline_settled (Resolved 7%nat); call_focus; call_dispose]
              (new_RoomViewModel room1 None) with
  | Some s =>
      _timelineVM s = Some (TimelineViewModel 3 7) ∧ _tileOptions s = Some 7%nat
      ∧ (count is_timeline_created (trace s) ≤ 1)%nat
      ∧ (is_Some (_timelineVM s) ↔ count is_timeline_created (trace s) = 1%nat)
  | None => False
  end.
Proof.
  destruct (steps _ (new_RoomViewModel room1 None)) as [s|] eqn:Hrun;
    [|vm_compute in Hrun; discriminate Hrun].
  destruct (one_timeline_view_model _ _ _ _ Hrun) as (Hle & Hiff & _).
  split; [|split; [|done]]; vm_compute in Hrun; by injection Hrun as <-.
Defined.

(** The lifecycle matters for the timeline view model: [load()] has no
    guard, and an owner that calls it twice gets two timeline view models,
    both tracked, the field referring to the second. *)
Example two_loads_two_timelines :
  let s1 := exec load (exec load (new_RoomViewModel room1 None)) in
  match steps [openTimeline_settled (Resolved 7%nat);
               openTimeline_settled (Resolved 8%nat)] s1 with
  | Some s =>
      count is_timeline_created (trace s) = 2%nat
      ∧ _timelineVM s = Some (TimelineViewModel 3 8)
      ∧ disposables s
        = [CallSubscription 1; TimelineViewModel 2 7; TimelineViewModel 3 8]
  | None => False
  end.
Proof. vm_compute. done. Qed.

(** X4. In every state a room view model can reach, [_createTile] gives a
    tile only when the timeline view model is attached and the tile class
    function knows a class for the entry; the tile is then made of that
    class, the entry, and the tile options of the timeline of the timeline
    view model.  Before [openTimeline()] has resolved it gives undefined
    for every entry. *)
Theorem createTile_needs_the_timeline {Entry TileClass : Type}
    (tileClassForEntry : Entry → option TileClass)
    (room : Room) (picked : option Call) (inputs : list Input) (s : State)
    (entry : Entry) :
  steps inputs (new_RoomViewModel room picked) = Some s →
  match _createTile tileClassForEntry entry s with
  | Some tile =>
      tileClassForEntry entry = Some (tile_class tile)
      ∧ tile_entry tile = entry
      ∧ (∃ h, _timelineVM s = Some (TimelineViewModel h (tile_options tile)))
      ∧ existsb is_opened inputs = true
  | None =>
      tileClassForEntry entry = None
      ∨ (_timelineVM s = None ∧ existsb is_opened inputs = false)
  end.
Proof.
  intros Hrun. pose proof (reachable_timeline _ _ _ _ Hrun) as Hinv.
  pose proof (timeline_iff_opened _ _ _ _ Hrun) as Hiff.
  unfold Inv_timeline in Hinv. unfold _createTile.
  destruct (_timelineVM s) as [vm|].
  - destruct Hinv as (h & timeline & -> & -> & _).
    destruct (tileClassForEntry entry) as [T|]; simpl; [|by left].
    repeat split; [by exists h|]. by apply Hiff.
  - destruct Hinv as [_ ->]. right. split; [done|].
    destruct (existsb is_opened inputs); [|done].
    by destruct (proj2 Hiff eq_refl).
Qed.

Lemma createTile_needs_the_timeline_witness :
  let tileClassForEntry := λ entry : nat, if Nat.even entry then Some "TextTile" else None in
  match steps [call_load; openTimeline_settled (Resolved 7%nat)]
              (new_RoomViewModel room1 None) with
  | Some s =>
      _createTile tileClassForEntry 4%nat s
      = Some {| tile_class := "TextTile"; tile_entry := 4%nat; tile_options := 7%nat |}
      ∧ _createTile tileClassForEntry 5%nat s = None
      ∧ _createTile tileClassForEntry 4%nat (new_RoomViewModel room1 None) = None
      ∧ ∃ h, _timelineVM s = Some (TimelineViewModel h 7)
  | None => False
  end.
Proof.
  intros tileClassForEntry.
  destruct (steps _ (new_RoomViewModel room1 None)) as [s|] eqn:Hrun;
    [|vm_compute in Hrun; discriminate Hrun].
  pose proof (createTile_needs_the_timeline tileClassForEntry _ _ _ _ 4%nat Hrun)
    as Htile.
  assert (_createTile tileClassForEntry 4%nat s
          = Some {| tile_class := "TextTile"; tile_entry := 4%nat;
                    tile_options := 7%nat |}) as Heq
    by (vm_compute in Hrun; by injection Hrun as <-).
  rewrite Heq in Htile. destruct Htile as (_ & _ & Htl & _).
  split; [done|]. split; [|split; [done|exact Htl]].
  vm_compute in Hrun. by injection Hrun as <-.
Defined.

(** X5. When [load()] was called and [openTimeline()] resolves with a
    timeline, no timeline view model was attached before; a new one is
    constructed for that timeline, becomes [timelineViewModel], and (before
    [dispose()]) is tracked; the tile options hold the timeline; the change
    of "timelineViewModel" is emitted after the construction; nothing is
    reported; and the scheduling of the unread-clear runs afterwards, so
    that in a room that is not archived a timeout is held. *)
Theorem load_success (room : Room) (picked : option Call) (inputs : list Input)
    (s s' : State) (timeline : nat) :
  steps inputs (new_RoomViewModel room picked) = Some s →
  step (openTimeline_settled (Resolved timeline)) s = Some s' →
  let vm := TimelineViewModel (nextHandle s) timeline in
  _timelineVM s = None ∧ (Constructed vm ∉ trace s)
  ∧ _timelineVM s' = Some vm ∧ _tileOptions s' = Some timeline
  ∧ (isDisposed s = false → disposables s' = disposables s ++ [vm])
  ∧ news s s'
    = [Constructed vm; EmitChange None (Some "timelineViewModel")]
      ++ (if isArchived (_room s) || bool_decide (is_Some (_clearUnreadTimout s))
          then [] else [TimeoutCreated (length (timeouts s)) 2000])
  ∧ reported (news s s') = []
  ∧ (isArchived (_room s) = false → is_Some (_clearUnreadTimout s')).
Proof.
  intros Hrun Hstep vm.
  destruct (reachable_load _ _ _ _ Hrun) as [_ Hnone].
  pose proof (reachable_objects _ _ _ _ Hrun) as Hobj.
  assert (AwaitOpenTimeline ∈ awaiting s) as Hin.
  { simpl in Hstep. unfold resume in Hstep. by case_decide. }
  apply step_opened in Hstep as (Htl & Htiles & Hds & Htr & Hfield).
  split; [by apply Hnone|]. split.
  { intros Hc. pose proof (tk_fresh _ _ _ (io_track _ Hobj) vm (or_introl Hc)) as Hlt.
    simpl in Hlt. lia. }
  split; [done|]. split; [done|]. split; [done|].
  unfold news. rewrite Htr, drop_app_length. split; [done|]. split.
  { by destruct (isArchived (_room s) || bool_decide (is_Some (_clearUnreadTimout s))). }
  intros Harch. rewrite Hfield, Harch. by destruct (_clearUnreadTimout s).
Qed.

Lemma load_success_witness :
  match steps [call_load] (new_RoomViewModel room1 None) with
  | Some s =>
      match step (openTimeline_settled (Resolved 7%nat)) s with
      | Some s' =>
          _timelineVM s' = Some (TimelineViewModel 2 7)
          ∧ disposables s' = [CallSubscription 1; TimelineViewModel 2 7]
          ∧ news s s'
            = [Constructed (TimelineViewModel 2 7);
               EmitChange None (Some "timelineViewModel"); TimeoutCreated 0 2000]
          ∧ _timelineVM s = None ∧ reported (news s s') = []
      | None => False
      end
  | None => False
  end.
Proof.
  destruct (steps [call_load] (new_RoomViewModel room1 None)) as [s|] eqn:Hrun;
    [|vm_compute in Hrun; discriminate Hrun].
  destruct (step (openTimeline_settled (Resolved 7%nat)) s) as [s'|] eqn:Hstep;
    [|vm_compute in Hrun; injection Hrun as <-; vm_compute in Hstep;
      discriminate Hstep].
  destruct (load_success _ _ _ _ _ _ Hrun Hstep) as (Hnone & _ & _ & _ & _ & _ & Hrep & _).
  vm_compute in Hrun. injection Hrun as <-.
  vm_compute in Hstep. injection Hstep as <-.
  repeat split; try done.
Defined.

(** X6. A view model of an archived room never schedules the unread-clear:
    in every state it can reach, the clock was asked for no timeout,
    [_clearUnreadTimout] is null, and [clearUnread()] was never called on
    the room. *)
Theorem archived_room_is_never_cleared (room : Room) (picked : option Call)
    (inputs : list Input) (s : State) :
  isArchived room = true →
  steps inputs (new_RoomViewModel room picked) = Some s →
  timeouts s = [] ∧ created (trace s) = [] ∧ _clearUnreadTimout s = None
  ∧ count is_clearUnread (trace s) = 0%nat.
Proof.
  intros Harch Hrun. destruct (reachable_fixed _ _ _ _ Hrun) as [Hroom _].
  pose proof (reachable_archived _ _ _ _ Hrun) as Ha. unfold Inv_archived in Ha.
  rewrite Hroom in Ha. destruct (Ha Harch) as [Ht Hf].
  destruct (reachable_clears _ _ _ _ Hrun) as [Hcount Hcreated].
  rewrite Ht in *. done.
Qed.

Lemma archived_room_is_never_cleared_witness :
  match steps [call_focus; call_load; openTimeline_settled (Resolved 7%nat);
               call_focus; call_dispose]
              (new_RoomViewModel archive1 None) with
  | Some s =>
      is_Some (_timelineVM s)
      ∧ timeouts s = [] ∧ created (trace s) = [] ∧ _clearUnreadTimout s = None
      ∧ count is_clearUnread (trace s) = 0%nat
  | None => False
  end.
Proof.
  destruct (steps _ (new_RoomViewModel archive1 None)) as [s|] eqn:Hrun;
    [|vm_compute in Hrun; discriminate Hrun].
  split; [vm_compute in Hrun; by injection Hrun as <-|].
  exact (archived_room_is_never_cleared archive1 None _ s eq_refl Hrun).
Defined.

(** X7. In every state a room view model can reach, [clearUnread()] was
    called on the room exactly as often as a timeout of the clock has
    elapsed - so never before the delay has passed, and never for a timeout
    that was aborted - and the timeouts the clock was asked for are
    numbered in the order of their creation, each with a delay of 2000 ms. *)
Theorem clearUnread_once_per_elapsed_timeout (room : Room) (picked : option Call)
    (inputs : list Input) (s : State) :
  steps inputs (new_RoomViewModel room picked) = Some s →
  count is_clearUnread (trace s) = tally isElapsed (timeouts s)
  ∧ created (trace s) = (λ t, (t, 2000)) <$> seq 0 (length (timeouts s)).
Proof. apply reachable_clears. Qed.

Lemma clearUnread_once_per_elapsed_timeout_witness :
  match steps [call_focus; timeout_elapsed 0; clearUnread_settled 0 (Resolved tt);
               call_focus; call_dispose; abort_observed 1]
              (new_RoomViewModel room1 None) with
  | Some s =>
      timeouts s = [Elapsed; Aborted]
      ∧ count is_clearUnread (trace s) = 1%nat
      ∧ created (trace s) = [(0%nat, 2000); (1%nat, 2000)]
  | None => False
  end.
Proof.
  destruct (steps _ (new_RoomViewModel room1 None)) as [s|] eqn:Hrun;
    [|vm_compute in Hrun; discriminate Hrun].
  destruct (clearUnread_once_per_elapsed_timeout _ _ _ _ Hrun) as [Hcount Hcreated].
  assert (timeouts s = [Elapsed; Aborted]) as Ht
    by (vm_compute in Hrun; by injection Hrun as <-).
  rewrite Ht in Hcount, Hcreated. done.
Defined.

Lemma Inv_late_new (room : Room) (picked : option Call) :
  Inv_late (new_RoomViewModel room picked).
Proof.
  by rewrite new_RoomViewModel_eq.
Qed.

Lemma Inv_late_frame (s s' : State) :
  isDisposed s' = isDisposed s → _clearUnreadTimout s' = _clearUnreadTimout s →
  tally isOpen (awaiting s') = tally isOpen (awaiting s) →
  Inv_late s → Inv_late s'.
Proof. unfold Inv_late. by intros -> -> ->. Qed.

Lemma Inv_late_step (i : Input) (s s' : State) :
  Inv_timers s → Inv_late s → step i s = Some s' → Inv_late s'.
Proof.
  intros Htim Hinv Hstep. step_cases Hstep.
  - unfold Inv_late. unfold_M. simpl. congruence.
  - unfold Inv_late. unfold_M. simpl. destruct (isArchived (_room s)); simpl; [fin|].
    destruct (_clearUnreadTimout s); simpl; fin.
  - destruct (dispose_effect s) as [sub ->]. unfold Inv_late. simpl. by left.
  - destruct (listening s); [|done]. by unfold_M.
  - destruct (subscribed s); [|done].
    destruct (onCallPicked_same_timers delivered (set_callObservable delivered s))
      as (_ & Ha & Hf & Hd & _).
    eapply Inv_late_frame; [exact Hd|exact Hf|by rewrite Ha|done].
  - rename H into Hin.
    assert (tally isOpen (remove_first AwaitOpenTimeline (awaiting s)) = 0%nat) as Hgone.
    { pose proof (tally_remove_first_true isOpen _ _ Hin eq_refl).
      pose proof (it_open _ Htim). lia. }
    unfold Inv_late. intros _. right. rewrite load_resumed_eq. unfold_M.
    destruct r as [timeline|e]; simpl;
      (destruct (isArchived (_room s)); simpl; [done|]);
      (destruct (_clearUnreadTimout s); simpl; [done|]);
      by rewrite tally_snoc, Hgone.
  - eapply Inv_late_frame; [| | |exact Hinv]; unfold_M; simpl; try done.
    by rewrite tally_snoc, tally_remove_first_false, Nat.add_0_r.
  - eapply Inv_late_frame; [| | |exact Hinv]; unfold_M; simpl; try done.
    by rewrite tally_remove_first_false.
  - destruct r as [[]|e]; unfold_M; simpl.
    + unfold Inv_late. simpl. by left.
    + case_bool_decide; simpl;
        (eapply Inv_late_frame; [| | |exact Hinv]; simpl; try done;
         by rewrite tally_remove_first_false).
Qed.

Lemma reachable_late (room : Room) (picked : option Call) (inputs : list Input)
    (s : State) :
  steps inputs (new_RoomViewModel room picked) = Some s → Inv_late s.
Proof.
  intros Hrun.
  assert (Inv_timers s ∧ Inv_late s) as [_ ?]; [|done].
  revert Hrun. apply (steps_invariant (λ s, Inv_timers s ∧ Inv_late s)).
  - intros i s0 s1 [Ht Hl] Hstep.
    split; [by eapply Inv_timers_step|by eapply Inv_late_step].
  - split; [apply Inv_timers_new|apply Inv_late_new].
Qed.

Lemma focus_arms (s : State) :
  isArchived (_room s) = false → _clearUnreadTimout s = None →
  exec focus s
  = set_awaiting (awaiting s ++ [AwaitElapsed (length (timeouts s))])
      (set_clearUnreadTimout (Some (length (timeouts s)))
         (set_trace (trace s ++ [TimeoutCreated (length (timeouts s)) 2000])
            (set_timeouts (timeouts s ++ [Pending]) s))).
Proof. intros Harch Hf. unfold_M. simpl. by rewrite Harch, Hf. Qed.

(** X8. When the view model of a room that is not archived is disposed
    while [load()] awaits [openTimeline()], the rest of [load()] still runs
    when [openTimeline()] settles, resolved or rejected: it asks the clock
    for a new timeout of 2000 ms and keeps it in [_clearUnreadTimout],
    and when that timeout elapses [clearUnread()] is called on the room,
    although the view model is disposed. *)
Theorem load_completing_after_dispose (room : Room) (picked : option Call)
    (inputs : list Input) (s s' : State) (r : Outcome nat) :
  steps inputs (new_RoomViewModel room picked) = Some s →
  isDisposed s = true → isArchived room = false →
  step (openTimeline_settled r) s = Some s' →
  let t := length (timeouts s) in
  _clearUnreadTimout s = None
  ∧ timeouts s' = timeouts s ++ [Pending] ∧ _clearUnreadTimout s' = Some t
  ∧ TimeoutCreated t 2000 ∈ news s s'
  ∧ isDisposed s' = true
  ∧ ∃ s'', step (timeout_elapsed t) s' = Some s''
           ∧ news s' s'' = [RoomClearUnread].
Proof.
  intros Hrun Hd Harch Hstep t.
  destruct (reachable_fixed _ _ _ _ Hrun) as [Hroom _].
  pose proof (reachable_late _ _ _ _ Hrun Hd) as Hlate.
  simpl in Hstep. unfold resume in Hstep. case_decide as Hin; [|done].
  injection Hstep as <-.
  assert (_clearUnreadTimout s = None) as Hf.
  { destruct Hlate as [?|Hopen]; [done|].
    pose proof (tally_elem_of isOpen _ _ Hin eq_refl). lia. }
  split; [done|]. rewrite load_resumed_eq.
  set (s0 := attached r (set_awaiting (remove_first AwaitOpenTimeline (awaiting s)) s)).
  assert (isArchived (_room s0) = false ∧ _clearUnreadTimout s0 = None
          ∧ timeouts s0 = timeouts s ∧ isDisposed s0 = true
          ∧ ∃ ext, trace s0 = trace s ++ ext) as (Ha0 & Hf0 & Ht0 & Hd0 & ext & Htr0).
  { unfold s0. destruct r as [timeline|e]; simpl; rewrite ?Hroom;
      repeat split; try done; rewrite <- ?app_assoc; by eexists. }
  rewrite (focus_arms s0 Ha0 Hf0). simpl. rewrite Ht0. fold t.
  split; [done|]. split; [done|].
  split.
  { unfold news. simpl. rewrite Htr0, <- app_assoc, drop_app_length.
    apply elem_of_app. right. left. }
  split; [done|].
  rewrite lookup_app_r by done. unfold t at 1. rewrite Nat.sub_diag. simpl.
  unfold resume. simpl. rewrite decide_True by (apply elem_of_app; right; left).
  eexists. split; [reflexivity|]. unfold news. unfold_M. simpl.
  by rewrite drop_app_length.
Qed.

Lemma load_completing_after_dispose_witness :
  match steps [call_load; call_focus; call_dispose] (new_RoomViewModel room1 None) with
  | Some s =>
      match step (openTimeline_settled (Resolved 7%nat)) s with
      | Some s' =>
          isDisposed s = true ∧ timeouts s = [Aborted]
          ∧ timeouts s' = [Aborted; Pending] ∧ _clearUnreadTimout s' = Some 1%nat
          ∧ ∃ s'', step (timeout_elapsed 1) s' = Some s''
                   ∧ news s' s'' = [RoomClearUnread]
      | None => False
      end
  | None => False
  end.
Proof.
  destruct (steps _ (new_RoomViewModel room1 None)) as [s|] eqn:Hrun;
    [|vm_compute in Hrun; discriminate Hrun].
  destruct (step (openTimeline_settled (Resolved 7%nat)) s) as [s'|] eqn:Hstep;
    [|vm_compute in Hrun; injection Hrun as <-; vm_compute in Hstep;
      discriminate Hstep].
  assert (isDisposed s = true ∧ timeouts s = [Aborted]) as [Hd Ht]
    by (vm_compute in Hrun; by injection Hrun as <-).
  destruct (load_completing_after_dispose _ _ _ _ _ _ Hrun Hd eq_refl Hstep)
    as (_ & Ht' & Hf' & _ & _ & Hclear).
  rewrite Ht in Ht', Hf', Hclear. done.
Defined.

Lemma focus_noop (s : State) : is_Some (_clearUnreadTimout s) → exec focus s = s.
Proof.
  intros [t Hf]. unfold_M. simpl. rewrite Hf. simpl.
  by destruct (isArchived (_room s)).
Qed.

Lemma Stuck_step (i : Input) (s s' : State) :
  Stuck s → is_dispose i = false → step i s = Some s' →
  Stuck s' ∧ _clearUnreadTimout s' = _clearUnreadTimout s
  ∧ timeouts s' = timeouts s
  ∧ count is_clearUnread (trace s') = count is_clearUnread (trace s).
Proof.
  intros (Hd & Hf & Hnone & Hclear) Hi Hstep. unfold Stuck. step_cases Hstep.
  - unfold_M. simpl. rewrite tally_snoc, !count_app. simpl.
    repeat split; first [done | unfold count; simpl; lia].
  - rewrite (focus_noop s Hf). done.
  - done.
  - destruct (listening s); [|done]. unfold_M. simpl.
    rewrite !count_app. repeat split; first [done | unfold count; simpl; lia].
  - destruct (subscribed s); [|done].
    destruct (onCallPicked_same_timers delivered (set_callObservable delivered s))
      as (Ht & Ha & Hf' & Hd' & _).
    destruct (onCallPicked_trace delivered (set_callObservable delivered s))
      as (ext & Htr & Hext).
    rewrite Ht, Ha, Hf', Hd', Htr, count_app, (count_of_call _ ext); simpl;
      [by rewrite Nat.add_0_r|by intros []|done].
  - rewrite load_resumed_eq.
    set (s0 := attached r (set_awaiting (remove_first AwaitOpenTimeline (awaiting s)) s)).
    assert (_clearUnreadTimout s0 = _clearUnreadTimout s ∧ timeouts s0 = timeouts s
            ∧ isDisposed s0 = isDisposed s
            ∧ awaiting s0 = remove_first AwaitOpenTimeline (awaiting s)
            ∧ count is_clearUnread (trace s0) = count is_clearUnread (trace s))
      as (Hf0 & Ht0 & Hd0 & Ha0 & Hc0).
    { unfold s0. destruct r as [timeline|e]; simpl; rewrite !count_app;
        repeat split; first [done | unfold count; simpl; lia]. }
    rewrite (focus_noop s0) by by rewrite Hf0.
    rewrite Hf0, Ht0, Hd0, Ha0, Hc0, tally_remove_first_false by done. done.
  - exfalso. by eapply Hnone.
  - unfold_M. simpl. by rewrite tally_remove_first_false.
  - exfalso. pose proof (tally_elem_of isClear _ _ H eq_refl). lia.
Qed.

Lemma Stuck_steps (later : list Input) (s s' : State) :
  Stuck s → existsb is_dispose later = false → steps later s = Some s' →
  _clearUnreadTimout s' = _clearUnreadTimout s
  ∧ timeouts s' = timeouts s
  ∧ count is_clearUnread (trace s') = count is_clearUnread (trace s).
Proof.
  revert s. induction later as [|i later IH]; intros s Hs; simpl.
  - by intros _ [= <-].
  - intros [Hi Hlater]%orb_false_iff. destruct (step i s) as [s1|] eqn:Hstep; [|done].
    intros Hrun. destruct (Stuck_step _ _ _ Hs Hi Hstep) as (Hs1 & Hf & Ht & Hc).
    rewrite <- Hf, <- Ht, <- Hc. by apply IH.
Qed.

(** X9. Once [clearUnread()] has failed, the unread-clear is never tried
    again before [dispose()]: the error (unless its name is "AbortError",
    which the catch clause swallows) is raised again as an unhandled
    rejection and is not reported, [_clearUnreadTimout] keeps referring to
    the elapsed timeout, and whatever happens afterwards - calls of
    [focus()], the end of [load()], updates of the pick observable - no
    further timeout is created and [clearUnread()] is not called again. *)
Theorem failed_clearUnread_is_never_retried (room : Room) (picked : option Call)
    (inputs later : list Input) (s s1 s2 : State) (t : nat) (e : Error) :
  steps inputs (new_RoomViewModel room picked) = Some s →
  isDisposed s = false →
  step (clearUnread_settled t (Rejected e)) s = Some s1 →
  existsb is_dispose later = false →
  steps later s1 = Some s2 →
  reported (news s s1) = []
  ∧ unhandled (news s s1) = (if bool_decide (err_name e ≠ "AbortError") then [e] else [])
  ∧ (∃ t0, _clearUnreadTimout s1 = Some t0 ∧ timeouts s1 !! t0 = Some Elapsed)
  ∧ _clearUnreadTimout s2 = _clearUnreadTimout s1
  ∧ timeouts s2 = timeouts s1
  ∧ count is_clearUnread (trace s2) = count is_clearUnread (trace s1).
Proof.
  intros Hrun Hd Hstep Hlater Hrun2.
  pose proof (reachable_timers _ _ _ _ Hrun) as Htim.
  simpl in Hstep. unfold resume in Hstep. case_decide as Hin; [|done].
  injection Hstep as <-.
  pose proof (tally_remove_first_true isClear _ _ Hin eq_refl) as Hone.
  pose proof (it_clear _ Htim Hd) as Hle.
  destruct (it_cleared _ Htim Hd) as (t0 & Hf & Ht0); [lia|].
  assert (Stuck (exec (_clearUnreadAfterDelay_cleared (Rejected e))
                   (set_awaiting (remove_first (AwaitClearUnread t) (awaiting s)) s)))
    as Hstuck.
  { unfold Stuck. unfold_M. simpl. case_bool_decide; simpl;
      (split; [done|]); (split; [by rewrite Hf|]); (split; [|lia]);
      intros t' Ht'; pose proof (it_field _ Htim Hd _ Ht'); congruence. }
  destruct (Stuck_steps _ _ _ Hstuck Hlater Hrun2) as (Hf2 & Ht2 & Hc2).
  rewrite Hf2, Ht2, Hc2. unfold news. unfold_M. simpl.
  case_bool_decide; simpl; rewrite ?drop_app_length, ?drop_all;
    repeat split; try done; by exists t0.
Qed.

Lemma failed_clearUnread_is_never_retried_witness :
  match steps [call_load; call_focus; timeout_elapsed 0] (new_RoomViewModel room1 None) with
  | Some s =>
      match step (clearUnread_settled 0 (Rejected boom)) s with
      | Some s1 =>
          match steps [call_focus; openTimeline_settled (Resolved 7%nat);
                       pick_update (Some callA); call_focus] s1 with
          | Some s2 =>
              unhandled (news s s1) = [boom]
              ∧ _clearUnreadTimout s2 = Some 0%nat ∧ timeouts s2 = [Elapsed]
              ∧ count is_clearUnread (trace s2) = 1%nat
          | None => False
          end
      | None => False
      end
  | None => False
  end.
Proof.
  destruct (steps _ (new_RoomViewModel room1 None)) as [s|] eqn:Hrun;
    [|vm_compute in Hrun; discriminate Hrun].
  assert (isDisposed s = false) as Hd
    by (vm_compute in Hrun; by injection Hrun as <-).
  destruct (step (clearUnread_settled 0 (Rejected boom)) s) as [s1|] eqn:Hstep;
    [|vm_compute in Hrun; injection Hrun as <-; vm_compute in Hstep;
      discriminate Hstep].
  destruct (steps _ s1) as [s2|] eqn:Hrun2;
    [|vm_compute in Hrun; injection Hrun as <-; vm_compute in Hstep;
      injection Hstep as <-; vm_compute in Hrun2; discriminate Hrun2].
  destruct (λ Hlater, failed_clearUnread_is_never_retried _ _ _ _ _ _ _ _ _
                        Hrun Hd Hstep Hlater Hrun2) as (_ & Hun & _ & Hf & Ht & Hc);
    [reflexivity|].
  rewrite Hf, Ht, Hc.
  vm_compute in Hrun. injection Hrun as <-.
  vm_compute in Hstep. injection Hstep as <-. done.
Defined.

(** X18. In every state a room view model can reach before it is disposed,
    an update of the pick observable with a call of another id than the
    current call view model's, or with no call, replaces the call view
    model in this order: the current one, if there is one, is disposed and
    no longer tracked; then a new one, if a call was picked, is constructed
    and tracked; then the change of "callViewModel" is emitted - also when
    there was no call view model and none is created.  An update with a
    call of the same id changes nothing. *)
Theorem call_view_model_is_replaced_in_order (room : Room) (picked : option Call)
    (inputs : list Input) (s s' : State) (call : option Call) :
  steps inputs (new_RoomViewModel room picked) = Some s →
  isDisposed s = false →
  step (pick_update call) s = Some s' →
  if same_call call (_callViewModel s) then s' = set_callObservable call s
  else
    let vm' := CallViewModel (nextHandle s) <$> call in
    news s s'
    = option_list (Disposed <$> _callViewModel s)
      ++ option_list (Constructed <$> vm')
      ++ [EmitChange None (Some "callViewModel")]
    ∧ _callViewModel s' = vm'
    ∧ disposables s'
      = from_option (λ vm, remove_first vm (disposables s)) (disposables s)
          (_callViewModel s)
        ++ option_list vm'
    ∧ (∀ vm, _callViewModel s = Some vm → vm ∈ disposables s ∧ vm ∉ disposables s').
Proof.
  intros Hrun Hd Hstep. pose proof (reachable_objects _ _ _ _ Hrun) as Hobj.
  destruct (reachable_pick _ _ _ _ Hrun Hd) as [Hsub _].
  pose proof (io_call _ Hobj) as Hin.
  pose proof (tk_nodup _ _ _ (io_track _ Hobj)) as Hnd.
  pose proof (tk_fresh _ _ _ (io_track _ Hobj)) as Hfresh.
  pose proof (tk_tracked _ _ _ (io_track _ Hobj)) as Htracked.
  simpl in Hstep. rewrite Hsub in Hstep. injection Hstep as <-.
  unfold same_call, news. unfold_M. simpl.
  destruct (_callViewModel s) as [vm|] eqn:Hvm.
  - specialize (Hin vm eq_refl Hd).
    pose proof (cl_field _ _ _ (io_calls _ Hobj) vm Hvm) as Hcall.
    destruct (NoDup_remove_first vm _ Hnd) as [_ Hgone].
    assert (∀ c, vm ≠ CallViewModel (nextHandle s) c) as Hne.
    { intros c ->. destruct (Htracked _ Hin) as (_ & _ & Hc).
      pose proof (Hfresh _ (or_introl Hc)) as Hlt. simpl in Hlt. lia. }
    destruct vm as [| | |h0 c0|]; try done.
    destruct call as [c|]; simpl.
    + case_bool_decide; simpl; [done|]. rewrite decide_True by done. simpl.
      rewrite <- !app_assoc, drop_app_length.
      do 3 (split; [done|]). intros ? [= <-]. split; [done|].
      rewrite elem_of_app, list_elem_of_singleton.
      intros [?|?]; [done|]. by eapply Hne.
    + rewrite decide_True by done. simpl.
      rewrite <- !app_assoc, drop_app_length. rewrite app_nil_r.
      do 3 (split; [done|]). by intros ? [= <-].
  - destruct call as [c|]; simpl; rewrite <- ?app_assoc, drop_app_length;
      rewrite ?app_nil_r; done.
Qed.

Lemma call_view_model_is_replaced_in_order_witness :
  match steps [call_load] (new_RoomViewModel room1 (Some callA)) with
  | Some s =>
      match step (pick_update (Some callB)) s with
      | Some s' =>
          news s s'
          = [Disposed (CallViewModel 2 callA); Constructed (CallViewModel 3 callB);
             EmitChange None (Some "callViewModel")]
          ∧ disposables s' = [CallSubscription 1; CallViewModel 3 callB]
      | None => False
      end
  | None => False
  end.
Proof.
  destruct (steps [call_load] (new_RoomViewModel room1 (Some callA))) as [s|] eqn:Hrun;
    [|vm_compute in Hrun; discriminate Hrun].
  destruct (step (pick_update (Some callB)) s) as [s'|] eqn:Hstep;
    [|vm_compute in Hrun; injection Hrun as <-; vm_compute in Hstep;
      discriminate Hstep].
  assert (isDisposed s = false) as Hd
    by (vm_compute in Hrun; by injection Hrun as <-).
  pose proof (call_view_model_is_replaced_in_order _ _ _ _ _ _ Hrun Hd Hstep) as Hthm.
  vm_compute in Hrun. injection Hrun as <-.
  vm_compute in Hstep. injection Hstep as <-.
  destruct Hthm as (Hnews & _ & Hds & _). split; [exact Hnews|exact Hds].
Defined.

Lemma remove_first_Permutation (x : Obj) (l : list Obj) :
  x ∈ l → l ≡ₚ x :: remove_first x l.
Proof.
  induction l as [|y l IH]; simpl; [by intros ?%elem_of_nil|].
  case_decide as Hxy; [by subst|].
  intros [?|Hin]%elem_of_cons; [done|]. rewrite (IH Hin) at 1. apply perm_swap.
Qed.

Lemma Inv_tracked_new (room : Room) (picked : option Call) :
  Inv_tracked (new_RoomViewModel room picked).
Proof. rewrite new_RoomViewModel_eq. intros _. simpl. by destruct picked. Qed.

Lemma Inv_tracked_frame (s s' : State) :
  isDisposed s' = isDisposed s → disposables s' = disposables s →
  _timelineVM s' = _timelineVM s → _callViewModel s' = _callViewModel s →
  Inv_tracked s → Inv_tracked s'.
Proof. unfold Inv_tracked. by intros -> -> -> ->. Qed.

Lemma focus_keeps_objects (s : State) :
  isDisposed (exec focus s) = isDisposed s
  ∧ disposables (exec focus s) = disposables s
  ∧ _timelineVM (exec focus s) = _timelineVM s
  ∧ _callViewModel (exec focus s) = _callViewModel s.
Proof.
  unfold_M. simpl. destruct (isArchived (_room s)); simpl; [done|].
  by destruct (_clearUnreadTimout s).
Qed.

Lemma Inv_tracked_step (i : Input) (s s' : State) :
  Inv_objects s → Inv_load s → Inv_pick s → Inv_tracked s →
  step i s = Some s' → Inv_tracked s'.
Proof.
  intros Hobj Hload Hpick Hinv Hstep. step_cases Hstep.
  - eapply Inv_tracked_frame; [| | | |exact Hinv]; by unfold_M.
  - destruct (focus_keeps_objects s) as (? & ? & ? & ?).
    by eapply Inv_tracked_frame; [| | | |exact Hinv].
  - destruct (dispose_effect s) as [sub ->]. unfold Inv_tracked. done.
  - destruct (listening s); [|done].
    eapply Inv_tracked_frame; [| | | |exact Hinv]; by unfold_M.
  - assert (Inv_tracked (set_callObservable delivered s)) as Hinv' by done.
    destruct (subscribed s) eqn:Hsub; [|done].
    unfold Inv_tracked in *. unfold_M. simpl.
    pose proof (cl_field _ _ _ (io_calls _ Hobj)) as Hfield.
    destruct (_callViewModel s) as [vm|] eqn:Hvm.
    + specialize (Hfield vm eq_refl). destruct vm as [| | |h0 c0|]; try done.
      set (vm := CallViewModel h0 c0) in *.
      destruct delivered as [c|]; simpl.
      * case_bool_decide; simpl; [by rewrite Hvm|].
        case_decide as Hin; simpl.
        -- intros Hd. specialize (Hinv Hd).
           rewrite (remove_first_Permutation vm _ Hin) in Hinv.
           rewrite app_comm_cons, (Permutation_app_comm _ [vm]) in Hinv.
           simpl in Hinv. apply Permutation_cons_inv in Hinv. rewrite Hinv.
           by rewrite app_comm_cons.
        -- intros Hd. exfalso. apply Hin. by apply (io_call _ Hobj).
      * case_decide as Hin; simpl.
        -- intros Hd. specialize (Hinv Hd).
           rewrite (remove_first_Permutation vm _ Hin) in Hinv.
           rewrite app_comm_cons, (Permutation_app_comm _ [vm]) in Hinv.
           simpl in Hinv. apply Permutation_cons_inv in Hinv. rewrite Hinv.
           by rewrite app_nil_r.
        -- intros Hd. exfalso. apply Hin. by apply (io_call _ Hobj).
    + destruct delivered as [c|]; simpl; intros Hd; specialize (Hinv Hd);
        rewrite app_nil_r in Hinv; rewrite Hinv; [|by rewrite app_nil_r].
      by rewrite app_comm_cons.
  - rename H into Hin. destruct Hload as [_ Hnone]. specialize (Hnone Hin).
    rewrite load_resumed_eq.
    destruct (focus_keeps_objects
                (attached r (set_awaiting (remove_first AwaitOpenTimeline (awaiting s)) s)))
      as (Hd' & Hds' & Htl' & Hc').
    unfold Inv_tracked in *. rewrite Hd', Hds', Htl', Hc'.
    destruct r as [timeline|e]; simpl; [|done].
    intros Hd. specialize (Hinv Hd). rewrite Hnone in Hinv. simpl in Hinv.
    rewrite Hinv. simpl. apply Permutation_skip.
    by rewrite (Permutation_app_comm _ [_]).
  - eapply Inv_tracked_frame; [| | | |exact Hinv]; by unfold_M.
  - eapply Inv_tracked_frame; [| | | |exact Hinv]; by unfold_M.
  - eapply Inv_tracked_frame; [| | | |exact Hinv]; unfold_M;
      destruct r as [[]|e]; simpl; try done; by case_bool_decide.
Qed.

Lemma reachable_tracked (room : Room) (picked : option Call) (inputs : list Input)
    (s : State) :
  steps inputs (new_RoomViewModel room picked) = Some s → Inv_tracked s.
Proof.
  intros Hrun.
  assert ((Inv_timers s ∧ Inv_objects s ∧ Inv_load s ∧ Inv_pick s) ∧ Inv_tracked s)
    as [_ ?]; [|done].
  revert Hrun.
  apply (steps_invariant
           (λ s, (Inv_timers s ∧ Inv_objects s ∧ Inv_load s ∧ Inv_pick s)
                 ∧ Inv_tracked s)).
  - intros i s0 s1 [(Ht & Ho & Hl & Hp) Hk] Hstep.
    split; [split; [|split; [|split]]|].
    + by eapply Inv_timers_step.
    + by eapply Inv_objects_step.
    + by eapply Inv_load_step.
    + by eapply Inv_pick_step.
    + by eapply Inv_tracked_step.
  - split; [split; [|split; [|split]]|];
      [apply Inv_timers_new|apply Inv_objects_new|apply Inv_load_new
      |apply Inv_pick_new|apply Inv_tracked_new].
Qed.

(** X19. In every state a room view model can reach before it is disposed,
    when its owner calls [load()] once (the lifecycle of section 3 of the
    specification, which the event loop follows), the tracked objects are
    exactly the subscription on the pick observable, the timeline view
    model if there is one and the call view model if there is one, each
    once: replaced call view models do not pile up, and never more than
    three objects are tracked.  A second [load()] would track a second
    timeline view model: see [two_loads_two_timelines]. *)
Theorem tracked_objects (room : Room) (picked : option Call)
    (inputs : list Input) (s : State) :
  steps inputs (new_RoomViewModel room picked) = Some s →
  isDisposed s = false →
  disposables s
  ≡ₚ CallSubscription 1 :: option_list (_timelineVM s) ++ option_list (_callViewModel s)
  ∧ NoDup (disposables s)
  ∧ (length (disposables s) ≤ 3)%nat.
Proof.
  intros Hrun Hd. pose proof (reachable_tracked _ _ _ _ Hrun Hd) as Hperm.
  pose proof (reachable_objects _ _ _ _ Hrun) as Hobj.
  split; [done|]. split; [apply (tk_nodup _ _ _ (io_track _ Hobj))|].
  rewrite Hperm. simpl. rewrite length_app.
  destruct (_timelineVM s), (_callViewModel s); simpl; lia.
Qed.

Lemma tracked_objects_witness :
  match steps [pick_update (Some callB); call_load; pick_update (Some callA);
               openTimeline_settled (Resolved 7%nat); pick_update (Some callB)]
              (new_RoomViewModel room1 (Some callA)) with
  | Some s =>
      disposables s
      = [CallSubscription 1; TimelineViewModel 5 7; CallViewModel 6 callB]
      ∧ (length (disposables s) ≤ 3)%nat
  | None => False
  end.
Proof.
  destruct (steps _ (new_RoomViewModel room1 (Some callA))) as [s|] eqn:Hrun;
    [|vm_compute in Hrun; discriminate Hrun].
  assert (isDisposed s = false) as Hd
    by (vm_compute in Hrun; by injection Hrun as <-).
  destruct (tracked_objects _ _ _ _ Hrun Hd) as (_ & _ & Hlen).
  split; [|done]. vm_compute in Hrun. by injection Hrun as <-.
Defined.

(** X20. [startReply] calls [setReplyingTo] only on a ComposerViewModel:
    in every state a room view model can reach, it makes the call, with the
    entry, on the composer that the constructor created when the room is
    not archived, and makes no call when the room is archived, where the
    composer is an ArchivedViewModel, which has no such method. *)
Theorem startReply_reaches_a_composer (room : Room) (picked : option Call)
    (inputs : list Input) (s : State) (entry : nat) :
  steps inputs (new_RoomViewModel room picked) = Some s →
  match startReply entry s with
  | Some (receiver, e) =>
      isArchived room = false ∧ receiver = Some (ComposerViewModel 0) ∧ e = entry
  | None => isArchived room = true ∧ _composerVM s = Some (ArchivedViewModel 0)
  end.
Proof.
  intros Hrun. destruct (reachable_fixed _ _ _ _ Hrun) as [Hroom Hcomposer].
  unfold startReply. rewrite Hroom, Hcomposer. unfold composer_of.
  by destruct (isArchived room).
Qed.

Lemma startReply_reaches_a_composer_witness :
  match steps [call_load; call_focus] (new_RoomViewModel room1 None) with
  | Some s => startReply 5 s = Some (Some (ComposerViewModel 0), 5%nat)
  | None => False
  end
  ∧ match steps [call_load; call_focus] (new_RoomViewModel archive1 None) with
    | Some s => startReply 5 s = None
    | None => False
    end.
Proof.
  split.
  - destruct (steps _ (new_RoomViewModel room1 None)) as [s|] eqn:Hrun;
      [|vm_compute in Hrun; discriminate Hrun].
    pose proof (startReply_reaches_a_composer _ _ _ _ 5%nat Hrun) as Hthm.
    destruct (startReply 5 s) as [[receiver e]|].
    + by destruct Hthm as (_ & -> & ->).
    + by destruct Hthm as [? _].
  - destruct (steps _ (new_RoomViewModel archive1 None)) as [s|] eqn:Hrun;
      [|vm_compute in Hrun; discriminate Hrun].
    pose proof (startReply_reaches_a_composer _ _ _ _ 5%nat Hrun) as Hthm.
    destruct (startReply 5 s) as [[receiver e]|]; [|done].
    by destruct Hthm as [? _].
Defined.

(** ** More on the send commands *)

(** Case analysis over what the environment answers and over the branches
    of a command, keeping the equations. *)
Ltac run_paths :=
  repeat match goal with
    | |- context [?env ?X ?op ?tr] =>
        match type of env with Env => idtac end;
        destruct (env X op tr) as [?|?]; simpl
    | |- context [negb (startsWith ?a ?b)] => destruct (startsWith a b) eqn:?; simpl
    | |- context [if negb ?b then _ else _] => destruct b; simpl
    | |- context [match truthy_number ?b with _ => _ end] =>
        destruct (truthy_number b) eqn:?; simpl
    | |- context [if (?a >? ?b) then _ else _] => destruct (a >? b) eqn:?; simpl
    | |- context [if bool_decide (err_mediaCode ?e = Some 4) then _ else _] =>
        destruct (bool_decide (err_mediaCode e = Some 4)) eqn:?; simpl
    | |- context [match ?r with Some _ => _ | None => _ end] =>
        destruct r; simpl
    end.

(** The end of a path: the new state and the outcome are known. *)
Ltac end_path :=
  intros [= <- <-]; unfold news; simpl;
  rewrite <- ?app_assoc; simpl; rewrite ?drop_app_length, ?drop_all; simpl.

Lemma sendMessage_orderly (env : Env) (s s' : State) (o : Outcome JsValue)
    (message : jsstring) (replyingTo : option nat) :
  _sendMessage env message replyingTo s = (s', o) → orderly s s'.
Proof.
  unfold orderly. unfold_command.
  destruct (isArchived (_room s)); simpl;
    [|destruct message as [|c message]; simpl;
      [|destruct (startsWith (c :: message) (js "/me ")), replyingTo; simpl;
        run_paths]];
    end_path; unfold count, failures, reported; simpl;
    repeat split; first [done | lia | rewrite ?app_nil_r; by destruct s].
Qed.

Lemma sendFile_orderly (env : Env) (s s' : State) (o : Outcome JsValue) (file : File) :
  _sendFile env file s = (s', o) → orderly s s'.
Proof.
  unfold orderly. unfold_command. run_paths; end_path;
    unfold count, failures, reported; simpl;
    repeat split; first [done | lia | rewrite ?app_nil_r; by destruct s].
Qed.

Lemma pickAndSendFile_orderly (env : Env) (s s' : State) (o : Outcome JsValue) :
  _pickAndSendFile env s = (s', o) → orderly s s'.
Proof.
  unfold orderly. unfold_command. run_paths; end_path;
    unfold count, failures, reported; simpl;
    repeat split; first [done | lia | rewrite ?app_nil_r; by destruct s].
Qed.

Lemma pickAndSendPicture_orderly (env : Env) (s s' : State) (o : Outcome JsValue) :
  _pickAndSendPicture env s = (s', o) → orderly s s'.
Proof.
  unfold orderly. unfold_command. run_paths; end_path;
    unfold count, failures, reported; simpl;
    repeat split; first [done | lia | rewrite ?app_nil_r; by destruct s].
Qed.

Lemma pickAndSendVideo_orderly (env : Env) (s s' : State) (o : Outcome JsValue) :
  _pickAndSendVideo env s = (s', o) → orderly s s'.
Proof.
  unfold orderly. unfold_command. run_paths; end_path;
    unfold count, failures, reported; simpl;
    repeat split; first [done | lia | rewrite ?app_nil_r; by destruct s].
Qed.

(** X10. Every send command runs in order, whatever the room and the
    platform answer: it changes nothing of the view model (no field, no
    tracked object, no timeout; only the trace of what it did grows), it
    sends at most one message and makes no call after the send, at most
    one of its calls fails and at most one error is reported, and when a
    call failed no message was delivered. *)
Theorem send_commands_run_in_order (env : Env) (s : State) :
  (∀ message replyingTo, orderly s (_sendMessage env message replyingTo s).1)
  ∧ (∀ file, orderly s (_sendFile env file s).1)
  ∧ orderly s (_pickAndSendFile env s).1
  ∧ orderly s (_pickAndSendPicture env s).1
  ∧ orderly s (_pickAndSendVideo env s).1.
Proof.
  split; [|split; [|split; [|split]]].
  - intros message replyingTo.
    destruct (_sendMessage env message replyingTo s) as [s' o] eqn:Hrun.
    exact (sendMessage_orderly env s s' o message replyingTo Hrun).
  - intros file. destruct (_sendFile env file s) as [s' o] eqn:Hrun.
    exact (sendFile_orderly env s s' o file Hrun).
  - destruct (_pickAndSendFile env s) as [s' o] eqn:Hrun.
    exact (pickAndSendFile_orderly env s s' o Hrun).
  - destruct (_pickAndSendPicture env s) as [s' o] eqn:Hrun.
    exact (pickAndSendPicture_orderly env s s' o Hrun).
  - destruct (_pickAndSendVideo env s) as [s' o] eqn:Hrun.
    exact (pickAndSendVideo_orderly env s s' o Hrun).
Qed.

Lemma trimStart_blank (s : jsstring) :
  Forall (λ c, isWhiteSpace c = true) s → trimStart s = [].
Proof. induction 1 as [|c s Hc Hs IH]; simpl; [done|]. by rewrite Hc. Qed.

Lemma trim_blank (s : jsstring) :
  Forall (λ c, isWhiteSpace c = true) s → trim s = [].
Proof. intros Hs. unfold trim, trimEnd. by rewrite (trimStart_blank s Hs). Qed.

(** X11. The emptiness of a message is checked before the "/me " prefix is
    taken off: in a room that is not archived, a message that consists of
    "/me " and nothing but white space is sent as an "m.emote" with an empty
    body, and [_sendMessage] returns true when that send succeeds. *)
Theorem sendMessage_blank_emote (env : Env) (s : State) (rest : jsstring)
    (replyingTo : option nat) :
  isArchived (_room s) = false →
  Forall (λ c, isWhiteSpace c = true) rest →
  let '(s', o) := _sendMessage env (js "/me " ++ rest) replyingTo s in
  let op := send_op replyingTo "m.emote" [] in
  match env _ op (trace s) with
  | Resolved _ =>
      news s s' = [Called op (Resolved tt)] ∧ o = Resolved (boolean true)
  | Rejected e =>
      news s s' = [Called op (Rejected e); ReportError e]
      ∧ o = Resolved (boolean false)
  end.
Proof.
  intros Harch Hrest.
  assert (startsWith (js "/me " ++ rest) (js "/me ") = true) as Hprefix
    by (apply startsWith_spec; by exists rest).
  assert (trim (substr (js "/me " ++ rest) 4) = []) as Htrim
    by (change (trim rest = []); by apply trim_blank).
  unfold_command. rewrite Harch, Hprefix, Htrim.
  change (truthy (js "/me " ++ rest)) with true. simpl.
  destruct replyingTo as [entry|]; simpl;
    match goal with |- context [env unit ?op ?tr] =>
      destruct (env unit op tr) as [[]|e] end; simpl;
    rewrite <- ?app_assoc, drop_app_length; done.
Qed.

Lemma sendMessage_blank_emote_witness :
  let s := new_RoomViewModel room1 None in
  let '(s', o) := _sendMessage env_ok (js "/me " ++ js "  ") None s in
  news s s' = [Called (send_op None "m.emote" []) (Resolved tt)]
  ∧ o = Resolved (boolean true).
Proof.
  intros s.
  assert (Forall (λ c, isWhiteSpace c = true) (js "  ")) as Hrest
    by (repeat constructor).
  exact (sendMessage_blank_emote env_ok s (js "  ") None eq_refl Hrest).
Defined.

Ltac in_list := solve [repeat (first [left | right])].

Ltac one_sent :=
  let Hin := fresh "Hin" in
  let Hty := fresh "Hty" in
  intros ? ? Hin Hty;
  first [ by apply elem_of_nil in Hin
        | apply list_elem_of_singleton in Hin; injection Hin as -> ->;
          first [ discriminate Hty | clear Hty ] ].

Ltac any_sent :=
  let Hin := fresh "Hin" in
  intros ? ? Hin;
  first [ by apply elem_of_nil in Hin
        | apply list_elem_of_singleton in Hin; injection Hin as -> -> ].

Ltac use_branches :=
  repeat match goal with
    | H : truthy_number ?a = _ |- context [truthy_number ?a] => rewrite H
    | H : (?a >? ?b) = _ |- context [?a >? ?b] => rewrite H
    | H : startsWith ?a ?b = _ |- context [startsWith ?a ?b] => rewrite H
    end.

(** Running a command without looking into what is to be proved of it. *)
Ltac run_command :=
  match goal with
  | |- _ → ?C =>
      let Concl := fresh "Concl" in
      set (Concl := C); unfold_command; run_paths;
      let H := fresh "H" in
      intros H; unfold Concl; clear Concl; revert H; end_path
  end.

Lemma pickAndSendPicture_sent (env : Env) (s s' : State) (o : Outcome JsValue) :
  _pickAndSendPicture env s = (s', o) →
  ∀ content attachments,
    (content, attachments) ∈ sent (news s s') →
    msgtype content = "m.image"%string →
    picture_message (news s s') content attachments.
Proof.
  unfold picture_message. run_command; one_sent.
  all: do 3 eexists.
  all: do 5 (split; [reflexivity|]).
  all: split; [simpl; in_list|].
  all: split;
    [ simpl; use_branches;
      first [ done | do 2 eexists; repeat split; try reflexivity; in_list ] |].
  all: eexists; split; [reflexivity|]; unfold size_limit; simpl; use_branches;
    simpl; use_branches; repeat split; first [done | in_list].
Qed.

Lemma pickAndSendVideo_sent (env : Env) (s s' : State) (o : Outcome JsValue) :
  _pickAndSendVideo env s = (s', o) →
  ∀ content attachments,
    (content, attachments) ∈ sent (news s s') →
    msgtype content = "m.video"%string →
    video_message (news s s') content attachments.
Proof.
  unfold video_message. run_command; one_sent.
  all: do 6 eexists.
  all: do 9 (split; [reflexivity|]).
  all: split; [simpl; in_list|].
  all: split; [simpl; in_list|].
  all: unfold size_limit; simpl; use_branches; simpl; split; [in_list|done].
Qed.

Lemma pickAndSendFile_sent (env : Env) (s s' : State) (o : Outcome JsValue) :
  _pickAndSendFile env s = (s', o) →
  ∀ content attachments,
    (content, attachments) ∈ sent (news s s') →
    sent_as_it_is (news s s') content attachments.
Proof. unfold sent_as_it_is. run_command; any_sent; by do 2 eexists. Qed.

Lemma pickAndSendPicture_fallback (env : Env) (s s' : State) (o : Outcome JsValue) :
  _pickAndSendPicture env s = (s', o) →
  ∀ content attachments,
    (content, attachments) ∈ sent (news s s') →
    if sent_as_file (js "image/") (news s s')
    then sent_as_it_is (news s s') content attachments
    else msgtype content = "m.image"%string.
Proof.
  unfold sent_as_it_is. run_command; any_sent;
    unfold sent_as_file; simpl; use_branches; simpl;
    first [ done | by do 2 eexists ].
Qed.

Lemma pickAndSendVideo_fallback (env : Env) (s s' : State) (o : Outcome JsValue) :
  _pickAndSendVideo env s = (s', o) →
  ∀ content attachments,
    (content, attachments) ∈ sent (news s s') →
    if sent_as_file (js "video/") (news s s')
    then sent_as_it_is (news s s') content attachments
    else msgtype content = "m.video"%string.
Proof.
  unfold sent_as_it_is. run_command; any_sent;
    unfold sent_as_file; simpl; use_branches; simpl;
    first [ done | by do 2 eexists ].
Qed.

Lemma pickAndSendPicture_permission (env : Env) (s s' : State) (o : Outcome JsValue) :
  _pickAndSendPicture env s = (s', o) → asks_permission (news s s') o.
Proof. unfold asks_permission. run_command; done. Qed.

Lemma pickAndSendVideo_permission (env : Env) (s s' : State) (o : Outcome JsValue) :
  _pickAndSendVideo env s = (s', o) → asks_permission (news s s') o.
Proof. unfold asks_permission. run_command; done. Qed.

Lemma pickAndSendFile_any_room (env : Env) (room : Room) (s : State) :
  _pickAndSendFile env (with_room room s) = on_room room (_pickAndSendFile env s).
Proof. unfold on_room. unfold_command. simpl. run_paths; reflexivity. Qed.

Lemma pickAndSendPicture_any_room (env : Env) (room : Room) (s : State) :
  _pickAndSendPicture env (with_room room s) = on_room room (_pickAndSendPicture env s).
Proof. unfold on_room. unfold_command. simpl. run_paths; reflexivity. Qed.

Lemma pickAndSendVideo_any_room (env : Env) (room : Room) (s : State) :
  _pickAndSendVideo env (with_room room s) = on_room room (_pickAndSendVideo env s).
Proof. unfold on_room. unfold_command. simpl. run_paths; reflexivity. Qed.

Lemma pickAndSendPicture_fallback_end (env : Env) (s s' : State) (o : Outcome JsValue) :
  _pickAndSendPicture env s = (s', o) →
  sent_as_file (js "image/") (news s s') = true →
  reported (news s s') = [] ∧ o = as_sendFile (news s s').
Proof.
  unfold as_sendFile. run_command; unfold sent_as_file; simpl; use_branches; simpl;
    done.
Qed.

Lemma pickAndSendVideo_fallback_end (env : Env) (s s' : State) (o : Outcome JsValue) :
  _pickAndSendVideo env s = (s', o) →
  sent_as_file (js "video/") (news s s') = true →
  reported (news s s') = [] ∧ o = as_sendFile (news s s').
Proof.
  unfold as_sendFile. run_command; unfold sent_as_file; simpl; use_branches; simpl;
    done.
Qed.

Lemma permission_needed (tr : list Event) (o : Outcome JsValue) :
  asks_permission tr o →
  permission tr = Some (Resolved true) ∨ count is_send tr = 0%nat.
Proof.
  unfold asks_permission. destruct (permission tr) as [[[]|e]|]; [by left| | |done];
    intros [-> _]; by right.
Qed.

(** C9 as the code has it.  [_sendMessage] returns a boolean, reports every
    failure of its call, returns true exactly when the one send succeeded,
    and does nothing at all for an archived room or an empty message.
    [_pickAndSendPicture] and [_pickAndSendVideo] send nothing unless the
    read-pixel permission was granted and a file was picked; for a picked
    file of the requested media type they resolve with undefined, and the
    errors they pass to [reportError] are exactly the failures of their
    calls (for a video, with the MediaError of an unsupported format
    replaced by the error that says so); for a picked file of another type
    they report nothing and end as [_sendFile] ends.  [_pickAndSendFile]
    sends nothing and resolves with undefined when no file is picked.  None
    of the three pick commands resolves with a boolean, and none of them
    looks at the room: on any other room, archived or not, they do the
    same. *)
Theorem send_commands_contract (env : Env) (s : State) :
  (∀ message replyingTo,
     let '(s', o) := _sendMessage env message replyingTo s in
     ∃ b, o = Resolved (boolean b)
          ∧ reported (news s s') = failures (news s s')
          ∧ (b = true ↔ failures (news s s') = [] ∧ count is_send (news s s') = 1%nat)
          ∧ (isArchived (_room s) || negb (truthy message) = true → news s s' = []))
  ∧ (let '(s', o) := _pickAndSendPicture env s in
     (∀ b, o ≠ Resolved (boolean b))
     ∧ (picked (news s s') = None → count is_send (news s s') = 0%nat)
     ∧ (permission (news s s') = Some (Resolved true)
        ∨ count is_send (news s s') = 0%nat)
     ∧ (if sent_as_file (js "image/") (news s s')
        then reported (news s s') = [] ∧ o = as_sendFile (news s s')
        else o = Resolved undefined ∧ reported (news s s') = failures (news s s'))
     ∧ ∀ room, _pickAndSendPicture env (with_room room s) = (with_room room s', o))
  ∧ (let '(s', o) := _pickAndSendVideo env s in
     (∀ b, o ≠ Resolved (boolean b))
     ∧ (picked (news s s') = None → count is_send (news s s') = 0%nat)
     ∧ (permission (news s s') = Some (Resolved true)
        ∨ count is_send (news s s') = 0%nat)
     ∧ (if sent_as_file (js "video/") (news s s')
        then reported (news s s') = [] ∧ o = as_sendFile (news s s')
        else o = Resolved undefined
             ∧ reported (news s s') = video_failures (news s s'))
     ∧ ∀ room, _pickAndSendVideo env (with_room room s) = (with_room room s', o))
  ∧ (let '(s', o) := _pickAndSendFile env s in
     (∀ b, o ≠ Resolved (boolean b))
     ∧ (picked (news s s') = None →
        o = Resolved undefined ∧ count is_send (news s s') = 0%nat)
     ∧ ∀ room, _pickAndSendFile env (with_room room s) = (with_room room s', o)).
Proof.
  split; [|split; [|split]].
  - intros message replyingTo.
    destruct (_sendMessage env message replyingTo s) as [s' o] eqn:Hrun.
    exact (sendMessage_contract env s s' o message replyingTo Hrun).
  - pose proof (pickAndSendPicture_any_room env) as Hroom.
    destruct (_pickAndSendPicture env s) as [s' o] eqn:Hrun.
    destruct (pickAndSendPicture_contract env s s' o Hrun) as (Hb & Hnone & Hrep).
    split; [done|]. split; [done|].
    split; [exact (permission_needed _ _ (pickAndSendPicture_permission env s s' o Hrun))|].
    split.
    + destruct (sent_as_file (js "image/") (news s s')) eqn:Has; [|done].
      exact (pickAndSendPicture_fallback_end env s s' o Hrun Has).
    + intros room. by rewrite Hroom, Hrun.
  - pose proof (pickAndSendVideo_any_room env) as Hroom.
    destruct (_pickAndSendVideo env s) as [s' o] eqn:Hrun.
    destruct (pickAndSendVideo_contract env s s' o Hrun) as (Hb & Hnone & Hrep).
    split; [done|]. split; [done|].
    split; [exact (permission_needed _ _ (pickAndSendVideo_permission env s s' o Hrun))|].
    split.
    + destruct (sent_as_file (js "video/") (news s s')) eqn:Has; [|done].
      exact (pickAndSendVideo_fallback_end env s s' o Hrun Has).
    + intros room. by rewrite Hroom, Hrun.
  - pose proof (pickAndSendFile_any_room env) as Hroom.
    destruct (_pickAndSendFile env s) as [s' o] eqn:Hrun.
    destruct (pickAndSendFile_contract env s s' o Hrun) as (Hb & Hnone).
    split; [done|]. split; [done|]. intros room. by rewrite Hroom, Hrun.
Qed.

(** X12. Whatever the platform and the room answer, a message that
    [_pickAndSendPicture] sends as "m.image" has the name of the picked
    file as body and the info of the image that is attached; that image is
    the loaded one, or, when the size limit of the settings is set and the
    loaded image exceeds it, the loaded image scaled to the limit, the
    loaded one being disposed; the message has a thumbnail exactly when
    the [maxDimension] of the image exceeds 600, and the thumbnail is the
    image scaled to 400. *)
Theorem picture_is_sent_with_its_thumbnail (env : Env) (s : State)
    (content : Content) (attachments : option Attachments) :
  let tr := news s (_pickAndSendPicture env s).1 in
  (content, attachments) ∈ sent tr →
  msgtype content = "m.image"%string →
  picture_message tr content attachments.
Proof.
  intros tr. unfold tr. destruct (_pickAndSendPicture env s) as [s' o] eqn:Hrun.
  exact (pickAndSendPicture_sent env s s' o Hrun content attachments).
Qed.

Lemma picture_is_sent_with_its_thumbnail_witness :
  let s := new_RoomViewModel room1 None in
  let tr := news s (_pickAndSendPicture env_limit s).1 in
  let image := small photo 320 in
  let content :=
    {| body := js "cat.png"; msgtype := "m.image"; info := Some (imageToInfo image) |} in
  let attachments := Some {| url := 3%nat; info_thumbnail_url := None |} in
  sent tr = [(content, attachments)] ∧ disposed_media tr = [photo]
  ∧ picture_message tr content attachments.
Proof.
  intros s tr image content attachments.
  split; [reflexivity|]. split; [reflexivity|].
  apply (picture_is_sent_with_its_thumbnail env_limit s content attachments);
    [left|reflexivity].
Defined.

(** X13. Whatever the platform and the room answer, a message that
    [_pickAndSendVideo] sends as "m.video" has the name of the picked file
    as body and the info of the loaded video with its duration, and always
    a thumbnail: the video scaled to the size limit of the settings when
    one is set, and to the smaller of its own size and 800 otherwise.  The
    attachments are created from the blobs of the video and of the
    thumbnail; nothing is disposed. *)
Theorem video_is_sent_with_a_thumbnail (env : Env) (s : State)
    (content : Content) (attachments : option Attachments) :
  let tr := news s (_pickAndSendVideo env s).1 in
  (content, attachments) ∈ sent tr →
  msgtype content = "m.video"%string →
  video_message tr content attachments.
Proof.
  intros tr. unfold tr. destruct (_pickAndSendVideo env s) as [s' o] eqn:Hrun.
  exact (pickAndSendVideo_sent env s s' o Hrun content attachments).
Qed.

Lemma video_is_sent_with_a_thumbnail_witness :
  let s := new_RoomViewModel room1 None in
  let tr := news s (_pickAndSendVideo env_limit s).1 in
  let content :=
    {| body := js "cat.webm"; msgtype := "m.video";
       info := Some (set_thumbnail_info (videoToInfo clip) (small clip 320)) |} in
  let attachments := Some {| url := 3%nat; info_thumbnail_url := Some 3%nat |} in
  sent tr = [(content, attachments)]
  ∧ scaled tr = [(clip, 320, Resolved (small clip 320))]
  ∧ video_message tr content attachments.
Proof.
  intros s tr content attachments.
  split; [reflexivity|]. split; [reflexivity|].
  apply (video_is_sent_with_a_thumbnail env_limit s content attachments);
    [left|reflexivity].
Defined.

(** X14. A picked file that is not of the requested media type is sent as
    it is: whatever [_pickAndSendFile] sends, and whatever
    [_pickAndSendPicture] and [_pickAndSendVideo] send for a file whose
    mime type does not start with "image/" or "video/", is an "m.file"
    with the name of the file as body, without info and thumbnail, with the
    one attachment created from the blob of the file, and nothing is loaded
    or scaled for it; every other message of the two is an "m.image" or an
    "m.video". *)
Theorem other_files_are_sent_as_they_are (env : Env) (s : State)
    (content : Content) (attachments : option Attachments) :
  (let tr := news s (_pickAndSendFile env s).1 in
   (content, attachments) ∈ sent tr → sent_as_it_is tr content attachments)
  ∧ (let tr := news s (_pickAndSendPicture env s).1 in
     (content, attachments) ∈ sent tr →
     if sent_as_file (js "image/") tr then sent_as_it_is tr content attachments
     else msgtype content = "m.image"%string)
  ∧ (let tr := news s (_pickAndSendVideo env s).1 in
     (content, attachments) ∈ sent tr →
     if sent_as_file (js "video/") tr then sent_as_it_is tr content attachments
     else msgtype content = "m.video"%string).
Proof.
  split; [|split]; intros tr; unfold tr.
  - destruct (_pickAndSendFile env s) as [s' o] eqn:Hrun.
    exact (pickAndSendFile_sent env s s' o Hrun content attachments).
  - destruct (_pickAndSendPicture env s) as [s' o] eqn:Hrun.
    exact (pickAndSendPicture_fallback env s s' o Hrun content attachments).
  - destruct (_pickAndSendVideo env s) as [s' o] eqn:Hrun.
    exact (pickAndSendVideo_fallback env s s' o Hrun content attachments).
Qed.

Lemma other_files_are_sent_as_they_are_witness :
  let s := new_RoomViewModel room1 None in
  let tr := news s (_pickAndSendVideo env_ok s).1 in
  let content := {| body := js "cat.png"; msgtype := "m.file"; info := None |} in
  let attachments := Some {| url := 3%nat; info_thumbnail_url := None |} in
  sent tr = [(content, attachments)] ∧ sent_as_file (js "video/") tr = true
  ∧ sent_as_it_is tr content attachments.
Proof.
  intros s tr content attachments.
  split; [reflexivity|]. split; [reflexivity|].
  refine (proj2 (proj2 (other_files_are_sent_as_they_are env_ok s content attachments)) _).
  left.
Defined.

(** X15. [_pickAndSendPicture] and [_pickAndSendVideo] ask for the
    read-pixel permission before anything else: with the permission they
    show no alert and open the file picker once; without it they show the
    alert, open no file picker, send nothing and resolve with undefined;
    when asking fails, the error is reported and nothing else is done. *)
Theorem pixel_permission_comes_first (env : Env) (s : State) :
  asks_permission (news s (_pickAndSendPicture env s).1) (_pickAndSendPicture env s).2
  ∧ asks_permission (news s (_pickAndSendVideo env s).1) (_pickAndSendVideo env s).2.
Proof.
  split.
  - destruct (_pickAndSendPicture env s) as [s' o] eqn:Hrun.
    exact (pickAndSendPicture_permission env s s' o Hrun).
  - destruct (_pickAndSendVideo env s) as [s' o] eqn:Hrun.
    exact (pickAndSendVideo_permission env s s' o Hrun).
Qed.

(** ** Starting a call *)

Section start_call_facts.
Context {number : Type}.
Variable times100 : number → number.
Variable Math_round : number → number.
Variable toString : number → jsstring.

Ltac unfold_call :=
  unfold startCall, attempt, ask, C_lift, C_try, C_bind, C_ret, reportError, log,
    get, modify, news.

Ltac end_call :=
  unfold call_plan; simpl; repeat split;
  first [ done | lia | by repeat constructor
        | match goal with s : State |- _ => by destruct s end
        | rewrite !Forall_cons; simpl; intuition congruence ].

(** X16. [startCall] never fails and resolves with undefined, whatever the
    platform, the call handler and the call answer.  It makes its calls in
    this order - the media tracks [getMediaTracks(false, true)], the random
    number, the creation of an "m.video" call for the room, named "A call "
    and the rounded number, and the join of that call with the local media
    of those tracks - and stops at the first one that fails: that failure,
    and nothing else, is reported, as a new Error whose message is the text
    of the stage ("Could not get local audio and/or video stream: ", "Could
    not create call: ", "Could not join call: ") followed by the message
    of the failure.  When no call fails, all four are made and nothing is
    reported.  Nothing of the view model changes but the trace. *)
Theorem startCall_reports_the_first_failure (cenv : CallEnv) (s : State)
    (before : list (@Asked number)) :
  ∃ r1 r2 r3 r4 s',
    let asked :=
      call_plan times100 Math_round toString (room_id (_room s)) r1 r2 r3 r4 in
    startCall times100 Math_round toString cenv (s, before)
    = ((s', before ++ asked), Resolved undefined)
    ∧ r1 = cenv _ (getMediaTracks false true) before
    ∧ s' = set_trace (trace s ++ news s s') s
    ∧ (1 ≤ length asked ≤ 4)%nat
    ∧ Forall (λ a, has_failed a = false) (removelast asked)
    ∧ news s s' = from_option report_of [] (last asked)
    ∧ (Forall (λ a, has_failed a = false) asked → length asked = 4%nat).
Proof.
  unfold_call. simpl.
  destruct (cenv nat (getMediaTracks false true) before) as [stream|e1] eqn:E1;
    simpl.
  - destruct (cenv number random
                (before ++ [Ask (getMediaTracks false true) (Resolved stream)]))
      as [n|e2] eqn:E2; simpl.
    + match goal with |- context [cenv nat ?op ?l] =>
        destruct (cenv nat op l) as [call|e3] eqn:E3 end; simpl.
      * match goal with |- context [cenv unit ?op ?l] =>
          destruct (cenv unit op l) as [[]|e4] eqn:E4 end; simpl.
        -- exists (Resolved stream), (Resolved n), (Resolved call), (Resolved tt).
           eexists. simpl. rewrite <- !app_assoc. simpl.
           split; [reflexivity|]. simpl. rewrite drop_all, app_nil_r.
           end_call.
        -- exists (Resolved stream), (Resolved n), (Resolved call), (Rejected e4).
           eexists. simpl. rewrite <- !app_assoc. simpl.
           split; [reflexivity|]. simpl. rewrite drop_app_length. end_call.
      * exists (Resolved stream), (Resolved n), (Rejected e3), (Rejected e3).
        eexists. simpl. rewrite <- !app_assoc. simpl.
        split; [reflexivity|]. simpl. rewrite drop_app_length. end_call.
    + exists (Resolved stream), (Rejected e2), (Rejected e2), (Rejected e2).
      eexists. simpl. rewrite <- !app_assoc. simpl.
      split; [reflexivity|]. simpl. rewrite drop_app_length. end_call.
  - exists (Rejected e1), (Rejected e1), (Rejected e1), (Rejected e1).
    eexists. simpl. split; [reflexivity|]. simpl. rewrite drop_app_length.
    end_call.
Qed.

(** X17. When [startCall] joins a call, it joins the call that the call
    handler has just created - for the room of the view model, of type
    "m.video", named "A call " followed by the rounded random number - and
    with the local media made of the media tracks it got first. *)
Theorem startCall_joins_the_created_call (cenv : CallEnv) (s : State)
    (before : list (@Asked number)) (call : nat) (localMedia : LocalMedia)
    (r : Outcome unit) :
  let log := (startCall times100 Math_round toString cenv (s, before)).1.2 in
  (call, localMedia, r) ∈ joined (drop (length before) log) →
  ∃ stream n,
    localMedia = withUserMedia stream
    ∧ log = before
        ++ [Ask (getMediaTracks false true) (Resolved stream);
            Ask random (Resolved n);
            Ask (createCall (room_id (_room s)) "m.video"
                   (js "A call " ++ toString (Math_round (times100 n))))
                (Resolved call);
            Ask (join call localMedia) r].
Proof.
  unfold_call. simpl.
  destruct (cenv nat (getMediaTracks false true) before) as [stream|e1] eqn:E1; simpl;
    [destruct (cenv number random (before ++ [Ask (getMediaTracks false true) (Resolved stream)]))
       as [n|e2] eqn:E2; simpl;
     [match goal with |- context [cenv nat ?op ?l] =>
        destruct (cenv nat op l) as [c|e3] eqn:E3 end; simpl;
      [match goal with |- context [cenv unit ?op ?l] =>
         destruct (cenv unit op l) as [[]|e4] eqn:E4 end; simpl|]|]|];
    rewrite <- ?app_assoc; simpl; rewrite drop_app_length; simpl;
    intros Hin;
    first [ by apply elem_of_nil in Hin
          | apply list_elem_of_singleton in Hin; injection Hin as -> -> ->;
            by exists stream, n ].
Qed.

End start_call_facts.

Lemma startCall_joins_the_created_call_witness :
  let times100 := λ n : nat, (n * 100)%nat in
  let toString := λ n : nat, js "4200" in
  let s := new_RoomViewModel room1 None in
  let run := startCall times100 id toString env_call (s, []) in
  joined run.1.2 = [(12%nat, withUserMedia 11, Rejected boom)]
  ∧ reported (news s run.1.1)
    = [new_Error (js "Could not join call: " ++ js "boom")]
  ∧ ∃ stream n,
      run.1.2
      = [Ask (getMediaTracks false true) (Resolved stream);
         Ask random (Resolved n);
         Ask (createCall "!room:hs" "m.video" (js "A call " ++ js "4200")) (Resolved 12%nat);
         Ask (join 12 (withUserMedia stream)) (Rejected boom)].
Proof.
  intros times100 toString s run. split; [reflexivity|]. split; [reflexivity|].
  destruct (startCall_joins_the_created_call times100 id toString env_call s []
              12%nat (withUserMedia 11) (Rejected boom)) as (stream & n & Hm & Hlog).
  - left.
  - exists stream, n. injection Hm as <-. exact Hlog.
Defined.
